(** * nanobox: the archive-and-transfer subsystem (util/file) and the
      [evar] commands (commands/dev/env.go)

    A shallow embedding of [util/file/file.go] ([Copy], [Tar], [Untar],
    [Download], [Progress], [copyFile], [copyDir]) and of
    [commands/dev/env.go] ([envAddFn], [envRemoveFn]), with the properties
    of the design document stated over it.

    The Go standard library is not part of the repository; the calls the
    code makes into it ([os], [io], [path/filepath], [archive/tar],
    [net/http], [strings]) are modelled after their documentation, each in
    the section named after its package. *)

From Stdlib Require Import ZArith QArith Strings.String Strings.Ascii List.
From stdpp Require Import gmap strings list fin_maps sorting.

Local Open Scope string_scope.
Local Open Scope list_scope.
Local Open Scope Z_scope.

(** ** Paths

    A path is kept as the list of its components, innermost first:
    [a/b/f] is ["f"; "b"; "a"].  [filepath.Join dir name], for a [name]
    reported by a directory listing, adds one component; the parent of
    a path is its tail, and [q] lies at or below [p] when [p] is a suffix
    of [q].  [[]] is the root the other paths are relative to. *)

Abbreviation path := (list string).

Definition filepath_Join (dir : path) (name : string) : path := name :: dir.

(** ** os.FileMode

    A [uint32]: nine permission bits and, above them, the type bits. *)

Definition ModeDir        : Z := Z.shiftl 1 31.
Definition ModeSymlink    : Z := Z.shiftl 1 27.
Definition ModeDevice     : Z := Z.shiftl 1 26.
Definition ModeNamedPipe  : Z := Z.shiftl 1 25.
Definition ModeSocket     : Z := Z.shiftl 1 24.
Definition ModeCharDevice : Z := Z.shiftl 1 21.
Definition ModeIrregular  : Z := Z.shiftl 1 19.

Definition ModeType : Z :=
  Z.lor ModeDir (Z.lor ModeSymlink (Z.lor ModeNamedPipe (Z.lor ModeSocket
    (Z.lor ModeDevice (Z.lor ModeCharDevice ModeIrregular))))).

Definition ModePerm : Z := 511. (* 0777 *)

(** [func (m FileMode) IsDir() bool { return m&ModeDir != 0 }] *)
Definition IsDir (m : Z) : bool := negb (Z.land m ModeDir =? 0).

(** [func (m FileMode) IsRegular() bool { return m&ModeType == 0 }] *)
Definition IsRegular (m : Z) : bool := Z.land m ModeType =? 0.

(** [func (m FileMode) Perm() FileMode { return m & ModePerm }] *)
Definition Perm (m : Z) : Z := Z.land m ModePerm.

(** ** The file system *)

Inductive special := Symlink | NamedPipe | Socket | Device | CharDevice.

Definition special_bits (k : special) : Z :=
  match k with
  | Symlink => ModeSymlink
  | NamedPipe => ModeNamedPipe
  | Socket => ModeSocket
  | Device => ModeDevice
  | CharDevice => Z.lor ModeDevice ModeCharDevice
  end.

Inductive node :=
  | NFile (perm : Z) (data : list Byte.byte)
  | NDir (perm : Z)
  | NOther (k : special) (perm : Z).

#[global] Instance special_eq_dec : EqDecision special.
Proof. solve_decision. Defined.

#[global] Instance byte_eq_dec : EqDecision Byte.byte := Byte.byte_eq_dec.

#[global] Instance node_eq_dec : EqDecision node.
Proof. solve_decision. Defined.

(** The mode [Lstat] reports for a node. *)
Definition mode_of (nd : node) : Z :=
  match nd with
  | NFile p _ => p
  | NDir p => Z.lor ModeDir p
  | NOther k p => Z.lor (special_bits k) p
  end.

Definition size_of (nd : node) : Z :=
  match nd with
  | NFile _ d => Z.of_nat (length d)
  | _ => 0
  end.

Abbreviation FS := (gmap path node).

Record FileInfo := mkFileInfo { Name_ : string; Mode_ : Z; Size_ : Z }.

Definition base (p : path) : string :=
  match p with
  | n :: _ => n
  | [] => "/"
  end.

Definition info_of (p : path) (nd : node) : FileInfo :=
  mkFileInfo (base p) (mode_of nd) (size_of nd).

(** The [FileInfo] a listing gives for an entry. *)
Definition entry_info (kid : string * node) : FileInfo :=
  mkFileInfo kid.1 (mode_of kid.2) (size_of kid.2).

(** ** Errors *)

Inductive errno := ENOENT | ENOTDIR | EEXIST | EISDIR.

Inductive error :=
  | EOF
  | PathError (op : string) (p : path) (e : errno)
  (** [fmt.Errorf("Unhandled type (%v) for %v", header.Typeflag, header.Name)] *)
  | UnhandledType (flag : Z) (name : path)
  (** a decode error of the gzip or tar layer *)
  | DecodeError (msg : string)
  (** a transport error of net/http *)
  | NetError (msg : string)
  (** an error of a sink's [Write] *)
  | WriteError (msg : string).

#[global] Instance errno_eq_dec : EqDecision errno.
Proof. solve_decision. Defined.

#[global] Instance error_eq_dec : EqDecision error.
Proof. solve_decision. Defined.

(** ** A state-and-error monad for the code that works on the disk

    A Go function of type [func(...) (T, error)] that reads and writes
    the file system is a function from the file system to the file system
    after the call and either the value, or the error.  [NoFuel] is not a
    Go outcome: it marks a run of a recursive function that was cut by the
    recursion bound of the embedding. *)

Inductive result (A : Type) :=
  | Ok (a : A)
  | Err (e : error)
  | NoFuel.
Arguments Ok {A} a.
Arguments Err {A} e.
Arguments NoFuel {A}.

Definition M (A : Type) : Type := FS → FS * result A.

Definition ret {A} (a : A) : M A := λ fs, (fs, Ok a).
Definition fail {A} (e : error) : M A := λ fs, (fs, Err e).
Definition bind {A B} (c : M A) (k : A → M B) : M B :=
  λ fs, match c fs with
        | (fs1, Ok a) => k a fs1
        | (fs1, Err e) => (fs1, Err e)
        | (fs1, NoFuel) => (fs1, NoFuel)
        end.

Notation "'let*' x ':=' c 'in' k" := (bind c (λ x, k))
  (at level 10, x name, c at level 100, k at level 200).

(** ** Package os

    The calls are modelled for a process that is allowed what it asks:
    the permission bits are stored and reported, not enforced.

    A symbolic link is kept as a node of its own, without its target.
    [Lstat] and [Readdir] report it as the system does; the calls that
    follow a link on the system ([Stat], [Create], [Chmod], a write
    through the handle) are given the node itself here, which is not
    what the system does with them.  The statements about what those
    calls leave on a disk are therefore made for disks without links
    ([no_links]), unless they hold on the system with links as well. *)

Section os.
(** The file mode creation mask of the process. *)
Variable umask : Z.

(** [syscallMode]: the bits of a [FileMode] that reach the kernel (the
    permission bits; setuid, setgid and sticky are not modelled). *)
Definition syscallMode (m : Z) : Z := Perm m.

(** The mode a new node gets: the requested bits minus the umask. *)
Definition created_perm (perm : Z) : Z := Z.ldiff (syscallMode perm) umask.

(** [os.Lstat]. *)
Definition os_Lstat (name : path) : M FileInfo := λ fs,
  match fs !! name with
  | Some nd => (fs, Ok (info_of name nd))
  | None => (fs, Err (PathError "lstat" name ENOENT))
  end.

(** [os.Stat].  The targets of symbolic links are not modelled; [Stat]
    reports the node at [name] itself. *)
Definition os_Stat (name : path) : M FileInfo := λ fs,
  match fs !! name with
  | Some nd => (fs, Ok (info_of name nd))
  | None => (fs, Err (PathError "stat" name ENOENT))
  end.

(** [os.Mkdir]: the parent must be a directory and [name] must not
    exist. *)
Definition os_Mkdir (name : path) (perm : Z) : M unit := λ fs,
  match fs !! name with
  | Some _ => (fs, Err (PathError "mkdir" name EEXIST))
  | None =>
      match name with
      | [] => (<[name := NDir (created_perm perm)]> fs, Ok tt)
      | _ :: parent =>
          match fs !! parent with
          | Some (NDir _) => (<[name := NDir (created_perm perm)]> fs, Ok tt)
          | Some _ => (fs, Err (PathError "mkdir" name ENOTDIR))
          | None => (fs, Err (PathError "mkdir" name ENOENT))
          end
      end
  end.

(** [os.MkdirAll]: nothing to do when [name] is a directory, an error
    when it is something else; otherwise the parent is made first, with
    the same [perm], and then [name]. *)
Fixpoint os_MkdirAll (name : path) (perm : Z) : M unit := λ fs,
  match fs !! name with
  | Some nd =>
      if IsDir (mode_of nd) then (fs, Ok tt)
      else (fs, Err (PathError "mkdir" name ENOTDIR))
  | None =>
      match name with
      | [] => os_Mkdir name perm fs
      | _ :: parent => (let* _ := os_MkdirAll parent perm in os_Mkdir name perm) fs
      end
  end.

(** [os.Open]: an [os.File] is modelled by the path it was opened at. *)
Definition os_Open (name : path) : M path := λ fs,
  match fs !! name with
  | Some _ => (fs, Ok name)
  | None => (fs, Err (PathError "open" name ENOENT))
  end.

(** [os.Create]: [OpenFile(name, O_RDWR|O_CREATE|O_TRUNC, 0666)].  An
    existing regular file is truncated and keeps its mode; a missing
    one is created with mode 0666 before umask, in a parent that must
    exist; a directory cannot be opened for writing.  Opening a pipe or
    a device succeeds and leaves the file system as it is; so does, here,
    opening a symbolic link, which the system would follow to its
    target (see the head of this section). *)
Definition os_Create (name : path) : M path := λ fs,
  match fs !! name with
  | Some (NFile p _) => (<[name := NFile p []]> fs, Ok name)
  | Some (NDir _) => (fs, Err (PathError "open" name EISDIR))
  | Some (NOther _ _) => (fs, Ok name)
  | None =>
      match name with
      | [] => (fs, Err (PathError "open" name ENOENT))
      | _ :: parent =>
          match fs !! parent with
          | Some (NDir _) => (<[name := NFile (created_perm 438) []]> fs, Ok name)
          | Some _ => (fs, Err (PathError "open" name ENOTDIR))
          | None => (fs, Err (PathError "open" name ENOENT))
          end
      end
  end.

(** [os.Chmod]: sets the permission bits, whatever the umask (of the
    node itself, also where the system would follow a link). *)
Definition os_Chmod (name : path) (mode : Z) : M unit := λ fs,
  match fs !! name with
  | Some (NFile _ d) => (<[name := NFile (syscallMode mode) d]> fs, Ok tt)
  | Some (NDir _) => (<[name := NDir (syscallMode mode)]> fs, Ok tt)
  | Some (NOther k _) => (<[name := NOther k (syscallMode mode)]> fs, Ok tt)
  | None => (fs, Err (PathError "chmod" name ENOENT))
  end.

(** Reading an open file to its end. *)
Definition file_read (f : path) : M (list Byte.byte) := λ fs,
  match fs !! f with
  | Some (NFile _ d) => (fs, Ok d)
  | Some (NDir _) => (fs, Err (PathError "read" f EISDIR))
  | Some (NOther _ _) => (fs, Ok [])
  | None => (fs, Err (PathError "read" f ENOENT))
  end.

(** Writing to an open file: the bytes go after those already written
    through the handle.  What is written to a node that is not a
    regular file is not kept by the file system (nor, here, what is
    written through a link, which the system would give to the
    target). *)
Definition file_write (f : path) (b : list Byte.byte) : M Z := λ fs,
  match fs !! f with
  | Some (NFile p d) => (<[f := NFile p (d ++ b)]> fs, Ok (Z.of_nat (length b)))
  | Some (NDir _) => (fs, Err (PathError "write" f EISDIR))
  | Some (NOther _ _) => (fs, Ok (Z.of_nat (length b)))
  | None => (fs, Err (PathError "write" f ENOENT))
  end.

(** [File.Readdir(-1)]: the entries of a directory, in directory
    order (the order of the map's listing here). *)
Definition children (dir : path) (fs : FS) : list (string * node) :=
  omap (λ '(q, nd), match q with
                    | n :: p => if decide (p = dir) then Some (n, nd) else None
                    | [] => None
                    end) (map_to_list fs).

Definition file_Readdir (dir : path) : M (list FileInfo) := λ fs,
  match fs !! dir with
  | Some (NDir _) =>
      (fs, Ok (map entry_info (children dir fs)))
  | Some _ => (fs, Err (PathError "readdirent" dir ENOTDIR))
  | None => (fs, Err (PathError "readdirent" dir ENOENT))
  end.
End os.

(** [for _, x := range l { body }], leaving at the first error. *)
Fixpoint for_range {A} (l : list A) (body : A → M unit) : M unit :=
  match l with
  | [] => ret tt
  | x :: rest => let* _ := body x in for_range rest body
  end.

(** ** Package io *)

(** [io.Copy(dst, src)] between two open files: [src] is read to its
    end, as it is when the copy runs, and written to [dst]. *)
Definition io_Copy (dst src : path) : M Z :=
  let* b := file_read src in file_write dst b.

(** ** Package path/filepath *)

(** What [Walk] hands to its callback: the [FileInfo] of the path, or the
    error that kept [Walk] from having one. *)
Definition WalkFunc (A : Type) : Type := path → FileInfo + error → A → M A.

(** [readDirNames]: the names in a directory, sorted. *)
Definition readDirNames (dir : path) (fs : FS) : list string :=
  merge_sort String.leb ((children dir fs).*1).

(** The loop of [filepath.walk] over the names in the directory [p]:
    [lstat] on each, then [walk] itself ([rec]) or, if [lstat] failed,
    the callback with the error. *)
Definition walk_names {A} (rec : path → FileInfo → A → M A)
    (walkFn : WalkFunc A) (p : path) : list string → A → M A :=
  fix each (names : list string) (a : A) : M A :=
    match names with
    | [] => ret a
    | name :: rest =>
        let filename := filepath_Join p name in
        λ fs, match os_Lstat filename fs with
              | (_, Ok fileInfo) =>
                  (let* a' := rec filename fileInfo a in each rest a') fs
              | (_, Err err) =>
                  (let* a' := walkFn filename (inr err) a in each rest a') fs
              | (_, NoFuel) => (fs, NoFuel)
              end
    end.

(** [filepath.walk]: the callback on the path itself, then, for a
    directory, on each of its entries in lexical order, recursively.
    ([filepath.SkipDir] is not among the errors of the model; the callback
    of [Tar] never returns it.)  [A] is whatever the callback closes over. *)
Fixpoint walk {A} (fuel : nat) (p : path) (info : FileInfo)
    (walkFn : WalkFunc A) (a : A) : M A :=
  match fuel with
  | O => λ fs, (fs, NoFuel)
  | S fuel' =>
      let* a1 := walkFn p (inl info) a in
      if negb (IsDir (Mode_ info)) then ret a1
      else λ fs,
        walk_names (λ filename info a, walk fuel' filename info walkFn a)
          walkFn p (readDirNames p fs) a1 fs
  end.

(** [filepath.Walk]. *)
Definition filepath_Walk {A} (fuel : nat) (root : path)
    (walkFn : WalkFunc A) (a : A) : M A := λ fs,
  match os_Lstat root fs with
  | (_, Ok info) => walk fuel root info walkFn a fs
  | (_, Err err) => walkFn root (inr err) a fs
  | (_, NoFuel) => (fs, NoFuel)
  end.

(** ** Package archive/tar, under compress/gzip

    The gzip and tar layers are taken at the level of the design's data
    model: a container is the sequence of its entries, a header and the
    [Size] bytes of body that follow it.  Writing a container through
    [tar.Writer] over [gzip.Writer] and reading it back through
    [gzip.Reader] under [tar.Reader] gives the same entries. *)

Definition TypeReg : Z := 48. (* '0' *)
Definition TypeDir : Z := 53. (* '5' *)

Record Header := mkHeader { Name : path; Mode : Z; Size : Z; Typeflag : Z }.

Definition entry : Type := Header * list Byte.byte.

(** [tw.WriteHeader(header)] on a writer over in-memory sinks. *)
Definition tar_WriteHeader (h : Header) (tw : list entry) : list entry :=
  tw ++ [(h, [])].

(** [tw.Write(b)]: the bytes join the body of the entry being written. *)
Definition tar_Write (b : list Byte.byte) (tw : list entry) : list entry :=
  match reverse tw with
  | (h, body) :: before => reverse before ++ [(h, body ++ b)]
  | [] => []
  end.

(** What a [tar.Reader] over a [gzip.Reader] yields: the entries, then
    [io.EOF] ([trailer = None]) or the error of a damaged stream. *)
Record Container := mkContainer { entries : list entry; trailer : option error }.

(** [os.FileMode(header.Mode)]: an [int64] cut to a [uint32]. *)
Definition FileMode_of_int64 (m : Z) : Z := m mod 2 ^ 32.

(** ** util/file/file.go *)

Section file.
Variable umask : Z.

(** [copyFile], file.go lines 224-248. *)
Definition copyFile (src dst : path) : M unit :=
  let* sf := os_Open src in
  let* df := os_Create umask dst in
  let* _ := io_Copy df sf in
  let* fi := os_Stat src in
  os_Chmod dst (Mode_ fi).

(** The body of the loop of [copyDir], file.go lines 279-295; [rec]
    is [copyDir] itself, for the sub-directories. *)
Definition copyDir_entry (rec : path → path → M unit) (src dst : path)
    (fi : FileInfo) : M unit :=
  let srcPath := filepath_Join src (Name_ fi) in
  let dstPath := filepath_Join dst (Name_ fi) in
  if IsDir (Mode_ fi) then rec srcPath dstPath
  else if IsRegular (Mode_ fi) then copyFile srcPath dstPath
  else ret tt.

(** [copyDir], file.go lines 251-299. *)
Fixpoint copyDir (fuel : nat) (src dst : path) : M unit :=
  match fuel with
  | O => λ fs, (fs, NoFuel)
  | S fuel' =>
      let* fi := os_Stat src in
      let* _ := os_MkdirAll umask dst (Mode_ fi) in
      let* dir := os_Open src in
      let* fis := file_Readdir dir in
      for_range fis (copyDir_entry (copyDir fuel') src dst)
  end.

(** [Copy], file.go lines 26-41. *)
Definition Copy (fuel : nat) (dst src : path) : M unit :=
  let* sfi := os_Stat src in
  let* _ := os_MkdirAll umask dst (Mode_ sfi) in
  copyDir fuel src dst.

(** The callback [Tar] gives to [filepath.Walk], file.go lines 58-96;
    the [tar.Writer] it closes over is the state [tw]. *)
Definition tarWalkFn : WalkFunc (list entry) := λ file fi_err tw,
  match fi_err with
  | inr err => fail err
  | inl fi =>
      if IsRegular (Mode_ fi) then
        let header := mkHeader file (Mode_ fi) (Size_ fi) TypeReg in
        let tw := tar_WriteHeader header tw in
        let* f := os_Open file in
        let* b := file_read f in
        ret (tar_Write b tw)
      else ret tw
  end.

(** [Tar], file.go lines 44-97.  The value is the container that
    reached every writer when [Tar] returns nil. *)
Definition Tar (fuel : nat) (path : path) : M (list entry) :=
  filepath_Walk fuel path tarWalkFn [].

(** The loop of [Untar], file.go lines 113-150, over the entries
    [tr.Next()] yields. *)
Fixpoint untar_loop (es : list entry) (trailer : option error) : M unit :=
  match es with
  | [] =>
      match trailer with
      | None => ret tt
      | Some err => fail err
      end
  | (header, body) :: rest =>
      if Typeflag header =? TypeDir then
        let* _ := os_MkdirAll umask (Name header)
                    (FileMode_of_int64 (Mode header)) in
        untar_loop rest trailer
      else if Typeflag header =? TypeReg then
        let* f := os_Create umask (Name header) in
        let* _ := file_write f body in
        untar_loop rest trailer
      else fail (UnhandledType (Typeflag header) (Name header))
  end.

(** [Untar], file.go lines 100-152, on a stream [gzip.NewReader]
    accepted.  [dst] is not used by the body. *)
Definition Untar (dst : path) (r : Container) : M unit :=
  untar_loop (entries r) (trailer r).
End file.

(** ** float64 and int

    The arithmetic of [Progress] is on [float64].  Rounding is left out:
    a finite value is the rational it stands for; the values IEEE 754
    adds to them are kept, since a division by a zero length produces
    them.  (The sign of a zero is not kept: every divisor here is the
    conversion of an integer, which is never the negative zero.) *)

Inductive float64 := Fin (q : Q) | PInf | NInf | NaN.

Definition float64_of_int (z : Z) : float64 := Fin (inject_Z z).

Definition Qsgn (q : Q) : Z := Z.sgn (Qnum q).

Definition fdiv (x y : float64) : float64 :=
  match x, y with
  | NaN, _ | _, NaN => NaN
  | Fin a, Fin b =>
      if Qsgn b =? 0 then
        (if Qsgn a =? 0 then NaN else if 0 <? Qsgn a then PInf else NInf)
      else Fin (a / b)
  | Fin _, (PInf | NInf) => Fin 0
  | (PInf | NInf), (PInf | NInf) => NaN
  | PInf, Fin b => if Qsgn b <? 0 then NInf else PInf
  | NInf, Fin b => if Qsgn b <? 0 then PInf else NInf
  end.

Definition fmul (x y : float64) : float64 :=
  match x, y with
  | NaN, _ | _, NaN => NaN
  | Fin a, Fin b => Fin (a * b)
  | PInf, PInf | NInf, NInf => PInf
  | PInf, NInf | NInf, PInf => NInf
  | PInf, Fin b | Fin b, PInf =>
      if Qsgn b =? 0 then NaN else if 0 <? Qsgn b then PInf else NInf
  | NInf, Fin b | Fin b, NInf =>
      if Qsgn b =? 0 then NaN else if 0 <? Qsgn b then NInf else PInf
  end.

Definition MaxInt64 : Z := 2 ^ 63 - 1.
Definition MinInt64 : Z := - 2 ^ 63.

(** [int] is 64 bits wide; [down += n] wraps. *)
Definition wrap_int (z : Z) : Z := (z + 2 ^ 63) mod 2 ^ 64 - 2 ^ 63.
Definition int_add (a b : Z) : Z := wrap_int (a + b).

Section conversions.
(** The language leaves the [int] of a float64 that no [int] represents
    (a NaN, an infinity, a value out of range) to the implementation. *)
Variable int_of_unrepresentable : float64 → Z.

(** [int(x)]: the fraction is dropped, towards zero. *)
Definition int_of_float64 (x : float64) : Z :=
  match x with
  | Fin q =>
      let z := Z.quot (Qnum q) (Z.pos (Qden q)) in
      if (MinInt64 <=? z) && (z <=? MaxInt64) then z
      else int_of_unrepresentable x
  | _ => int_of_unrepresentable x
  end.
End conversions.

(** ** Packages io, io/ioutil and net/http *)

(** [io.Writer]. *)
Class Writer (W : Type) := Write : W → list Byte.byte → W * (Z * option error).

(** A sink that keeps what it is given: a [bytes.Buffer]. *)
#[global] Instance Buffer_Writer : Writer (list Byte.byte) :=
  λ buf b, (buf ++ b, (Z.of_nat (length b), None)).

(** A sink that fails: a file closed before the write, say. *)
Inductive ClosedFile := closedFile.
#[global] Instance ClosedFile_Writer : Writer ClosedFile :=
  λ w _, (w, (0, Some (WriteError "write: file already closed"))).

(** An [io.Reader] that ends: the chunks its successive [Read]s return
    with a nil error, then the [Read] that returns the [last] bytes
    (possibly none) together with an error, [io.EOF] at the end of the
    data. *)
Record Reader := mkReader {
  reads : list (list Byte.byte);
  last : list Byte.byte;
  cond : error
}.

(** All the bytes the reader delivers. *)
Definition delivered (r : Reader) : list Byte.byte := concat (reads r) ++ last r.

(** [ioutil.ReadAll]: the bytes read and the error met, nil for [io.EOF]. *)
Definition ioutil_ReadAll (r : Reader) : list Byte.byte * option error :=
  (delivered r, if decide (cond r = EOF) then None else Some (cond r)).

Record Response := mkResponse { ContentLength : Z; Body : Reader }.

(** [err.Error()]. *)
Definition Error (e : error) : string :=
  match e with
  | EOF => "EOF"
  | PathError op _ ENOENT => op ++ ": no such file or directory"
  | PathError op _ ENOTDIR => op ++ ": not a directory"
  | PathError op _ EEXIST => op ++ ": file exists"
  | PathError op _ EISDIR => op ++ ": is a directory"
  | UnhandledType _ _ => "Unhandled type"
  | DecodeError msg => msg
  | NetError msg => msg
  | WriteError msg => msg
  end%string.

(** How a call ends: it returns, it panics, or it ends the process. *)
Inductive outcome (A : Type) :=
  | Return (a : A)
  | Panic (msg : string)
  | Exit (status : Z).
Arguments Return {A} a.
Arguments Panic {A} msg.
Arguments Exit {A} status.

(** One progress line of [Progress], file.go line 207: the arguments of
    the [Printf], with [down] before its scaling to megabytes. *)
Record ProgressLine := mkLine {
  line_down : Z;
  line_total : float64;
  line_stars : Z;
  line_percent : float64
}.

Section transport.
(** [http.Get]: the response, nil on a failure of the transport, and
    the error. *)
Variable http_Get : string → option Response * option error.

(** [config.Fatal] is declared in package [config], which is not among
    these sources.  The parameter says whether a call ends the process,
    and then with which status, or comes back to its caller ([None]). *)
Variable config_Fatal : string → string → option Z.

Variable int_of_unrepresentable : float64 → Z.

Context {W : Type} `{Writer W}.

Definition nil_dereference : string :=
  "runtime error: invalid memory address or nil pointer dereference".

(** [Download], file.go lines 155-170.  [defer res.Body.Close()] reads
    [res.Body] when the [defer] statement runs, before [err] is
    looked at. *)
Definition Download (path : string) (w : W) : W * outcome (option error) :=
  let '(res, err) := http_Get path in
  match res with
  | None => (w, Panic nil_dereference)
  | Some res =>
      match err with
      | Some err => (w, Return (Some err))
      | None =>
          let '(b, err) := ioutil_ReadAll (Body res) in
          match
            match err with
            | Some err =>
                config_Fatal "[util/file/file] ioutil.ReadAll() failed - " (Error err)
            | None => None
            end
          with
          | Some status => (w, Exit status)
          | None => let '(w, _) := Write w b in (w, Return None)
          end
      end
  end.

Definition MB : float64 := Fin (inject_Z (1024 ^ 2)).

(** One turn of the loop of [Progress], file.go lines 194-207, for a
    [Read] that returned [chunk]: the sink and the counter after it,
    and the line printed, unless [strings.Repeat] panics on a negative
    count. *)
Definition progress_step (length_ : Z) (total : float64)
    (chunk : list Byte.byte) (w : W) (down : Z) : W * Z * option ProgressLine :=
  let '(w, _) := Write w chunk in
  let down := int_add down (Z.of_nat (length chunk)) in
  let percent :=
    fmul (fdiv (float64_of_int down) (float64_of_int length_)) (Fin 100) in
  let count := int_of_float64 int_of_unrepresentable (fdiv percent (Fin (5 # 2))) in
  (w, down,
   if count <? 0 then None
   else Some (mkLine down total count percent)).

(** The panic of [strings.Repeat] on a negative count (older releases
    of Go panic on the same count in the allocation of the result). *)
Definition negative_Repeat : string := "strings: negative Repeat count".

(** The loop of [Progress], file.go lines 192-218. *)
Fixpoint progress_loop (length_ : Z) (total : float64)
    (reads : list (list Byte.byte)) (last : list Byte.byte) (cond : error)
    (w : W) (down : Z) (out : list ProgressLine)
    : W * Z * list ProgressLine * outcome (option error) :=
  match reads with
  | chunk :: reads =>
      match progress_step length_ total chunk w down with
      | (w, down, None) => (w, down, out, Panic negative_Repeat)
      | (w, down, Some line) =>
          progress_loop length_ total reads last cond w down (out ++ [line])
      end
  | [] =>
      match progress_step length_ total last w down with
      | (w, down, None) => (w, down, out, Panic negative_Repeat)
      | (w, down, Some line) =>
          (w, down, out ++ [line],
           Return (if decide (cond = EOF) then None else Some cond))
      end
  end.

(** [Progress], file.go lines 173-221: the sink, the final value of
    [down], the lines printed and the way the call ends. *)
Definition Progress (path : string) (w : W)
    : W * Z * list ProgressLine * outcome (option error) :=
  let '(download, err) := http_Get path in
  match download with
  | None => (w, 0, [], Panic nil_dereference)
  | Some download =>
      match err with
      | Some err => (w, 0, [], Return (Some err))
      | None =>
          let total := fdiv (float64_of_int (ContentLength download)) MB in
          progress_loop (ContentLength download) total
            (reads (Body download)) (last (Body download)) (cond (Body download))
            w 0 []
      end
  end.
End transport.

(** ** Package strings *)

(** [strings.ToUpper], as it works on a string of ASCII bytes only
    ([isASCII] below): the letters a-z are mapped, the other bytes stay.
    On a string with a byte from 0x80 on, the library maps every rune
    through the tables of package [unicode], which are not modelled: the
    statements that name an upper-cased key are made for ASCII
    strings. *)
Definition upper_ascii (a : ascii) : ascii :=
  let n := nat_of_ascii a in
  if ((97 <=? n) && (n <=? 122))%nat then ascii_of_nat (n - 32) else a.

Fixpoint strings_ToUpper (s : string) : string :=
  match s with
  | EmptyString => EmptyString
  | String a s' => String (upper_ascii a) (strings_ToUpper s')
  end.

(** The test [strings.ToUpper] starts with: every byte is below
    [utf8.RuneSelf], 0x80. *)
Fixpoint isASCII (s : string) : bool :=
  match s with
  | EmptyString => true
  | String a s' => (nat_of_ascii a <? 128)%nat && isASCII s'
  end.

(** [strings.Split(s, sep)] for a [sep] that is not empty: [s] cut at
    every occurrence of [sep], found from the left; [skip] counts the
    bytes of an occurrence still to pass. *)
Fixpoint split_from (sep s : string) (skip : nat) : list string :=
  match s with
  | EmptyString => [EmptyString]
  | String a s' =>
      match skip with
      | S k => split_from sep s' k
      | O =>
          if String.prefix sep s
          then EmptyString :: split_from sep s' (String.length sep - 1)
          else match split_from sep s' 0 with
               | x :: xs => String a x :: xs
               | [] => [String a EmptyString]
               end
      end
  end.

(** With an empty [sep], [strings.Split] cuts after every character
    (here: every byte). *)
Fixpoint explode (s : string) : list string :=
  match s with
  | EmptyString => []
  | String a s' => String a EmptyString :: explode s'
  end.

Definition strings_Split (s sep : string) : list string :=
  match sep with
  | EmptyString => explode s
  | _ => split_from sep s 0
  end.

(** ** commands/dev/env.go *)

(** [models.EnvVars]: a [map[string]string]. *)
Abbreviation EnvVars := (gmap string string).

(** Modelled from the spec: package [util/data] ([data.Get], [data.Put])
    is not among these sources.  The design has the variables as "a flat
    map persisted under an application-scoped key": the store is what is
    persisted under [(config.AppName()+"_meta", "env")], nothing at first.
    [data.Get] fills the map it is given from the store; [data.Put]
    replaces what is stored. *)
Definition Store : Type := option EnvVars.

Definition data_Get (store : Store) (evars : EnvVars) : EnvVars :=
  match store with
  | Some stored => stored ∪ evars
  | None => evars
  end.

Definition data_Put (evars : EnvVars) : Store := Some evars.

(** The body of the inner loop of [envAddFn], env.go lines 67-70. *)
Definition addPair (evars : EnvVars) (pair : string) : EnvVars :=
  let parts := strings_Split pair ":" in
  if (length parts =? 2)%nat then
    match parts with
    | k :: v :: _ => <[strings_ToUpper k := v]> evars
    | _ => evars
    end
  else evars.

(** [envAddFn], env.go lines 62-75. *)
Definition envAddFn (args : list string) (store : Store) : Store :=
  let evars := data_Get store ∅ in
  let evars :=
    foldl (λ evars arg, foldl addPair evars (strings_Split arg ",")) evars args in
  data_Put evars.

(** The body of the inner loop of [envRemoveFn], env.go line 90. *)
Definition removeKey (evars : EnvVars) (key : string) : EnvVars :=
  delete (strings_ToUpper key) evars.

(** [envRemoveFn], env.go lines 85-94. *)
Definition envRemoveFn (args : list string) (store : Store) : Store :=
  let evars := data_Get store ∅ in
  let evars :=
    foldl (λ evars arg, foldl removeKey evars (strings_Split arg ",")) evars args in
  data_Put evars.

(** ** Vocabulary of the statements *)

Definition perm_of (nd : node) : Z :=
  match nd with
  | NFile p _ | NDir p | NOther _ p => p
  end.

Definition is_dir (nd : node) : bool :=
  match nd with
  | NDir _ => true
  | _ => false
  end.

(** A node of a well-formed file system has nine permission bits and
    sits in a directory; the root, if present, is a directory. *)
Definition node_ok (fs : FS) (p : path) (nd : node) : bool :=
  (0 <=? perm_of nd) && (perm_of nd <=? ModePerm) &&
  match p with
  | [] => is_dir nd
  | _ :: parent =>
      match fs !! parent with
      | Some (NDir _) => true
      | _ => false
      end
  end.

Definition wf (fs : FS) : Prop := map_Forall (λ p nd, node_ok fs p nd = true) fs.

#[global] Instance wf_dec fs : Decision (wf fs).
Proof. unfold wf. apply _. Defined.

(** A disk without symbolic links. *)
Definition is_link (nd : node) : bool :=
  match nd with
  | NOther Symlink _ => true
  | _ => false
  end.

Definition no_links (fs : FS) : Prop := map_Forall (λ _ nd, is_link nd = false) fs.

#[global] Instance no_links_dec fs : Decision (no_links fs).
Proof. unfold no_links. apply _. Defined.



(** The entry kinds [Untar] materializes. *)
Definition supported (e : entry) : bool :=
  (Typeflag e.1 =? TypeDir) || (Typeflag e.1 =? TypeReg).

(** [grows fs fs']: every path of [fs] is still there in [fs'].
    [only_under name fs fs']: what is new in [fs'] is [name] or one of
    its ancestors. *)
Definition grows (fs fs' : FS) : Prop :=
  ∀ p, is_Some (fs !! p) → is_Some (fs' !! p).

Definition only_under (name : path) (fs fs' : FS) : Prop :=
  ∀ p, is_Some (fs' !! p) → is_Some (fs !! p) ∨ p `suffix_of` name.

(** The entry [Tar] writes for the regular file at [q]. *)
Definition file_entry (q : path) (perm : Z) (d : list Byte.byte) : entry :=
  (mkHeader q perm (Z.of_nat (length d)) TypeReg, d).

(** [es] holds one entry for each regular file at or below [p]. *)
Definition archived (fs : FS) (p : path) (es : list entry) : Prop :=
  ∀ e, e ∈ es ↔ ∃ r perm d, fs !! (r ++ p) = Some (NFile perm d) ∧
                             e = file_entry (r ++ p) perm d.

(** Nothing is at [dst] or below it. *)
Definition fresh (fs : FS) (dst : path) : Prop :=
  map_Forall (λ q _, ¬ dst `suffix_of` q) fs.

#[global] Instance fresh_dec fs dst : Decision (fresh fs dst).
Proof. unfold fresh. apply _. Defined.

(** What exists on the way to [dst] is a directory. *)
Definition dirs_to (fs : FS) (dst : path) : Prop :=
  ∀ q nd, q `suffix_of` dst → fs !! q = Some nd → is_dir nd = true.

(** ** Concrete inputs *)

Definition bytes_of (s : string) : list Byte.byte := String.list_byte_of_string s.

(** A umask of 022. *)
Definition umask_022 : Z := 18.

(** A disk with nothing but its root, mode 0755. *)
Definition empty_disk : FS := {[ [] := NDir 493 ]}.

(** The type flag of a symbolic link, ['2']. *)
Definition TypeSymlink : Z := 50.

(** A directory [a], a regular file under the same name, then a link. *)
Definition clashing_stream : Container :=
  mkContainer
    [ (mkHeader ["a"] 493 0 TypeDir, []);
      (mkHeader ["a"] 420 2 TypeReg, bytes_of "hi");
      (mkHeader ["l"] 511 0 TypeSymlink, []) ]
    None.

(** A directory, a file in it, a link, and a file after the link. *)
Definition link_stream : Container :=
  mkContainer
    [ (mkHeader ["a"] 493 0 TypeDir, []);
      (mkHeader ["f"; "a"] 420 2 TypeReg, bytes_of "hi");
      (mkHeader ["l"; "a"] 511 0 TypeSymlink, []);
      (mkHeader ["g"; "a"] 420 3 TypeReg, bytes_of "bye") ]
    None.

(** A server that sends "ab" without a Content-Length (the client
    reports -1), one that announces a length of 0 and sends "a", and one
    that sends "hello" with its length, in two reads. *)
Definition get_unknown_length (_ : string) : option Response * option error :=
  (Some (mkResponse (-1) (mkReader [bytes_of "a"] (bytes_of "b") EOF)), None).

Definition get_zero_length (_ : string) : option Response * option error :=
  (Some (mkResponse 0 (mkReader [bytes_of "a"] [] EOF)), None).

Definition get_hello (_ : string) : option Response * option error :=
  (Some (mkResponse 5 (mkReader [bytes_of "hel"] (bytes_of "lo") EOF)), None).

(** A connection that is refused, one that is reset after two bytes of
    four, and a response that comes with an error. *)
Definition get_refused (_ : string) : option Response * option error :=
  (None, Some (NetError "connection refused")).

Definition get_reset (_ : string) : option Response * option error :=
  (Some (mkResponse 4 (mkReader [bytes_of "ab"] [] (NetError "connection reset"))),
   None).

Definition get_redirect_loop (_ : string) : option Response * option error :=
  (Some (mkResponse 0 (mkReader [] [] EOF)), Some (NetError "stopped after 10 redirects")).

(** On amd64 the conversion to [int] of a float64 that no [int]
    represents gives the least [int]. *)
Definition amd64_int (_ : float64) : Z := MinInt64.

(** A [config.Fatal] that ends the process with status 1, and one that
    comes back. *)
Definition fatal_exits (_ _ : string) : option Z := Some 1.
Definition fatal_returns (_ _ : string) : option Z := None.

(** The percent values that are within [0,100]. *)
Definition percent_in_range (x : float64) : Prop :=
  match x with
  | Fin q => (0 <= q)%Q ∧ (q <= 100)%Q
  | _ => False
  end.

(** What a sink holds after the chunks were written to it in turn. *)
Definition write_all {W : Type} `{Writer W} (w : W) (chunks : list (list Byte.byte)) : W :=
  foldl (λ w chunk, (Write w chunk).1) w chunks.

(** The variables a store holds: what [envListFn] prints. *)
Definition stored (store : Store) : EnvVars := data_Get store ∅.

(** A key in upper case: a string of ASCII bytes that [strings.ToUpper]
    leaves as it is. *)
Definition upper_key (k : string) : Prop :=
  isASCII k = true ∧ strings_ToUpper k = k.

(** The pairs, and the keys, an argument list names. *)
Definition named (args : list string) : list string :=
  concat (map (λ arg, strings_Split arg ",") args).

(** What [Copy] makes of a node: a regular file is copied with its
    bytes and its mode, a directory is made anew with the mode of the
    source less the umask, anything else is left out. *)
Definition copied (umask : Z) (nd : node) : option node :=
  match nd with
  | NFile p d => Some (NFile p d)
  | NDir p => Some (NDir (Z.ldiff p umask))
  | NOther _ _ => None
  end.

(** A destination [copyDir] can make or use: a directory, or a free name
    in a directory. *)
Definition dst_ready (fs : FS) (dst : path) : Prop :=
  (∃ m, fs !! dst = Some (NDir m)) ∨
  (fs !! dst = None ∧
   match dst with
   | [] => True
   | _ :: parent => ∃ m, fs !! parent = Some (NDir m)
   end).

(** What is proved of [copyDir] for a given recursion bound. *)
Definition copyDir_ok (umask : Z) (fuel : nat) : Prop :=
  ∀ src dst fs m,
    wf fs → fs !! src = Some (NDir m) →
    ¬ src `suffix_of` dst → ¬ dst `suffix_of` src →
    (∀ r, r ≠ [] → fs !! (r ++ dst) = None) →
    dst_ready fs dst →
    (∀ r, is_Some (fs !! (r ++ src)) → (length r < fuel)%nat) →
    ∃ fs', copyDir umask fuel src dst fs = (fs', Ok tt) ∧ wf fs' ∧
           (∀ q, ¬ dst `suffix_of` q → fs' !! q = fs !! q) ∧
           fs' !! dst = Some (default (NDir (Z.ldiff m umask)) (fs !! dst)) ∧
           (∀ r, r ≠ [] → fs' !! (r ++ dst) = fs !! (r ++ src) ≫= copied umask).

(** The state of the loop of [copyDir] from [src] to [dst], started on
    [fs1], when the entries named [todo] are still to be handled. *)
Definition copying (umask : Z) (src dst : path) (fs1 : FS)
    (todo : list string) (fs : FS) : Prop :=
  wf fs ∧
  (∀ q, ¬ dst `suffix_of` q → fs !! q = fs1 !! q) ∧
  fs !! dst = fs1 !! dst ∧
  (∀ n r, n ∈ todo → fs !! (r ++ n :: dst) = None) ∧
  (∀ n r, n ∉ todo → fs !! (r ++ n :: dst) = fs1 !! (r ++ n :: src) ≫= copied umask).

(** The tree of the design's end-to-end scenario: [a/f1], mode 0644,
    "hello", and [a/b/f2], mode 0755, "world". *)
Definition project_disk : FS :=
  list_to_map
    [ ([], NDir 493); (["a"], NDir 493);
      (["f1"; "a"], NFile 420 (bytes_of "hello"));
      (["b"; "a"], NDir 493);
      (["f2"; "b"; "a"], NFile 493 (bytes_of "world")) ].

(** The container [Tar] makes of [a] on that disk. *)
Definition project_archive : list entry :=
  [ file_entry ["f2"; "b"; "a"] 493 (bytes_of "world");
    file_entry ["f1"; "a"] 420 (bytes_of "hello") ].

(** A disk where the directories [a] and [a/b] are in place, empty. *)
Definition staged_disk : FS :=
  list_to_map [ ([], NDir 493); (["a"], NDir 493); (["b"; "a"], NDir 493) ].

(** A tree with group- and world-writable directories, 0777 and 0775,
    and with a symbolic link and a named pipe. *)
Definition shared_disk : FS :=
  list_to_map
    [ ([], NDir 493); (["a"], NDir 511);
      (["f"; "a"], NFile 420 (bytes_of "hi"));
      (["b"; "a"], NDir 509);
      (["g"; "b"; "a"], NFile 493 (bytes_of "go"));
      (["l"; "a"], NOther Symlink 511);
      (["p"; "b"; "a"], NOther NamedPipe 420) ].

(** ** More of env.go, and the vocabulary of the further properties *)

(** [envListFn], env.go lines 78-82: the map it prints. *)
Definition envListFn (store : Store) : EnvVars := data_Get store ∅.

(** A pair gives a value to the variable [K]: it splits on [":"] into
    exactly a key, whose upper case is [K], and a value. *)
Definition binds (pair : string) (K : string) : Prop :=
  ∃ k v, strings_Split pair ":" = [k; v] ∧ strings_ToUpper k = K.

(** The number of occurrences of a character in a string. *)
Fixpoint count_char (c : ascii) (s : string) : nat :=
  match s with
  | EmptyString => 0%nat
  | String a s' => ((if Ascii.eqb a c then 1 else 0) + count_char c s')%nat
  end.

(** [kept fs fs']: whatever is on [fs] is still on [fs'], a directory
    or a special node exactly as it was, a regular file with the mode it
    had (its bytes may differ). *)
Definition kept (fs fs' : FS) : Prop :=
  ∀ p nd, fs !! p = Some nd →
    match nd with
    | NFile perm _ => ∃ d', fs' !! p = Some (NFile perm d')
    | _ => fs' !! p = Some nd
    end.

(** The names of the entries of a container. *)
Definition names (es : list entry) : list path := map (λ e, Name e.1) es.

(** The mode of the file [Untar] leaves at [q], on a disk that was [fs]
    before: the mode of the regular file that was there, and for a new
    file 0666 less the umask. *)
Definition restored_mode (umask : Z) (fs : FS) (q : path) : Z :=
  match fs !! q with
  | Some (NFile perm _) => perm
  | _ => Z.ldiff 438 umask
  end.

(** A disk with the directories of the project tree and a stale [f1]. *)
Definition stale_disk : FS :=
  list_to_map
    [ ([], NDir 493); (["a"], NDir 493); (["b"; "a"], NDir 448);
      (["f1"; "a"], NFile 384 (bytes_of "old")) ].


(** The bytes of the first [Read] of a body. *)
Definition first_read (r : Reader) : list Byte.byte :=
  match reads r with
  | chunk :: _ => chunk
  | [] => last r
  end.

(** What [Copy] leaves at a path of the destination where [d] was, for
    the node [s] at that path of the source: the file of the source; for
    a directory of the source, the directory that was there or else a
    new one, with the mode of the source less the umask; and what was
    there when the source has nothing to copy at that path. *)
Definition merged (umask : Z) (s d : option node) : option node :=
  match s with
  | Some (NFile p b) => Some (NFile p b)
  | Some (NDir m) => Some (default (NDir (Z.ldiff m umask)) d)
  | _ => d
  end.

(** The destination has, where the source has a regular file, nothing or
    a regular file, and where the source has a directory, nothing or a
    directory. *)
Definition mergeable (fs : FS) (src dst : path) : Prop :=
  ∀ r, match fs !! (r ++ src) with
       | Some (NFile _ _) =>
           fs !! (r ++ dst) = None ∨ ∃ p b, fs !! (r ++ dst) = Some (NFile p b)
       | Some (NDir _) =>
           fs !! (r ++ dst) = None ∨ ∃ m, fs !! (r ++ dst) = Some (NDir m)
       | _ => True
       end.

(** What is proved of [copyDir] into a destination that may exist, for a
    given recursion bound. *)
Definition copyDir_merges (umask : Z) (fuel : nat) : Prop :=
  ∀ (src dst : path) (fs : FS) (m : Z),
    wf fs → fs !! src = Some (NDir m) →
    ¬ src `suffix_of` dst → ¬ dst `suffix_of` src →
    mergeable fs src dst →
    dst_ready fs dst →
    (∀ r, is_Some (fs !! (r ++ src)) → (length r < fuel)%nat) →
    ∃ fs' : FS, copyDir umask fuel src dst fs = (fs', Ok tt) ∧ wf fs' ∧
           (∀ q, ¬ dst `suffix_of` q → fs' !! q = fs !! q) ∧
           (∀ r, fs' !! (r ++ dst)
                 = merged umask (fs !! (r ++ src)) (fs !! (r ++ dst))).

(** The state of that loop, started on [fs1], when the entries named
    [todo] are still to be handled. *)
Definition merging (umask : Z) (src dst : path) (fs1 : FS)
    (todo : list string) (fs : FS) : Prop :=
  wf fs ∧
  (∀ q, ¬ dst `suffix_of` q → fs !! q = fs1 !! q) ∧
  fs !! dst = fs1 !! dst ∧
  (∀ n r, n ∈ todo → fs !! (r ++ n :: dst) = fs1 !! (r ++ n :: dst)) ∧
  (∀ n r, n ∉ todo →
     fs !! (r ++ n :: dst)
     = merged umask (fs1 !! (r ++ n :: src)) (fs1 !! (r ++ n :: dst))).

(** A disk where the copy of [a] to [c] finds [c] in place: a file of
    the source is there already, with other bytes and another mode, and
    so is a file the source does not have. *)
Definition merge_disk : FS :=
  list_to_map
    [ ([], NDir 493); (["a"], NDir 493);
      (["f1"; "a"], NFile 420 (bytes_of "hello"));
      (["b"; "a"], NDir 493);
      (["f2"; "b"; "a"], NFile 493 (bytes_of "world"));
      (["c"], NDir 448);
      (["f1"; "c"], NFile 384 (bytes_of "old"));
      (["keep"; "c"], NFile 420 (bytes_of "mine")) ].

(** * Proofs *)

(** ** The bits of a FileMode *)

Lemma low_bits_land (p K : Z) :
  0 ≤ p ≤ ModePerm →
  (∀ i, 0 ≤ i < 9 → Z.testbit K i = false) →
  Z.land p K = 0.
Proof.
  unfold ModePerm. intros Hp HK. apply Z.bits_inj'. intros n Hn.
  rewrite Z.land_spec, Z.bits_0.
  destruct (Z.lt_ge_cases n 9) as [Hlt|Hge].
  - rewrite HK by lia. apply andb_false_r.
  - replace (Z.testbit p n) with false; [done|].
    symmetry. apply Z.testbit_false; [done|].
    assert (2 ^ 9 ≤ 2 ^ n) as Hpow by (apply Z.pow_le_mono_r; lia).
    change (2 ^ 9) with 512 in Hpow.
    rewrite Z.div_small; [done|]. lia.
Qed.

Ltac low_bits :=
  let i := fresh "i" in
  let Hi := fresh "Hi" in
  intros i Hi;
  assert (i = 0 ∨ i = 1 ∨ i = 2 ∨ i = 3 ∨ i = 4 ∨ i = 5 ∨ i = 6 ∨ i = 7 ∨ i = 8)
    as Hcases by lia;
  repeat (destruct Hcases as [->|Hcases]; [reflexivity|]);
  subst i; reflexivity.

Lemma high_bit_land (K p M : Z) (i : Z) :
  0 ≤ i → Z.testbit K i = true → Z.testbit M i = true →
  Z.land (Z.lor K p) M ≠ 0.
Proof.
  intros Hi HK HM Heq.
  assert (Z.testbit (Z.land (Z.lor K p) M) i = true) as Hbit.
  { rewrite Z.land_spec, Z.lor_spec, HK, HM. done. }
  rewrite Heq, Z.bits_0 in Hbit. done.
Qed.

Lemma Perm_small (p : Z) : 0 ≤ p ≤ ModePerm → Perm p = p.
Proof.
  unfold Perm, ModePerm. intros Hp.
  change 511 with (Z.ones 9). rewrite Z.land_ones by lia.
  change (2 ^ 9) with 512. apply Z.mod_small. lia.
Qed.

Lemma Perm_range (m : Z) : 0 ≤ Perm m ≤ ModePerm.
Proof.
  unfold Perm, ModePerm. change 511 with (Z.ones 9).
  rewrite Z.land_ones by lia. change (2 ^ 9) with 512.
  change (Z.ones 9) with 511.
  pose proof (Z.mod_pos_bound m 512 ltac:(lia)). lia.
Qed.

Lemma Perm_lor_high (K p : Z) :
  0 ≤ p ≤ ModePerm → (∀ i, 0 ≤ i < 9 → Z.testbit K i = false) →
  Perm (Z.lor K p) = p.
Proof.
  intros Hp HK. unfold Perm.
  rewrite Z.land_lor_distr_l.
  rewrite (Z.land_comm K), (low_bits_land ModePerm K); [|unfold ModePerm; lia|done].
  rewrite Z.lor_0_l. by apply Perm_small.
Qed.

Lemma IsDir_NDir (p : Z) : IsDir (mode_of (NDir p)) = true.
Proof.
  unfold IsDir. simpl. apply negb_true_iff, Z.eqb_neq.
  by apply (high_bit_land _ _ _ 31).
Qed.

Lemma IsDir_low (p : Z) : 0 ≤ p ≤ ModePerm → IsDir p = false.
Proof.
  intros Hp. unfold IsDir. rewrite low_bits_land; [done|done|low_bits].
Qed.

Lemma IsDir_NOther (k : special) (p : Z) :
  0 ≤ p ≤ ModePerm → IsDir (mode_of (NOther k p)) = false.
Proof.
  intros Hp. unfold IsDir. simpl.
  rewrite Z.land_lor_distr_l, (low_bits_land p) by (done || low_bits).
  by destruct k.
Qed.

Lemma IsRegular_low (p : Z) : 0 ≤ p ≤ ModePerm → IsRegular p = true.
Proof.
  intros Hp. unfold IsRegular. rewrite low_bits_land; [done|done|low_bits].
Qed.

Lemma IsRegular_NDir (p : Z) : IsRegular (mode_of (NDir p)) = false.
Proof.
  unfold IsRegular. simpl. apply Z.eqb_neq. by apply (high_bit_land _ _ _ 31).
Qed.

Lemma IsRegular_NOther (k : special) (p : Z) :
  IsRegular (mode_of (NOther k p)) = false.
Proof.
  unfold IsRegular. simpl. apply Z.eqb_neq.
  destruct k;
    [ by apply (high_bit_land _ _ _ 27) | by apply (high_bit_land _ _ _ 25)
    | by apply (high_bit_land _ _ _ 24) | by apply (high_bit_land _ _ _ 26)
    | by apply (high_bit_land _ _ _ 26) ].
Qed.

Lemma syscallMode_NDir (p : Z) :
  0 ≤ p ≤ ModePerm → syscallMode (mode_of (NDir p)) = p.
Proof. intros Hp. apply Perm_lor_high; [done|low_bits]. Qed.

Lemma created_perm_range (umask perm : Z) :
  0 ≤ created_perm umask perm ≤ ModePerm.
Proof.
  unfold created_perm, syscallMode, Perm.
  replace (Z.ldiff (Z.land perm ModePerm) umask)
    with (Z.land (Z.ldiff perm umask) ModePerm).
  - apply Perm_range.
  - apply Z.bits_inj'. intros n Hn.
    rewrite !Z.land_spec, !Z.ldiff_spec, Z.land_spec.
    by destruct (Z.testbit perm n), (Z.testbit umask n), (Z.testbit ModePerm n).
Qed.

(** ** What the calls into package os create *)

Lemma grows_refl fs : grows fs fs.
Proof. by intros p. Qed.

Lemma grows_trans fs1 fs2 fs3 : grows fs1 fs2 → grows fs2 fs3 → grows fs1 fs3.
Proof. intros H12 H23 p Hp. auto. Qed.

Lemma grows_insert fs name nd : grows fs (<[name := nd]> fs).
Proof.
  intros p Hp. destruct (decide (name = p)) as [->|Hne].
  - rewrite lookup_insert_eq. eauto.
  - by rewrite lookup_insert_ne.
Qed.

Lemma only_under_refl name fs : only_under name fs fs.
Proof. intros p Hp. by left. Qed.

Lemma only_under_insert fs name nd : only_under name fs (<[name := nd]> fs).
Proof.
  intros p Hp. destruct (decide (name = p)) as [->|Hne].
  - by right.
  - rewrite lookup_insert_ne in Hp by done. by left.
Qed.

Lemma only_under_trans name name' fs1 fs2 fs3 :
  name' `suffix_of` name →
  only_under name' fs1 fs2 → only_under name fs2 fs3 → only_under name fs1 fs3.
Proof.
  intros Hsuf H12 H23 p Hp.
  destruct (H23 p Hp) as [Hp2|?]; [|by right].
  destruct (H12 p Hp2) as [?|?]; [by left|right]. by etrans.
Qed.

Create HintDb fsdb.
#[local] Hint Resolve grows_refl grows_insert only_under_refl only_under_insert : fsdb.

Lemma os_Mkdir_effect umask name perm fs fs' r :
  os_Mkdir umask name perm fs = (fs', r) →
  grows fs fs' ∧ only_under name fs fs'.
Proof.
  unfold os_Mkdir. intros Heq.
  destruct (fs !! name); [by simplify_eq; auto with fsdb|].
  destruct name as [|n parent]; [by simplify_eq; auto with fsdb|].
  destruct (fs !! parent) as [[| |]|]; simplify_eq; auto with fsdb.
Qed.

Lemma os_MkdirAll_effect umask name perm fs fs' r :
  os_MkdirAll umask name perm fs = (fs', r) →
  grows fs fs' ∧ only_under name fs fs'.
Proof.
  revert fs fs' r. induction name as [|n parent IH]; intros fs fs' r; simpl.
  - destruct (fs !! []) as [nd|].
    + destruct (IsDir (mode_of nd)); intros; simplify_eq; auto with fsdb.
    + apply os_Mkdir_effect.
  - destruct (fs !! (n :: parent)) as [nd|].
    + destruct (IsDir (mode_of nd)); intros; simplify_eq; auto with fsdb.
    + unfold bind.
      destruct (os_MkdirAll umask parent perm fs) as [fs1 [[]|e|]] eqn:Hparent;
        destruct (IH _ _ _ Hparent) as [Hg Ho].
      * intros [Hg' Ho']%os_Mkdir_effect. split.
        -- by eapply grows_trans.
        -- eapply only_under_trans; [|done..]. by apply suffix_cons_r.
      * intros; simplify_eq. split; [done|].
        eapply only_under_trans; [|done|apply only_under_refl].
        by apply suffix_cons_r.
      * intros; simplify_eq. split; [done|].
        eapply only_under_trans; [|done|apply only_under_refl].
        by apply suffix_cons_r.
Qed.

Lemma os_Create_effect umask name fs fs' r :
  os_Create umask name fs = (fs', r) →
  grows fs fs' ∧ only_under name fs fs'.
Proof.
  unfold os_Create. intros Heq.
  destruct (fs !! name) as [[| |]|]; [by simplify_eq; auto with fsdb..|].
  destruct name as [|n parent]; [by simplify_eq; auto with fsdb|].
  destruct (fs !! parent) as [[| |]|]; simplify_eq; auto with fsdb.
Qed.

Lemma file_write_effect name b fs fs' r :
  file_write name b fs = (fs', r) →
  grows fs fs' ∧ only_under name fs fs'.
Proof.
  unfold file_write. intros Heq.
  destruct (fs !! name) as [[| |]|]; simplify_eq; auto with fsdb.
Qed.

Lemma os_Create_Ok umask name fs fs' f :
  os_Create umask name fs = (fs', Ok f) → f = name ∧ is_Some (fs' !! name).
Proof.
  unfold os_Create. intros Heq.
  destruct (fs !! name) as [[| |]|] eqn:Hname; simplify_eq.
  - by rewrite lookup_insert_eq.
  - by rewrite Hname.
  - destruct name as [|n parent]; [done|].
    destruct (fs !! parent) as [[| |]|]; simplify_eq.
    by rewrite lookup_insert_eq.
Qed.

Lemma os_Mkdir_Ok umask name perm fs fs' :
  os_Mkdir umask name perm fs = (fs', Ok tt) →
  fs' = <[name := NDir (created_perm umask perm)]> fs ∧ fs !! name = None.
Proof.
  unfold os_Mkdir. intros Heq.
  destruct (fs !! name) eqn:Hname; [done|].
  destruct name as [|n parent]; [by simplify_eq|].
  destruct (fs !! parent) as [[| |]|]; by simplify_eq.
Qed.

Lemma os_MkdirAll_Ok umask name perm fs fs' :
  os_MkdirAll umask name perm fs = (fs', Ok tt) → is_Some (fs' !! name).
Proof.
  destruct name as [|n parent]; simpl.
  - destruct (fs !! []) as [nd|] eqn:Hname.
    + destruct (IsDir (mode_of nd)); intros; simplify_eq. by rewrite Hname.
    + intros [-> _]%os_Mkdir_Ok. by rewrite lookup_insert_eq.
  - destruct (fs !! (n :: parent)) as [nd|] eqn:Hname.
    + destruct (IsDir (mode_of nd)); intros; simplify_eq. by rewrite Hname.
    + unfold bind.
      destruct (os_MkdirAll umask parent perm fs) as [fs1 [[]|e|]]; [|done..].
      intros [-> _]%os_Mkdir_Ok. by rewrite lookup_insert_eq.
Qed.

(** ** The loop of Untar *)

Lemma untar_loop_app umask pre rest t fs :
  untar_loop umask (pre ++ rest) t fs =
  match untar_loop umask pre None fs with
  | (fs1, Ok _) => untar_loop umask rest t fs1
  | other => other
  end.
Proof.
  revert fs. induction pre as [|[h b] pre IH]; intros fs; [done|].
  simpl. destruct (Typeflag h =? TypeDir).
  - unfold bind.
    destruct (os_MkdirAll _ _ _ fs) as [fs1 [[]|e|]]; [apply IH|done..].
  - destruct (Typeflag h =? TypeReg); [|done].
    unfold bind.
    destruct (os_Create _ _ fs) as [fs1 [f|e|]]; [|done..].
    unfold bind.
    destruct (file_write _ _ fs1) as [fs2 [n|e|]]; [apply IH|done..].
Qed.

Lemma untar_loop_unsupported umask e rest t fs :
  supported e = false →
  untar_loop umask (e :: rest) t fs =
  (fs, Err (UnhandledType (Typeflag e.1) (Name e.1))).
Proof.
  destruct e as [h b]. unfold supported. simpl.
  intros [-> ->]%orb_false_iff. done.
Qed.

Lemma untar_loop_effect umask es t fs fs' r :
  untar_loop umask es t fs = (fs', r) →
  grows fs fs' ∧
  ∀ p, is_Some (fs' !! p) →
       is_Some (fs !! p) ∨ ∃ e, e ∈ es ∧ p `suffix_of` Name e.1.
Proof.
  revert fs. induction es as [|[h b] es IH]; intros fs; simpl.
  - destruct t; unfold ret, fail; intros; simplify_eq;
      (split; [apply grows_refl|by left]).
  - assert (∀ fs1, grows fs fs1 ∧ only_under (Name h) fs fs1 →
                   untar_loop umask es t fs1 = (fs', r) →
                   grows fs fs' ∧
                   ∀ p, is_Some (fs' !! p) → is_Some (fs !! p) ∨
                        ∃ e, e ∈ (h, b) :: es ∧ p `suffix_of` Name e.1) as Hrest.
    { intros fs1 [Hg Ho] [Hg' Ho']%IH. split; [by eapply grows_trans|].
      intros p Hp. destruct (Ho' p Hp) as [Hp1|(e & He & Hsuf)].
      - destruct (Ho p Hp1) as [?|?]; [by left|right].
        exists (h, b). split; [apply list_elem_of_here|done].
      - right. exists e. split; [by apply list_elem_of_further|done]. }
    assert (∀ fs1 (r1 : result unit), grows fs fs1 ∧ only_under (Name h) fs fs1 →
              grows fs fs1 ∧
              ∀ p, is_Some (fs1 !! p) → is_Some (fs !! p) ∨
                   ∃ e, e ∈ (h, b) :: es ∧ p `suffix_of` Name e.1) as Hstop.
    { intros fs1 _ [Hg Ho]. split; [done|]. intros p Hp.
      destruct (Ho p Hp) as [?|?]; [by left|right].
      exists (h, b). split; [apply list_elem_of_here|done]. }
    destruct (Typeflag h =? TypeDir).
    + unfold bind.
      destruct (os_MkdirAll _ _ _ fs) as [fs1 [[]|e|]] eqn:Hmk;
        apply os_MkdirAll_effect in Hmk.
      * by apply Hrest.
      * intros; simplify_eq. by apply (Hstop _ (Err e)).
      * intros; simplify_eq. by apply (Hstop _ NoFuel).
    + destruct (Typeflag h =? TypeReg).
      * unfold bind.
        destruct (os_Create _ _ fs) as [fs1 [f|e|]] eqn:Hcr.
        -- destruct (os_Create_Ok _ _ _ _ _ Hcr) as [-> _].
           apply os_Create_effect in Hcr as [Hg1 Ho1].
           destruct (file_write _ _ fs1) as [fs2 [n|e|]] eqn:Hwr;
             apply file_write_effect in Hwr as [Hg2 Ho2];
             assert (grows fs fs2 ∧ only_under (Name h) fs fs2) as H2
               by (split; [by eapply grows_trans|by eapply only_under_trans]).
           ++ by apply Hrest.
           ++ intros; simplify_eq. by apply (Hstop _ (Err e)).
           ++ intros; simplify_eq. by apply (Hstop _ NoFuel).
        -- apply os_Create_effect in Hcr.
           intros; simplify_eq. by apply (Hstop _ (Err e)).
        -- apply os_Create_effect in Hcr.
           intros; simplify_eq. by apply (Hstop _ NoFuel).
      * unfold fail. intros; simplify_eq. apply (Hstop _ NoFuel).
        split; [apply grows_refl|apply only_under_refl].
Qed.

Lemma untar_loop_materializes umask es t fs fs' :
  untar_loop umask es t fs = (fs', Ok tt) →
  ∀ e, e ∈ es → is_Some (fs' !! Name e.1).
Proof.
  revert fs. induction es as [|[h b] es IH]; intros fs Hrun e He.
  { by apply elem_of_nil in He. }
  simpl in Hrun.
  assert (∀ fs1, is_Some (fs1 !! Name h) →
                 untar_loop umask es t fs1 = (fs', Ok tt) →
                 is_Some (fs' !! Name e.1)) as Hrest.
  { intros fs1 Hh Hrun1. apply elem_of_cons in He as [->|He].
    - simpl. by apply (untar_loop_effect _ _ _ _ _ _ Hrun1).
    - by eapply IH. }
  destruct (Typeflag h =? TypeDir).
  - unfold bind in Hrun.
    destruct (os_MkdirAll _ _ _ fs) as [fs1 [[]|err|]] eqn:Hmk; [|done..].
    eapply Hrest; [|done]. by eapply os_MkdirAll_Ok.
  - destruct (Typeflag h =? TypeReg); [|done].
    unfold bind in Hrun.
    destruct (os_Create _ _ fs) as [fs1 [f|err|]] eqn:Hcr; [|done..].
    destruct (os_Create_Ok _ _ _ _ _ Hcr) as [-> Hh].
    destruct (file_write _ _ fs1) as [fs2 [n|err|]] eqn:Hwr; [|done..].
    eapply Hrest; [|done].
    by apply (file_write_effect _ _ _ _ _ Hwr).
Qed.

(** ** Untar: entries of an unsupported kind (C4) *)

(** C4, as stated, fails: a container that holds an entry of an
    unsupported kind, here a symbolic link, for which [Untar] returns
    another error, that of the regular entry before the link, whose name
    is the directory the first entry made. *)
Lemma Untar_rejection_counterexample :
  Exists (λ e, supported e = false) (entries clashing_stream) ∧
  (Untar umask_022 [] clashing_stream empty_disk).2
    = Err (PathError "open" ["a"] EISDIR) ∧
  ∀ flag name,
    (Untar umask_022 [] clashing_stream empty_disk).2 ≠ Err (UnhandledType flag name).
Proof.
  split; [|split].
  - do 2 apply Exists_cons_tl. by apply Exists_cons_hd.
  - by vm_compute.
  - intros flag name. by vm_compute.
Qed.

(** C4, amended: on a container that holds an entry [e] of an
    unsupported kind, after the entries [pre], [Untar] returns an error
    in every case and handles nothing that comes after [e] (the result is
    that of the container cut after [e]); when the entries before [e] are
    restored without error, which makes [e] the first of its kind, the
    error returned names the type flag and the path of [e], and the file
    system is the one those entries left. *)
Theorem Untar_rejects_unsupported umask dst pre e post t fs :
  supported e = false →
  (∃ err, (Untar umask dst (mkContainer (pre ++ e :: post) t) fs).2 = Err err) ∧
  Untar umask dst (mkContainer (pre ++ e :: post) t) fs
    = Untar umask dst (mkContainer (pre ++ [e]) None) fs ∧
  ∀ fs1, Untar umask dst (mkContainer pre None) fs = (fs1, Ok tt) →
         Untar umask dst (mkContainer (pre ++ e :: post) t) fs
           = (fs1, Err (UnhandledType (Typeflag e.1) (Name e.1))).
Proof.
  intros He. unfold Untar. simpl.
  rewrite !untar_loop_app.
  destruct (untar_loop umask pre None fs) as [fs1 [[]|err|]] eqn:Hpre.
  - rewrite !untar_loop_unsupported by done.
    split; [by eexists|]. split; [done|]. by intros ? [= <-].
  - split; [by eexists|]. done.
  - exfalso. revert fs Hpre.
    induction pre as [|[h b] pre IH]; intros fs; simpl; [done|].
    destruct (Typeflag h =? TypeDir).
    + unfold bind.
      assert (∀ name perm fs0 fs2, os_MkdirAll umask name perm fs0 ≠ (fs2, NoFuel))
        as Hmk.
      { induction name as [|n parent IHn]; intros perm fs0 fs2; simpl;
          unfold os_Mkdir.
        - destruct (fs0 !! []) as [nd|]; [by destruct (IsDir _)|done].
        - destruct (fs0 !! (n :: parent)) as [nd|]; [by destruct (IsDir _)|].
          unfold bind.
          destruct (os_MkdirAll umask parent perm fs0) as [fs3 [[]|?|]] eqn:Hp;
            [|done|by apply IHn in Hp].
          destruct (fs3 !! (n :: parent)); [done|].
          by destruct (fs3 !! parent) as [[| |]|]. }
      destruct (os_MkdirAll _ _ _ fs) as [fs2 [[]|?|]] eqn:Hd;
        [apply IH|done|by apply Hmk in Hd].
    + destruct (Typeflag h =? TypeReg); [|done].
      unfold bind, os_Create, file_write.
      destruct (fs !! Name h) as [[| |]|] eqn:Hname; simpl.
      * rewrite lookup_insert_eq. apply IH.
      * done.
      * rewrite Hname. apply IH.
      * destruct (Name h) as [|n parent]; [done|].
        destruct (fs !! parent) as [[| |]|]; try done.
        rewrite lookup_insert_eq. apply IH.
Qed.

Lemma Untar_rejects_unsupported_witness :
  supported (mkHeader ["l"; "a"] 511 0 TypeSymlink, []) = false ∧
  Untar umask_022 [] link_stream empty_disk
    = (<[ ["f"; "a"] := NFile 420 (bytes_of "hi") ]>
         (<[ ["a"] := NDir 493 ]> empty_disk),
       Err (UnhandledType TypeSymlink ["l"; "a"])).
Proof.
  split; [reflexivity|].
  apply (Untar_rejects_unsupported umask_022 []
           (take 2 (entries link_stream))
           (mkHeader ["l"; "a"] 511 0 TypeSymlink, [])
           [(mkHeader ["g"; "a"] 420 3 TypeReg, bytes_of "bye")]
           None empty_disk); [reflexivity|].
  vm_compute. reflexivity.
Defined.

(** ** Download and Progress *)

Section transport_facts.
Variable http_Get : string → option Response * option error.
Variable config_Fatal : string → string → option Z.
Variable int_of_unrepresentable : float64 → Z.
Context {W : Type} `{Writer W}.

Lemma Download_read_fails path w res :
  http_Get path = (Some res, None) →
  cond (Body res) ≠ EOF →
  Download http_Get config_Fatal path w =
    match config_Fatal "[util/file/file] ioutil.ReadAll() failed - "
            (Error (cond (Body res))) with
    | Some status => (w, Exit status)
    | None => ((Write w (delivered (Body res))).1, Return None)
    end.
Proof.
  intros Hget Hcond. unfold Download, ioutil_ReadAll. rewrite Hget.
  rewrite decide_False by done.
  destruct (config_Fatal _ _); [done|]. by destruct (Write w _).
Qed.
End transport_facts.

Lemma wrap_int_small (z : Z) : MinInt64 ≤ z ≤ MaxInt64 → wrap_int z = z.
Proof.
  unfold MinInt64, MaxInt64, wrap_int. intros Hz.
  rewrite Z.mod_small by lia. lia.
Qed.

(** The percent of [d] bytes out of [n], and the number of stars. *)
Lemma percent_bounds (d n : Z) :
  0 ≤ d ≤ n → 0 < n →
  (0 <= inject_Z d / inject_Z n * 100)%Q ∧ (inject_Z d / inject_Z n * 100 <= 100)%Q.
Proof.
  intros Hd Hn.
  assert (0 < inject_Z n)%Q as Hn' by (unfold Qlt; simpl; lia).
  assert (0 <= inject_Z d / inject_Z n)%Q as Hlo.
  { apply Qle_shift_div_l; [done|]. rewrite Qmult_0_l.
    unfold Qle; simpl; lia. }
  assert (inject_Z d / inject_Z n <= 1)%Q as Hhi.
  { apply Qle_shift_div_r; [done|]. rewrite Qmult_1_l.
    rewrite <- Zle_Qle. lia. }
  split.
  - apply Qmult_le_0_compat; [done|]. by compute.
  - apply Qle_trans with (1 * 100)%Q; [|by compute].
    apply Qmult_le_compat_r; [done|]. by compute.
Qed.

Lemma stars_bounds (q : Q) :
  (0 <= q)%Q → (q <= 100)%Q →
  0 ≤ Z.quot (Qnum (q / (5 # 2))) (Z.pos (Qden (q / (5 # 2)))) ≤ 40.
Proof.
  destruct q as [a b]. unfold Qle, Qdiv, Qmult, Qinv. simpl.
  intros Hlo Hhi.
  rewrite Z.quot_div_nonneg by lia.
  split.
  - apply Z.div_pos; lia.
  - apply Z.div_le_upper_bound; lia.
Qed.

Section progress_facts.
Variable int_of_unrepresentable : float64 → Z.
Context {W : Type} `{Writer W}.

Lemma progress_step_known (n : Z) total chunk (w : W) down :
  0 < n ≤ MaxInt64 → 0 ≤ down → down + Z.of_nat (length chunk) ≤ n →
  ∃ line,
    progress_step int_of_unrepresentable n total chunk w down
      = ((Write w chunk).1, down + Z.of_nat (length chunk), Some line) ∧
    line_down line = down + Z.of_nat (length chunk) ∧
    percent_in_range (line_percent line) ∧
    0 ≤ line_stars line ≤ 40.
Proof.
  intros Hn Hdown Hsum. unfold progress_step.
  destruct (Write w chunk) as [w1 r1]. simpl.
  unfold int_add. rewrite wrap_int_small by (unfold MinInt64, MaxInt64 in *; lia).
  set (d := down + Z.of_nat (length chunk)).
  unfold float64_of_int, fdiv at 2, Qsgn. simpl (Qnum (inject_Z n)).
  replace (Z.sgn n =? 0) with false by (symmetry; apply Z.eqb_neq; lia).
  unfold fmul.
  destruct (percent_bounds d n) as [Hlo Hhi]; [lia..|].
  set (q := (inject_Z d / inject_Z n * 100)%Q) in *.
  unfold fdiv, Qsgn. simpl (Qnum (5 # 2)). simpl (Z.sgn 5 =? 0).
  cbv iota.
  pose proof (stars_bounds q Hlo Hhi) as Hstars.
  unfold int_of_float64.
  set (z := Z.quot _ _) in *.
  replace ((MinInt64 <=? z) && (z <=? MaxInt64)) with true.
  2: { symmetry. apply andb_true_iff. unfold MinInt64, MaxInt64.
       split; apply Z.leb_le; lia. }
  replace (z <? 0) with false by (symmetry; apply Z.ltb_ge; lia).
  eexists. split; [done|]. simpl. done.
Qed.

Lemma progress_loop_known (n : Z) total reads last (w : W) down out :
  0 < n ≤ MaxInt64 → 0 ≤ down →
  down + Z.of_nat (length (concat reads ++ last)) = n →
  ∃ lines,
    progress_loop int_of_unrepresentable n total reads last EOF w down out
      = (write_all w (reads ++ [last]), n, out ++ lines, Return None) ∧
    length lines = S (length reads) ∧
    Forall (λ l, down ≤ line_down l ∧ percent_in_range (line_percent l)) lines ∧
    Sorted Z.le (map line_down lines).
Proof.
  intros Hn. revert w down out.
  induction reads as [|chunk reads IH]; intros w down out Hdown Hsum; simpl in *.
  - destruct (progress_step_known n total last w down) as (line & -> & Hd & Hp & _);
      [done|done|lia|].
    exists [line]. cbn.
    split; [by rewrite Hsum|].
    split; [done|]. split.
    + constructor; [|done]. split; [lia|done].
    + simpl. repeat constructor.
  - rewrite !length_app in Hsum.
    destruct (progress_step_known n total chunk w down) as (line & -> & Hd & Hp & _);
      [done|done|lia|].
    destruct (IH (Write w chunk).1 (down + Z.of_nat (length chunk)) (out ++ [line]))
      as (lines & -> & Hlen & Hall & Hsorted); [lia| rewrite length_app; lia |].
    exists (line :: lines). split; [by rewrite <- app_assoc|].
    split; [simpl; lia|]. split.
    + constructor; [split; [lia|done]|].
      eapply Forall_impl; [exact Hall|]. simpl. intros l [? ?]. split; [lia|done].
    + simpl. constructor; [done|].
      destruct lines as [|l lines]; simpl; constructor.
      apply Forall_cons in Hall as [[Hl _] _]. lia.
Qed.
End progress_facts.

(** ** Progress on a body of known length (C6) *)

(** C6: when the response announces the length [N > 0] of its body (a
    length of zero is the case of C2) and the body is read to its end,
    [Progress] returns nil; the counter [down], one value per read, never
    decreases from its start at 0 and ends at [N]; every percent printed
    is within [0,100]. *)
Theorem Progress_known_length (http_Get : string → option Response * option error)
    (int_of_unrepresentable : float64 → Z) {W : Type} `{Writer W}
    (path : string) (w : W) (res : Response) :
  http_Get path = (Some res, None) →
  cond (Body res) = EOF →
  ContentLength res = Z.of_nat (length (delivered (Body res))) →
  0 < ContentLength res ≤ MaxInt64 →
  ∃ lines,
    Progress http_Get int_of_unrepresentable path w
      = (write_all w (reads (Body res) ++ [last (Body res)]),
         ContentLength res, lines, Return None) ∧
    length lines = S (length (reads (Body res))) ∧
    Sorted Z.le (0 :: map line_down lines) ∧
    Forall (λ l, percent_in_range (line_percent l)) lines.
Proof.
  intros Hget Hcond Hlen Hn. unfold Progress. rewrite Hget, Hcond.
  destruct (progress_loop_known int_of_unrepresentable (ContentLength res)
              (fdiv (float64_of_int (ContentLength res)) MB)
              (reads (Body res)) (last (Body res)) w 0 [])
    as (lines & -> & Hlines & Hall & Hsorted); [done|done|by rewrite Hlen|].
  exists lines. split; [done|]. split; [done|]. split.
  - constructor; [done|].
    destruct lines as [|l lines]; simpl; constructor.
    by apply Forall_cons in Hall as [[Hl _] _].
  - eapply Forall_impl; [exact Hall|]. by intros l [_ ?].
Qed.

Lemma Progress_known_length_witness :
  0 < 5 ≤ MaxInt64 ∧
  ∃ lines,
    Progress get_hello amd64_int "http://host/hello" ([] : list Byte.byte)
      = (bytes_of "hello", 5, lines, Return None) ∧
    length lines = 2%nat ∧
    Sorted Z.le (0 :: map line_down lines) ∧
    Forall (λ l, percent_in_range (line_percent l)) lines.
Proof.
  assert (0 < 5 ≤ MaxInt64) as Hrange by (unfold MaxInt64; simpl; lia).
  split; [exact Hrange|].
  exact (Progress_known_length get_hello amd64_int "http://host/hello" []
           (mkResponse 5 (mkReader [bytes_of "hel"] (bytes_of "lo") EOF))
           eq_refl eq_refl eq_refl Hrange).
Defined.

(** ** Progress on a response without a usable length (C2) *)

(** C2 does not hold of the code.  With no Content-Length the client
    reports -1: the first read brings [down] to 1, [percent] to -100 and
    the count given to [strings.Repeat] to -40, whatever the platform;
    [Progress] panics there, with the first chunk in the sink and the
    second never read.  With a length of 0, [percent] is an infinity, and
    where the conversion of an infinity gives the least [int] (amd64) the
    count is negative as well. *)
Theorem Progress_unknown_length_panics :
  (∀ int_of_unrepresentable,
     Progress get_unknown_length int_of_unrepresentable "http://host/ab"
       ([] : list Byte.byte)
     = (bytes_of "a", 1, [], Panic negative_Repeat)) ∧
  delivered (mkReader [bytes_of "a"] (bytes_of "b") EOF) = bytes_of "ab" ∧
  Progress get_zero_length amd64_int "http://host/a" ([] : list Byte.byte)
    = (bytes_of "a", 1, [], Panic negative_Repeat).
Proof.
  split; [|split].
  - intros cvt. vm_compute. reflexivity.
  - reflexivity.
  - vm_compute. reflexivity.
Qed.

(** ** Download: failures (C7) *)

(** C7, as stated, fails: when the connection is reset while the body
    is read, [Download] does not return the error of the read, whatever
    [config.Fatal] does: the process ends, or [Download] returns nil. *)
Lemma Download_read_failure_counterexample :
  ioutil_ReadAll (mkReader [bytes_of "ab"] [] (NetError "connection reset"))
    = (bytes_of "ab", Some (NetError "connection reset")) ∧
  Download get_reset fatal_exits "http://host/abcd" ([] : list Byte.byte)
    = ([], Exit 1) ∧
  Download get_reset fatal_returns "http://host/abcd" ([] : list Byte.byte)
    = (bytes_of "ab", Return None) ∧
  ∀ config_Fatal err,
    (Download get_reset config_Fatal "http://host/abcd" ([] : list Byte.byte)).2
      ≠ Return (Some err).
Proof.
  split; [reflexivity|]. split; [reflexivity|]. split; [reflexivity|].
  intros config_Fatal err.
  rewrite (Download_read_fails get_reset config_Fatal "http://host/abcd" []
             (mkResponse 4 (mkReader [bytes_of "ab"] [] (NetError "connection reset"))))
    by done.
  by destruct (config_Fatal _ _).
Qed.

(** What [Download] does when [http.Get] returns no response: the
    [defer] statement dereferences the nil response before the error is
    looked at, and the call panics instead of returning the error. *)
Lemma Download_without_response (http_Get : string → option Response * option error)
    (config_Fatal : string → string → option Z) {W : Type} `{Writer W}
    (path : string) (w : W) (err : option error) :
  http_Get path = (None, err) →
  Download http_Get config_Fatal path w = (w, Panic nil_dereference).
Proof. intros Hget. unfold Download. by rewrite Hget. Qed.

(** C7, amended: an error that [http.Get] returns together with a
    response is returned to the caller at once, the sink untouched.  When
    a read of the body fails, the error is not returned: its text goes to
    [config.Fatal]; if that call ends the process, [Download] never
    returns, and if it comes back, [Download] writes the bytes read
    before the failure to the sink and returns nil.  (A failure of
    [http.Get] that leaves no response is not covered.) *)
Theorem Download_failures (http_Get : string → option Response * option error)
    (config_Fatal : string → string → option Z) {W : Type} `{Writer W}
    (path : string) (w : W) (res : Response) :
  (∀ err, http_Get path = (Some res, Some err) →
          Download http_Get config_Fatal path w = (w, Return (Some err))) ∧
  (http_Get path = (Some res, None) →
   cond (Body res) ≠ EOF →
   Download http_Get config_Fatal path w =
     match config_Fatal "[util/file/file] ioutil.ReadAll() failed - "
             (Error (cond (Body res))) with
     | Some status => (w, Exit status)
     | None => ((Write w (delivered (Body res))).1, Return None)
     end).
Proof.
  split.
  - intros err Hget. unfold Download. by rewrite Hget.
  - apply Download_read_fails.
Qed.

Lemma Download_failures_witness :
  Download get_redirect_loop fatal_exits "http://host/" ([] : list Byte.byte)
    = ([], Return (Some (NetError "stopped after 10 redirects"))) ∧
  cond (mkReader [bytes_of "ab"] [] (NetError "connection reset")) ≠ EOF ∧
  Download get_reset fatal_exits "http://host/abcd" ([] : list Byte.byte)
    = ([], Exit 1).
Proof.
  split; [|split].
  - apply (Download_failures get_redirect_loop fatal_exits "http://host/" []
             (mkResponse 0 (mkReader [] [] EOF))).
    reflexivity.
  - discriminate.
  - apply (Download_failures get_reset fatal_exits "http://host/abcd" []
             (mkResponse 4 (mkReader [bytes_of "ab"] [] (NetError "connection reset"))));
      [reflexivity|discriminate].
Defined.

(** ** Download: the result of the write (C10) *)

(** C10: when the GET and the read of the body succeed, [Download]
    calls [Write] once, with the whole body, and returns nil whatever
    that call returned: for every sink, one that fails or writes short
    included. *)
Theorem Download_ignores_Write (http_Get : string → option Response * option error)
    (config_Fatal : string → string → option Z) {W : Type} `{Writer W}
    (path : string) (w : W) (res : Response) :
  http_Get path = (Some res, None) →
  cond (Body res) = EOF →
  Download http_Get config_Fatal path w
    = ((Write w (delivered (Body res))).1, Return None).
Proof.
  intros Hget Hcond. unfold Download, ioutil_ReadAll.
  rewrite Hget, Hcond. rewrite decide_True by done.
  by destruct (Write w (delivered (Body res))).
Qed.

Lemma Download_ignores_Write_witness :
  (Write closedFile (bytes_of "hello")).2
    = (0, Some (WriteError "write: file already closed")) ∧
  Download get_hello fatal_exits "http://host/hello" closedFile
    = (closedFile, Return None).
Proof.
  split; [reflexivity|].
  exact (Download_ignores_Write get_hello fatal_exits "http://host/hello" closedFile
           (mkResponse 5 (mkReader [bytes_of "hel"] (bytes_of "lo") EOF))
           eq_refl eq_refl).
Defined.

(** ** The evar commands (C9) *)

Lemma upper_ascii_idemp (a : ascii) : upper_ascii (upper_ascii a) = upper_ascii a.
Proof. by destruct a as [[] [] [] [] [] [] [] []]. Qed.

Lemma strings_ToUpper_again (s : string) :
  strings_ToUpper (strings_ToUpper s) = strings_ToUpper s.
Proof.
  induction s as [|a s IH]; simpl; [done|].
  by rewrite upper_ascii_idemp, IH.
Qed.

Lemma upper_ascii_below (a : ascii) :
  (nat_of_ascii a <? 128)%nat = true → (nat_of_ascii (upper_ascii a) <? 128)%nat = true.
Proof. by destruct a as [[] [] [] [] [] [] [] []]. Qed.

Lemma isASCII_ToUpper (s : string) :
  isASCII s = true → isASCII (strings_ToUpper s) = true.
Proof.
  induction s as [|a s IH]; [done|]. cbn [isASCII strings_ToUpper].
  intros [Ha Hs]%andb_true_iff. apply andb_true_iff.
  split; [by apply upper_ascii_below|by apply IH].
Qed.

Lemma strings_ToUpper_idemp (s : string) :
  isASCII s = true → upper_key (strings_ToUpper s).
Proof.
  intros Hs. split; [by apply isASCII_ToUpper|apply strings_ToUpper_again].
Qed.

(** The parts [strings.Split] cuts an ASCII string into are ASCII. *)
Lemma isASCII_split_from (sep s : string) (skip : nat) :
  isASCII s = true → Forall (λ x, isASCII x = true) (split_from sep s skip).
Proof.
  revert skip. induction s as [|a s IH]; intros skip; cbn [isASCII split_from].
  { intros _. by repeat constructor. }
  intros [Ha Hs]%andb_true_iff. destruct skip as [|k]; [|by apply IH].
  destruct (String.prefix sep (String a s)).
  - constructor; [done|by apply IH].
  - specialize (IH 0%nat Hs). destruct (split_from sep s 0) as [|x xs].
    + repeat constructor. cbn [isASCII]. by rewrite Ha.
    + apply Forall_cons in IH as [Hx Hxs]. constructor; [|done].
      cbn [isASCII]. by rewrite Ha, Hx.
Qed.

Lemma isASCII_Split (s sep : string) :
  isASCII s = true → Forall (λ x, isASCII x = true) (strings_Split s sep).
Proof.
  unfold strings_Split. destruct sep as [|c sep]; [|apply isASCII_split_from].
  induction s as [|a s IH]; cbn [isASCII explode]; [by constructor|].
  intros [Ha Hs]%andb_true_iff. constructor; [|by apply IH].
  cbn [isASCII]. by rewrite Ha.
Qed.

Lemma isASCII_named (args : list string) :
  Forall (λ arg, isASCII arg = true) args →
  Forall (λ pair, isASCII pair = true) (named args).
Proof.
  unfold named. induction 1 as [|arg args Harg _ IH]; simpl; [by constructor|].
  apply Forall_app. split; [by apply (isASCII_Split arg ",")|done].
Qed.


Lemma foldl_nested {A B C} (f : A → C → A) (g : B → list C) (a : A) (l : list B) :
  foldl (λ a x, foldl f a (g x)) a l = foldl f a (concat (map g l)).
Proof.
  revert a. induction l as [|x l IH]; intros a; simpl; [done|].
  by rewrite foldl_app, IH.
Qed.

Lemma envAddFn_unfold args store :
  envAddFn args store = Some (foldl addPair (stored store) (named args)).
Proof. unfold envAddFn, data_Put, named. by rewrite foldl_nested. Qed.

Lemma envRemoveFn_unfold args store :
  envRemoveFn args store = Some (foldl removeKey (stored store) (named args)).
Proof. unfold envRemoveFn, data_Put, named. by rewrite foldl_nested. Qed.

Lemma addPair_cases (evars : EnvVars) pair :
  (length (strings_Split pair ":") ≠ 2%nat ∧ addPair evars pair = evars) ∨
  (∃ k v, strings_Split pair ":" = [k; v] ∧
          addPair evars pair = <[strings_ToUpper k := v]> evars).
Proof.
  unfold addPair.
  destruct (strings_Split pair ":") as [|k [|v [|x parts]]]; simpl; auto.
  right. by exists k, v.
Qed.



Lemma foldl_removeKey_lookup (evars : EnvVars) keys k :
  foldl removeKey evars keys !! k =
  if decide (k ∈ map strings_ToUpper keys) then None else evars !! k.
Proof.
  induction keys as [|key keys IH] using rev_ind.
  { rewrite decide_False; [done|]. apply not_elem_of_nil. }
  rewrite foldl_app, map_app. simpl. unfold removeKey at 1.
  destruct (decide (strings_ToUpper key = k)) as [<-|Hne].
  - rewrite lookup_delete_eq, decide_True; [done|].
    apply elem_of_app. right. apply list_elem_of_here.
  - rewrite lookup_delete_ne, IH by done.
    destruct (decide (k ∈ map strings_ToUpper keys)) as [Hin|Hnin].
    + rewrite decide_True; [done|]. apply elem_of_app. by left.
    + rewrite decide_False; [done|].
      intros [?|Hk%list_elem_of_singleton]%elem_of_app; done.
Qed.



(** ** Well-formed file systems *)

Lemma wf_lookup fs p nd :
  wf fs → fs !! p = Some nd →
  0 ≤ perm_of nd ≤ ModePerm ∧
  match p with
  | [] => is_dir nd = true
  | _ :: parent => ∃ m, fs !! parent = Some (NDir m)
  end.
Proof.
  intros Hwf Hp. specialize (Hwf p nd Hp). unfold node_ok in Hwf.
  apply andb_true_iff in Hwf as [[Hlo Hhi]%andb_true_iff Hparent].
  split; [lia|].
  destruct p as [|n parent]; [done|].
  destruct (fs !! parent) as [[| |]|]; try done. by eexists.
Qed.

Lemma wf_intro fs :
  (∀ p nd, fs !! p = Some nd →
     0 ≤ perm_of nd ≤ ModePerm ∧
     match p with
     | [] => is_dir nd = true
     | _ :: parent => ∃ m, fs !! parent = Some (NDir m)
     end) →
  wf fs.
Proof.
  intros Hall p nd Hp. destruct (Hall p nd Hp) as [Hperm Hparent].
  unfold node_ok. apply andb_true_iff. split.
  - apply andb_true_iff. split; lia.
  - destruct p as [|n parent]; [done|]. by destruct Hparent as [m ->].
Qed.

(** Nothing lies below what is not a directory. *)
Lemma wf_below fs p r :
  wf fs → r ≠ [] →
  (∀ m, fs !! p ≠ Some (NDir m)) →
  fs !! (r ++ p) = None.
Proof.
  intros Hwf. induction r as [|n r IH]; intros Hr Hp; [done|].
  destruct (fs !! ((n :: r) ++ p)) as [nd|] eqn:Hnd; [|done].
  destruct (wf_lookup _ _ _ Hwf Hnd) as [_ [m Hm]].
  destruct r as [|n' r]; simpl in *.
  - by destruct (Hp m).
  - rewrite IH in Hm; done.
Qed.

Lemma wf_above fs p q :
  wf fs → is_Some (fs !! q) → p `suffix_of` q → p ≠ q →
  ∃ m, fs !! p = Some (NDir m).
Proof.
  intros Hwf Hq [r ->] Hne.
  assert (r ≠ []) as Hr by (by intros ->).
  destruct (fs !! p) as [[pf d|m|k pk]|] eqn:Hp; [|by eauto| |];
    (assert (fs !! (r ++ p) = None) as Hnone
       by (apply wf_below; [done|done|intros m'; by rewrite Hp]));
    rewrite Hnone in Hq; by destruct Hq.
Qed.

Lemma wf_IsDir fs p nd :
  wf fs → fs !! p = Some nd → IsDir (mode_of nd) = is_dir nd.
Proof.
  intros Hwf Hp. destruct (wf_lookup _ _ _ Hwf Hp) as [Hperm _].
  destruct nd; simpl in *.
  - by apply IsDir_low.
  - apply (IsDir_NDir perm).
  - by apply (IsDir_NOther k).
Qed.

Lemma wf_insert_file fs n parent p d m :
  wf fs → 0 ≤ p ≤ ModePerm → fs !! parent = Some (NDir m) →
  (∀ p', fs !! (n :: parent) ≠ Some (NDir p')) →
  wf (<[n :: parent := NFile p d]> fs).
Proof.
  intros Hwf Hp Hparent Hnodir. apply wf_intro. intros q nd Hq.
  assert (n :: parent ≠ parent) as Hne.
  { intros Heq. apply (f_equal length) in Heq. simpl in Heq. lia. }
  destruct (decide (n :: parent = q)) as [<-|Hq'].
  - rewrite lookup_insert_eq in Hq. simplify_eq. simpl. split; [done|].
    exists m. by rewrite lookup_insert_ne.
  - rewrite lookup_insert_ne in Hq by done.
    destruct (wf_lookup _ _ _ Hwf Hq) as [Hperm Habove]. split; [done|].
    destruct q as [|n' parent']; [done|]. destruct Habove as [m' Hm'].
    exists m'. rewrite lookup_insert_ne; [done|].
    intros <-. by destruct (Hnodir m').
Qed.

Lemma wf_insert_dir fs name p :
  wf fs → 0 ≤ p ≤ ModePerm →
  match name with
  | [] => True
  | _ :: parent => ∃ m, fs !! parent = Some (NDir m)
  end →
  fs !! name = None →
  wf (<[name := NDir p]> fs).
Proof.
  intros Hwf Hp Hparent Hfresh. apply wf_intro. intros q nd Hq.
  destruct (decide (name = q)) as [<-|Hq'].
  - rewrite lookup_insert_eq in Hq. simplify_eq. simpl. split; [done|].
    destruct name as [|n parent]; [done|]. destruct Hparent as [m Hm].
    exists m. rewrite lookup_insert_ne; [done|].
    intros Heq. apply (f_equal length) in Heq. simpl in Heq. lia.
  - rewrite lookup_insert_ne in Hq by done.
    destruct (wf_lookup _ _ _ Hwf Hq) as [Hperm Habove]. split; [done|].
    destruct q as [|n' parent']; [done|]. destruct Habove as [m' Hm'].
    exists m'. rewrite lookup_insert_ne; [done|].
    intros ->. by rewrite Hfresh in Hm'.
Qed.

(** Every path of a file system is shorter than some bound. *)
Lemma paths_bounded (fs : FS) : ∃ n, ∀ q, is_Some (fs !! q) → (length q < n)%nat.
Proof.
  induction fs as [|q nd fs Hq IH] using map_ind.
  - exists 0%nat. intros q [nd Hq]. by rewrite lookup_empty in Hq.
  - destruct IH as [n Hn]. exists (S (n `max` length q)). intros q' Hq'.
    destruct (decide (q = q')) as [<-|Hne]; [lia|].
    rewrite lookup_insert_ne in Hq' by done. specialize (Hn q' Hq'). lia.
Qed.

(** ** Directory listings *)

Lemma elem_of_children dir fs n nd :
  (n, nd) ∈ children dir fs ↔ fs !! (n :: dir) = Some nd.
Proof.
  unfold children. rewrite list_elem_of_omap. split.
  - intros ([q nd'] & Hin & Hsome). apply elem_of_map_to_list in Hin.
    destruct q as [|n' p]; [done|]. case_decide; simplify_eq. done.
  - intros Hnd. exists (n :: dir, nd). split; [by apply elem_of_map_to_list|].
    by rewrite decide_True.
Qed.

Lemma NoDup_children dir fs : NoDup ((children dir fs).*1).
Proof.
  unfold children.
  pose proof (NoDup_fst_map_to_list fs) as Hnodup.
  induction (map_to_list fs) as [|[q nd] l IH]; simpl; [constructor|].
  apply NoDup_cons in Hnodup as [Hq Hl]. specialize (IH Hl).
  destruct q as [|n p]; [done|]. case_decide as Hp; [|done]. subst p.
  simpl. apply NoDup_cons. split; [|done].
  intros Hin. apply Hq.
  apply list_elem_of_fmap in Hin as ([n' nd'] & Hn & Hin). simpl in Hn. subst n'.
  apply list_elem_of_omap in Hin as ([q' nd''] & Hin & Hsome).
  destruct q' as [|n' p']; [done|]. case_decide; simplify_eq.
  apply list_elem_of_fmap. eexists. split; [|done]. done.
Qed.

(** ** MkdirAll on a well-formed disk *)

Lemma not_suffix_cons (n : string) (p : path) : ¬ (n :: p) `suffix_of` p.
Proof. intros Hsuf%suffix_length. simpl in Hsuf. lia. Qed.

Lemma suffix_cons_cases (x : string) (p l : path) :
  p `suffix_of` x :: l → p = x :: l ∨ p `suffix_of` l.
Proof.
  intros [[|y k] Hk]; simpl in Hk; [by left|right].
  exists k. by simplify_eq.
Qed.

Lemma suffix_comparable (p q l : path) :
  p `suffix_of` l → q `suffix_of` l → p `suffix_of` q ∨ q `suffix_of` p.
Proof.
  revert p q. induction l as [|x l IH]; intros p q Hp Hq.
  - apply suffix_nil_inv in Hp as ->. left. apply suffix_nil.
  - apply suffix_cons_cases in Hp as [->|Hp]; [by right|].
    apply suffix_cons_cases in Hq as [->|Hq]; [left; by apply suffix_cons_r|].
    by apply IH.
Qed.

Lemma suffix_sibling (n n' : string) (dir r : path) :
  (n :: dir) `suffix_of` (r ++ n' :: dir) → n = n'.
Proof.
  intros [k Hk].
  apply app_inj_2 in Hk as [_ Hk]; [by simplify_eq|done].
Qed.

Lemma os_MkdirAll_spec umask name perm fs :
  wf fs →
  (∀ q nd, q `suffix_of` name → fs !! q = Some nd → is_dir nd = true) →
  ∃ fs', os_MkdirAll umask name perm fs = (fs', Ok tt) ∧ wf fs' ∧
    ∀ q, fs' !! q =
         match fs !! q with
         | Some nd => Some nd
         | None => if decide (q `suffix_of` name)
                   then Some (NDir (created_perm umask perm)) else None
         end.
Proof.
  revert fs. induction name as [|n parent IH]; intros fs Hwf Hdirs; simpl.
  - destruct (fs !! []) as [nd|] eqn:Hroot.
    + rewrite (wf_IsDir fs [] nd), (Hdirs [] nd) by done.
      exists fs. split; [done|]. split; [done|]. intros q.
      destruct (fs !! q) eqn:Hq; [done|]. rewrite decide_False; [done|].
      intros ->%suffix_nil_inv. by rewrite Hroot in Hq.
    + unfold os_Mkdir. rewrite Hroot. eexists. split; [done|]. split.
      * apply wf_insert_dir; [done|apply created_perm_range|done..].
      * intros q. destruct (decide (q = [])) as [->|Hq].
        -- rewrite lookup_insert_eq, Hroot, decide_True; done.
        -- rewrite lookup_insert_ne by done.
           destruct (fs !! q); [done|]. rewrite decide_False; [done|].
           by intros ?%suffix_nil_inv.
  - destruct (fs !! (n :: parent)) as [nd|] eqn:Hname.
    + rewrite (wf_IsDir fs (n :: parent) nd), (Hdirs (n :: parent) nd) by done.
      exists fs. split; [done|]. split; [done|]. intros q.
      destruct (fs !! q) eqn:Hq; [done|]. rewrite decide_False; [done|].
      intros Hsuf.
      destruct (decide (q = n :: parent)) as [->|Hne]; [by rewrite Hname in Hq|].
      destruct (wf_above fs q (n :: parent)) as [m Hm]; [done|by eauto|done..|].
      by rewrite Hm in Hq.
    + unfold bind.
      destruct (IH fs) as (fs1 & -> & Hwf1 & Hfs1); [done| |].
      { intros q nd Hq. apply Hdirs. by apply suffix_cons_r. }
      unfold os_Mkdir.
      assert (fs1 !! (n :: parent) = None) as Hname1.
      { rewrite Hfs1, Hname, decide_False; [done|]. apply not_suffix_cons. }
      assert (∃ m, fs1 !! parent = Some (NDir m)) as [m Hm].
      { rewrite Hfs1. destruct (fs !! parent) as [nd|] eqn:Hparent.
        - specialize (Hdirs parent nd (suffix_cons_r _ _ _ (reflexivity _)) Hparent).
          destruct nd; try done. by eexists.
        - rewrite decide_True by done. by eexists. }
      rewrite Hname1, Hm. eexists. split; [done|]. split.
      * apply wf_insert_dir; [done|apply created_perm_range|by eexists|done].
      * intros q. destruct (decide (n :: parent = q)) as [<-|Hq].
        -- rewrite lookup_insert_eq, Hname, decide_True; done.
        -- rewrite lookup_insert_ne, Hfs1 by done.
           destruct (fs !! q); [done|].
           destruct (decide (q `suffix_of` parent)) as [Hsuf|Hnsuf].
           ++ rewrite decide_True; [done|]. by apply suffix_cons_r.
           ++ rewrite decide_False; [done|].
              by intros [->|?]%suffix_cons_cases.
Qed.

(** ** copyFile *)

Lemma copyFile_spec umask src n parent fs p d m :
  wf fs → fs !! src = Some (NFile p d) →
  fs !! parent = Some (NDir m) → fs !! (n :: parent) = None →
  copyFile umask src (n :: parent) fs = (<[n :: parent := NFile p d]> fs, Ok tt).
Proof.
  intros Hwf Hsrc Hparent Hdst.
  assert (n :: parent ≠ src) as Hne by (intros <-; by rewrite Hdst in Hsrc).
  destruct (wf_lookup _ _ _ Hwf Hsrc) as [Hperm _]. simpl in Hperm.
  unfold copyFile, bind, os_Open, os_Create, io_Copy, bind, file_read,
    file_write, os_Stat, os_Chmod.
  rewrite Hsrc, Hdst, Hparent.
  rewrite lookup_insert_ne, Hsrc by done.
  rewrite lookup_insert_eq, insert_insert_eq.
  rewrite lookup_insert_ne, Hsrc by done.
  rewrite lookup_insert_eq, insert_insert_eq. simpl.
  unfold syscallMode. by rewrite Perm_small.
Qed.

(** ** copyDir *)

Section copy_loop.
Variables (umask : Z) (fuel : nat) (src dst : path) (fs1 : FS) (md : Z).
Hypothesis Hrec : copyDir_ok umask fuel.
Hypothesis Hwf1 : wf fs1.
Hypothesis Hsd : ¬ src `suffix_of` dst.
Hypothesis Hds : ¬ dst `suffix_of` src.
Hypothesis Hdst1 : fs1 !! dst = Some (NDir md).
Hypothesis Hdepth : ∀ r, is_Some (fs1 !! (r ++ src)) → (length r < S fuel)%nat.

Lemma src_outside_dst r : ¬ dst `suffix_of` r ++ src.
Proof.
  intros Hsuf.
  destruct (suffix_comparable src dst (r ++ src)); [by apply suffix_app_r|..]; done.
Qed.

Lemma src_child_outside n r : ¬ dst `suffix_of` r ++ n :: src.
Proof. rewrite cons_middle, app_assoc. apply src_outside_dst. Qed.

Lemma sibling_outside n n' r : n ≠ n' → ¬ (n :: dst) `suffix_of` r ++ n' :: dst.
Proof. intros Hne Hsuf%suffix_sibling. done. Qed.

Lemma copy_entry n nd todo fs :
  copying umask src dst fs1 (n :: todo) fs →
  n ∉ todo →
  fs1 !! (n :: src) = Some nd →
  ∃ fs', copyDir_entry umask (copyDir umask fuel) src dst (entry_info (n, nd)) fs
           = (fs', Ok tt) ∧
         copying umask src dst fs1 todo fs'.
Proof.
  intros (Hwf & Hframe & Hdst & Htodo & Hdone) Hn Hnd.
  assert (n ∈ n :: todo) as Hin by apply list_elem_of_here.
  assert (fs !! (n :: dst) = None) as Hfresh by apply (Htodo n [] Hin).
  assert (fs !! (n :: src) = Some nd) as Hnd'.
  { rewrite Hframe; [done|]. apply (src_child_outside n []). }
  assert (∀ n', n' ≠ n → n' ∉ todo → n' ∉ n :: todo) as Hothers.
  { intros n' Hne Hnot [->|?]%elem_of_cons; done. }
  destruct (wf_lookup _ _ _ Hwf1 Hnd) as [Hperm _].
  unfold copyDir_entry, entry_info, filepath_Join. cbn [fst snd Name_ Mode_ Size_].
  destruct nd as [p d|p|k p]; simpl in Hperm.
  - (* a regular file *)
    simpl (mode_of _). rewrite IsDir_low, IsRegular_low by done.
    rewrite (copyFile_spec umask (n :: src) n dst fs p d md);
      [|done|done|by rewrite Hdst|done].
    eexists. split; [done|]. split; [|split; [|split; [|split]]].
    + eapply wf_insert_file; [done|done|by rewrite Hdst|].
      intros p'. by rewrite Hfresh.
    + intros q Hq. rewrite lookup_insert_ne; [by apply Hframe|].
      intros <-. apply Hq. by apply suffix_cons_r.
    + rewrite lookup_insert_ne; [done|].
      intros Heq. apply (f_equal length) in Heq. simpl in Heq. lia.
    + intros n' r Hn'. rewrite lookup_insert_ne.
      * apply Htodo. by apply list_elem_of_further.
      * intros Heq. assert (n = n') as <-; [|done].
        apply (suffix_sibling n n' dst r). by rewrite <- Heq.
    + intros n' r Hn'. destruct (decide (n' = n)) as [->|Hne].
      * destruct r as [|x r].
        -- simpl. by rewrite lookup_insert_eq, Hnd.
        -- rewrite lookup_insert_ne.
           2: { intros Heq. apply (f_equal length) in Heq.
                simpl in Heq. rewrite length_app in Heq. simpl in Heq. lia. }
           rewrite (Htodo n (x :: r) Hin).
           rewrite (wf_below fs1 (n :: src) (x :: r)); [done|done|done|].
           intros m'. by rewrite Hnd.
      * rewrite lookup_insert_ne.
        -- apply Hdone. by apply Hothers.
        -- intros Heq. apply Hne. symmetry.
           apply (suffix_sibling n n' dst r). by rewrite <- Heq.
  - (* a directory *)
    rewrite (IsDir_NDir p).
    destruct (Hrec (n :: src) (n :: dst) fs p) as (fs' & -> & Hwf' & Hframe' & Hdst' & Hbelow').
    + done.
    + done.
    + intros [Heq|Hsuf]%suffix_cons_cases.
      * injection Heq as Heq. apply Hsd. by rewrite Heq.
      * apply Hsd. etrans; [|exact Hsuf]. by apply suffix_cons_r.
    + intros [Heq|Hsuf]%suffix_cons_cases.
      * injection Heq as Heq. apply Hsd. by rewrite Heq.
      * apply Hds. etrans; [|exact Hsuf]. by apply suffix_cons_r.
    + intros r _. by apply Htodo.
    + right. split; [done|]. exists md. by rewrite Hdst.
    + intros r Hr.
      assert (is_Some (fs1 !! (r ++ n :: src))) as Hr1.
      { rewrite <- Hframe; [done|]. apply src_child_outside. }
      rewrite cons_middle, app_assoc in Hr1.
      apply Hdepth in Hr1. rewrite length_app in Hr1. simpl in Hr1. lia.
    + rewrite Hfresh in Hdst'. simpl in Hdst'.
      eexists. split; [done|]. split; [|split; [|split; [|split]]].
      * done.
      * intros q Hq. rewrite Hframe'; [by apply Hframe|].
        intros Hsuf. apply Hq. etrans; [|exact Hsuf]. by apply suffix_cons_r.
      * rewrite Hframe'; [done|]. apply not_suffix_cons.
      * intros n' r Hn'. rewrite Hframe'.
        -- apply Htodo. by apply list_elem_of_further.
        -- apply sibling_outside. by intros ->.
      * intros n' r Hn'. destruct (decide (n' = n)) as [->|Hne].
        -- destruct r as [|x r].
           ++ simpl. by rewrite Hdst', Hnd.
           ++ rewrite (Hbelow' (x :: r)) by done.
              rewrite (Hframe ((x :: r) ++ n :: src)); [done|].
              apply (src_child_outside n (x :: r)).
        -- rewrite Hframe'.
           ++ apply Hdone. by apply Hothers.
           ++ apply sibling_outside. by intros ->.
  - (* neither *)
    rewrite (IsDir_NOther k p), (IsRegular_NOther k p) by done.
    eexists. split; [done|]. split; [done|]. split; [done|]. split; [done|].
    split.
    + intros n' r Hn'. apply Htodo. by apply list_elem_of_further.
    + intros n' r Hn'. destruct (decide (n' = n)) as [->|Hne].
      * rewrite (Htodo n r Hin). destruct r as [|x r].
        -- simpl. by rewrite Hnd.
        -- rewrite (wf_below fs1 (n :: src) (x :: r)); [done|done|done|].
           intros m'. by rewrite Hnd.
      * apply Hdone. by apply Hothers.
Qed.

Lemma copy_entries kids fs :
  NoDup kids.*1 →
  (∀ n nd, (n, nd) ∈ kids → fs1 !! (n :: src) = Some nd) →
  copying umask src dst fs1 kids.*1 fs →
  ∃ fs', for_range (map entry_info kids)
           (copyDir_entry umask (copyDir umask fuel) src dst) fs = (fs', Ok tt) ∧
         copying umask src dst fs1 [] fs'.
Proof.
  revert fs. induction kids as [|[n nd] kids IH]; intros fs Hnodup Hkids Hinv; simpl.
  - by exists fs.
  - simpl in Hnodup. apply NoDup_cons in Hnodup as [Hn Hnodup].
    destruct (copy_entry n nd kids.*1 fs) as (fs' & Hbody & Hinv');
      [done|done|apply Hkids, list_elem_of_here|].
    unfold bind. rewrite Hbody. apply IH; [done| |done].
    intros n' nd' Hin. by apply Hkids, list_elem_of_further.
Qed.
End copy_loop.

Lemma dst_ready_ancestors fs dst :
  wf fs → dst_ready fs dst →
  ∀ q, q `suffix_of` dst → q ≠ dst → ∃ m, fs !! q = Some (NDir m).
Proof.
  intros Hwf [[m Hdst]|[Hdst Hparent]] q Hq Hne.
  - by apply (wf_above fs q dst).
  - destruct dst as [|n parent].
    + by apply suffix_nil_inv in Hq.
    + apply suffix_cons_cases in Hq as [->|Hq]; [done|].
      destruct Hparent as [m Hm].
      destruct (decide (q = parent)) as [->|Hne']; [by eauto|].
      by apply (wf_above fs q parent).
Qed.

Lemma copyDir_spec umask fuel : copyDir_ok umask fuel.
Proof.
  induction fuel as [|fuel IH];
    intros src dst fs m Hwf Hsrc Hsd Hds Hbelow Hready Hdepth.
  { specialize (Hdepth []). simpl in Hdepth.
    rewrite Hsrc in Hdepth. specialize (Hdepth ltac:(eauto)). lia. }
  pose proof (dst_ready_ancestors fs dst Hwf Hready) as Hanc.
  destruct (wf_lookup _ _ _ Hwf Hsrc) as [Hm _]. simpl in Hm.
  assert (src ≠ dst) as Hne by (by intros ->).
  destruct (os_MkdirAll_spec umask dst (mode_of (NDir m)) fs) as (fs1 & Hmk & Hwf1 & Hfs1).
  { done. }
  { intros q nd Hq Hnd. destruct (decide (q = dst)) as [->|Hqd].
    - destruct Hready as [[m' Hd]|[Hd _]]; rewrite Hd in Hnd; by simplify_eq.
    - destruct (Hanc q Hq Hqd) as [m' Hm']. rewrite Hm' in Hnd. by simplify_eq. }
  unfold created_perm in Hfs1. rewrite syscallMode_NDir in Hfs1 by done.
  assert (fs1 !! dst = Some (default (NDir (Z.ldiff m umask)) (fs !! dst))) as Hdst1.
  { rewrite Hfs1. destruct (fs !! dst); [done|]. by rewrite decide_True. }
  assert (∃ md, fs1 !! dst = Some (NDir md)) as [md Hmd].
  { rewrite Hdst1. destruct Hready as [[m' ->]|[-> _]]; by eexists. }
  assert (∀ q, q ≠ dst → fs1 !! q = fs !! q) as Hother.
  { intros q Hq. rewrite Hfs1. destruct (fs !! q) eqn:Hfq; [done|].
    case_decide as Hsuf; [|done].
    destruct (Hanc q Hsuf Hq) as [m' Hm']. by rewrite Hm' in Hfq. }
  assert (∀ r x, r ++ x :: dst ≠ dst) as Hlonger.
  { intros r x Heq. apply (f_equal length) in Heq.
    rewrite length_app in Heq. simpl in Heq. lia. }
  assert (∀ r, r ++ src ≠ dst) as Hsrcs.
  { intros r <-. apply Hsd. by apply suffix_app_r. }
  simpl. unfold bind, os_Stat. rewrite Hsrc. cbn [info_of Mode_].
  rewrite Hmk. unfold os_Open, file_Readdir.
  rewrite (Hother src Hne), Hsrc, (Hother src Hne), Hsrc.
  destruct (copy_entries umask fuel src dst fs1 md IH Hwf1 Hsd Hds Hmd)
    with (kids := children src fs1) (fs := fs1)
    as (fs' & Hloop & Hwf' & Hframe' & Hdst' & _ & Hdone').
  - intros r Hr. rewrite (Hother _ (Hsrcs r)) in Hr. by apply Hdepth.
  - apply NoDup_children.
  - intros n nd. apply elem_of_children.
  - split; [done|]. split; [done|]. split; [done|].
    assert (∀ n r, fs1 !! (r ++ n :: dst) = None) as Hnone.
    { intros n r. rewrite Hother by done.
      rewrite cons_middle, app_assoc. apply Hbelow. by destruct r. }
    split; [by intros|].
    intros n r Hn. rewrite Hnone.
    assert (fs1 !! (n :: src) = None) as Hkid.
    { destruct (fs1 !! (n :: src)) as [nd|] eqn:Hnd; [|done].
      destruct Hn. apply list_elem_of_fmap. exists (n, nd).
      split; [done|]. by apply elem_of_children. }
    destruct r as [|x r]; [simpl; by rewrite Hkid|].
    rewrite (wf_below fs1 (n :: src) (x :: r)); [done|done|done|].
    intros m'. by rewrite Hkid.
  - exists fs'. split; [exact Hloop|]. split; [done|]. split; [|split].
    + intros q Hq. rewrite Hframe' by done. apply Hother.
      intros ->. by apply Hq.
    + by rewrite Hdst'.
    + intros r Hr. destruct r as [|x r _] using rev_ind; [done|].
      rewrite <- !app_assoc. simpl.
      rewrite Hdone' by apply not_elem_of_nil.
      rewrite Hother; [done|].
      rewrite cons_middle, app_assoc. apply Hsrcs.
Qed.

(** ** Copy *)

Lemma Copy_spec umask src dst fs m :
  wf fs → fs !! src = Some (NDir m) →
  ¬ src `suffix_of` dst →
  (∀ q, dst `suffix_of` q → fs !! q = None) →
  (∀ q nd, q `suffix_of` dst → fs !! q = Some nd → is_dir nd = true) →
  ∃ fuel0, ∀ fuel, (fuel0 ≤ fuel)%nat →
    ∃ fs', Copy umask fuel dst src fs = (fs', Ok tt) ∧ wf fs' ∧
           (∀ r, fs' !! (r ++ dst) = fs !! (r ++ src) ≫= copied umask) ∧
           (∀ r, fs' !! (r ++ src) = fs !! (r ++ src)).
Proof.
  intros Hwf Hsrc Hsd Hfresh Hdirs.
  destruct (paths_bounded fs) as [fuel0 Hbound].
  exists fuel0. intros fuel Hfuel.
  destruct (wf_lookup _ _ _ Hwf Hsrc) as [Hm _]. simpl in Hm.
  assert (¬ dst `suffix_of` src) as Hds.
  { intros Hsuf. by rewrite (Hfresh src Hsuf) in Hsrc. }
  assert (∀ r, ¬ dst `suffix_of` r ++ src) as Hout.
  { intros r Hsuf.
    destruct (suffix_comparable src dst (r ++ src)); [by apply suffix_app_r|..]; done. }
  destruct (os_MkdirAll_spec umask dst (mode_of (NDir m)) fs)
    as (fs0 & Hmk & Hwf0 & Hfs0); [done|done|].
  unfold created_perm in Hfs0. rewrite syscallMode_NDir in Hfs0 by done.
  assert (fs0 !! dst = Some (NDir (Z.ldiff m umask))) as Hdst0.
  { rewrite Hfs0, (Hfresh dst) by done. by rewrite decide_True. }
  assert (∀ r, fs0 !! (r ++ src) = fs !! (r ++ src)) as Hsrc0.
  { intros r. rewrite Hfs0. destruct (fs !! (r ++ src)); [done|].
    rewrite decide_False; [done|]. intros Hsuf. apply Hsd.
    etrans; [|exact Hsuf]. by apply suffix_app_r. }
  destruct (copyDir_spec umask fuel src dst fs0 m)
    as (fs' & Hcopy & Hwf' & Hframe' & Hdst' & Hbelow').
  - done.
  - pose proof (Hsrc0 []) as H0. simpl in H0. by rewrite H0.
  - done.
  - done.
  - intros r Hr. rewrite Hfs0, Hfresh by (by apply suffix_app_r).
    rewrite decide_False; [done|].
    intros Hsuf%suffix_length. rewrite length_app in Hsuf.
    destruct r; [done|]. simpl in Hsuf. lia.
  - left. by eexists.
  - intros r Hr. rewrite Hsrc0 in Hr. apply Hbound in Hr.
    rewrite length_app in Hr. lia.
  - exists fs'. split; [|split; [done|split]].
    + unfold Copy, bind, os_Stat. rewrite Hsrc. cbn [info_of Mode_].
      by rewrite Hmk.
    + intros r. destruct (decide (r = [])) as [->|Hr].
      * simpl. rewrite Hdst', Hdst0, Hsrc. done.
      * by rewrite Hbelow', Hsrc0.
    + intros r. by rewrite Hframe', Hsrc0.
Qed.

(** ** Tar *)

Lemma tar_Write_WriteHeader h b tw :
  tar_Write b (tar_WriteHeader h tw) = tw ++ [(h, b)].
Proof.
  unfold tar_Write, tar_WriteHeader.
  rewrite reverse_app. simpl. by rewrite reverse_involutive.
Qed.

Lemma elem_of_readDirNames dir fs n :
  n ∈ readDirNames dir fs ↔ is_Some (fs !! (n :: dir)).
Proof.
  unfold readDirNames. rewrite merge_sort_Permutation, list_elem_of_fmap. split.
  - intros ([n' nd] & -> & Hin). apply elem_of_children in Hin. by eexists.
  - intros [nd Hnd]. exists (n, nd). split; [done|]. by apply elem_of_children.
Qed.

Lemma tarWalkFn_spec fs p nd tw :
  wf fs → fs !! p = Some nd →
  tarWalkFn p (inl (info_of p nd)) tw fs =
  (fs, Ok (tw ++ match nd with
                 | NFile perm d => [file_entry p perm d]
                 | _ => []
                 end)).
Proof.
  intros Hwf Hp. destruct (wf_lookup _ _ _ Hwf Hp) as [Hperm _].
  unfold tarWalkFn, info_of. cbn [Mode_ Size_].
  destruct nd as [perm d|perm|k perm]; simpl in Hperm.
  - simpl (mode_of _). rewrite IsRegular_low by done.
    unfold bind, os_Open, file_read, ret. rewrite Hp. cbv beta iota zeta.
    rewrite Hp. by rewrite tar_Write_WriteHeader.
  - rewrite (IsRegular_NDir perm). unfold ret. by rewrite app_nil_r.
  - rewrite (IsRegular_NOther k perm). unfold ret. by rewrite app_nil_r.
Qed.

Section walk_loop.
Variables (fuel : nat) (fs : FS) (p : path).
Hypothesis Hrec : ∀ q nd tw,
  fs !! q = Some nd →
  (∀ r, is_Some (fs !! (r ++ q)) → (length r < fuel)%nat) →
  ∃ es, walk fuel q (info_of q nd) tarWalkFn tw fs = (fs, Ok (tw ++ es)) ∧
        archived fs q es.
Hypothesis Hdepth : ∀ r, is_Some (fs !! (r ++ p)) → (length r < S fuel)%nat.

Lemma walk_names_tar names tw :
  (∀ n, n ∈ names → is_Some (fs !! (n :: p))) →
  ∃ es,
    walk_names (λ filename info a, walk fuel filename info tarWalkFn a)
      tarWalkFn p names tw fs = (fs, Ok (tw ++ es)) ∧
    ∀ e, e ∈ es ↔ ∃ n, n ∈ names ∧ ∃ r perm d,
                    fs !! (r ++ n :: p) = Some (NFile perm d) ∧
                    e = file_entry (r ++ n :: p) perm d.
Proof.
  revert tw. induction names as [|n names IH]; intros tw Hkids; simpl.
  - exists []. unfold ret. rewrite app_nil_r. split; [done|].
    intros e. split; [by intros ?%elem_of_nil|].
    by intros (n & ?%elem_of_nil & _).
  - unfold filepath_Join, os_Lstat.
    destruct (Hkids n (list_elem_of_here _ _)) as [nd Hnd]. rewrite Hnd.
    destruct (Hrec (n :: p) nd tw Hnd) as (es1 & Hwalk & Hes1).
    { intros r Hr. rewrite cons_middle, app_assoc in Hr.
      apply Hdepth in Hr. rewrite length_app in Hr. simpl in Hr. lia. }
    unfold bind. rewrite Hwalk.
    destruct (IH (tw ++ es1)) as (es2 & -> & Hes2).
    { intros n' Hn'. by apply Hkids, list_elem_of_further. }
    exists (es1 ++ es2). split; [by rewrite app_assoc|].
    intros e. rewrite elem_of_app, Hes2, (Hes1 e). split.
    + intros [(r & perm & d & Hr & ->)|(n' & Hn' & Hrest)].
      * exists n. split; [apply list_elem_of_here|]. by exists r, perm, d.
      * exists n'. split; [by apply list_elem_of_further|done].
    + intros (n' & [->|Hn']%elem_of_cons & Hrest); [by left|right].
      by exists n'.
Qed.
End walk_loop.

Lemma walk_tar fuel fs q nd tw :
  wf fs → fs !! q = Some nd →
  (∀ r, is_Some (fs !! (r ++ q)) → (length r < fuel)%nat) →
  ∃ es, walk fuel q (info_of q nd) tarWalkFn tw fs = (fs, Ok (tw ++ es)) ∧
        archived fs q es.
Proof.
  intros Hwf. revert q nd tw.
  induction fuel as [|fuel IH]; intros q nd tw Hq Hdepth.
  { specialize (Hdepth []). simpl in Hdepth. rewrite Hq in Hdepth.
    specialize (Hdepth ltac:(eauto)). lia. }
  cbn [walk]. unfold bind. rewrite tarWalkFn_spec by done.
  cbn [info_of Mode_]. rewrite (wf_IsDir fs q nd) by done.
  destruct (wf_lookup _ _ _ Hwf Hq) as [Hperm _].
  assert (∀ r, r ≠ [] → (∀ m, nd ≠ NDir m) → fs !! (r ++ q) = None) as Hleaf.
  { intros r Hr Hnd. apply wf_below; [done..|]. intros m. rewrite Hq.
    intros [= ->]. by apply (Hnd m). }
  destruct nd as [perm d|perm|k perm]; simpl.
  - exists [file_entry q perm d]. split; [done|]. intros e.
    rewrite list_elem_of_singleton. split.
    + intros ->. by exists [], perm, d.
    + intros (r & perm' & d' & Hr & ->). destruct r as [|x r].
      * simpl in Hr. rewrite Hq in Hr. by simplify_eq.
      * rewrite Hleaf in Hr; done.
  - destruct (walk_names_tar fuel fs q IH Hdepth
                (readDirNames q fs) (tw ++ []))
      as (es & -> & Hes).
    { intros n. apply elem_of_readDirNames. }
    exists es. split; [by rewrite app_nil_r|]. intros e. rewrite (Hes e). split.
    + intros (n & _ & r & perm' & d & Hr & ->).
      exists (r ++ [n]), perm', d. by rewrite <- app_assoc.
    + intros (r & perm' & d & Hr & ->).
      destruct r as [|n r _] using rev_ind.
      { simpl in Hr. rewrite Hq in Hr. done. }
      rewrite <- app_assoc in Hr |- *. simpl in Hr |- *.
      exists n. split; [|by exists r, perm', d].
      apply elem_of_readDirNames.
      destruct (decide (r = [])) as [->|Hne]; [by eauto|].
      destruct (wf_above fs (n :: q) (r ++ n :: q)) as [m Hm];
        [done|by eauto|by apply suffix_app_r| |by eauto].
      intros Heq. apply (f_equal length) in Heq.
      rewrite length_app in Heq. destruct r; [done|]. simpl in Heq. lia.
  - exists []. split; [done|]. intros e. split; [by intros ?%elem_of_nil|].
    intros (r & perm' & d & Hr & _). destruct r as [|x r].
    + simpl in Hr. rewrite Hq in Hr. done.
    + rewrite Hleaf in Hr; done.
Qed.

Lemma Tar_spec root fs :
  wf fs → is_Some (fs !! root) →
  ∃ fuel0, ∀ fuel, (fuel0 ≤ fuel)%nat →
    ∃ es, Tar fuel root fs = (fs, Ok es) ∧ archived fs root es.
Proof.
  intros Hwf [nd Hroot]. destruct (paths_bounded fs) as [fuel0 Hbound].
  exists fuel0. intros fuel Hfuel.
  unfold Tar, filepath_Walk, os_Lstat. rewrite Hroot.
  destruct (walk_tar fuel fs root nd [] Hwf Hroot) as (es & -> & Hes).
  - intros r Hr. apply Hbound in Hr. rewrite length_app in Hr. lia.
  - by exists es.
Qed.

(** ** Tar then Untar (C1) *)

(** C1 does not hold of the code.  [Tar] records the mode of every file
    in its header, and [Untar] gives the stored mode to the directories
    it makes, but a regular entry is created by [os.Create] and the
    stored mode is not applied: on a disk where the directories are in
    place, [a/b/f2] comes back with its bytes and with mode 0666 less the
    umask, never its 0755.  On an empty disk nothing comes back: [Tar]
    writes no directory entries, and [os.Create] does not make the
    directory [a/b]. *)
Theorem Untar_loses_file_mode :
  Tar 4 ["a"] project_disk = (project_disk, Ok project_archive) ∧
  project_disk !! ["f2"; "b"; "a"] = Some (NFile 493 (bytes_of "world")) ∧
  (∀ umask,
     (Untar umask [] (mkContainer project_archive None) staged_disk).2 = Ok tt ∧
     (Untar umask [] (mkContainer project_archive None) staged_disk).1
       !! ["f2"; "b"; "a"] = Some (NFile (Z.ldiff 438 umask) (bytes_of "world")) ∧
     Z.ldiff 438 umask ≠ 493) ∧
  Untar umask_022 [] (mkContainer project_archive None) empty_disk
    = (empty_disk, Err (PathError "open" ["f2"; "b"; "a"] ENOENT)).
Proof.
  split; [by vm_compute|]. split; [by vm_compute|]. split; [|by vm_compute].
  intros umask. split; [by vm_compute|]. split; [by vm_compute|].
  intros Heq. apply (f_equal (λ z, Z.testbit z 0)) in Heq.
  rewrite Z.ldiff_spec in Heq. done.
Qed.

(** ** Copy (C3) *)

Lemma fresh_lookup fs dst q : fresh fs dst → dst `suffix_of` q → fs !! q = None.
Proof.
  intros Hfresh Hsuf. destruct (fs !! q) as [nd|] eqn:Hq; [|done].
  by destruct (Hfresh q nd Hq).
Qed.

(** C3 does not hold of the code.  [copyDir] hands the mode of the
    source directory to [os.MkdirAll], which takes it before umask, and
    no [Chmod] follows, as one does in [copyFile] for the files: under
    the usual umask of 022 the copy of the tree [a], of mode 0777, with
    its directory [a/b], of mode 0775, has both directories with mode
    0755, while the file [a/b/g] keeps its mode 0755, which [os.Create]
    alone would have made 0644. *)
Theorem Copy_loses_directory_mode :
  (Copy umask_022 3 ["c"] ["a"] shared_disk).2 = Ok tt ∧
  shared_disk !! ["a"] = Some (NDir 511) ∧
  (Copy umask_022 3 ["c"] ["a"] shared_disk).1 !! ["c"] = Some (NDir 493) ∧
  shared_disk !! ["b"; "a"] = Some (NDir 509) ∧
  (Copy umask_022 3 ["c"] ["a"] shared_disk).1 !! ["b"; "c"] = Some (NDir 493) ∧
  shared_disk !! ["g"; "b"; "a"] = Some (NFile 493 (bytes_of "go")) ∧
  (Copy umask_022 3 ["c"] ["a"] shared_disk).1 !! ["g"; "b"; "c"]
    = Some (NFile 493 (bytes_of "go")) ∧
  created_perm umask_022 438 = 420.
Proof. repeat split; by vm_compute. Qed.

(** What [Copy] does make of a tree, on a destination that does not
    exist yet: for a source directory [src] on a well-formed disk and such
    a [dst], outside [src], below directories, [Copy] returns nil (with a
    recursion bound past the depth of the tree) and leaves below [dst]
    exactly the regular files of [src], at the same relative paths, each
    with the bytes and the mode of its source, as the claim on [Copy]
    has it, and exactly the directories of [src], each with the mode of
    its source less the bits of the umask, where the claim has the mode
    of the source itself.  Nothing else is below [dst] (see
    [copied]), and the source is as it was. *)
Theorem Copy_fidelity umask src dst fs m :
  wf fs → fs !! src = Some (NDir m) →
  ¬ src `suffix_of` dst → fresh fs dst → dirs_to fs dst →
  ∃ fuel0, ∀ fuel, (fuel0 ≤ fuel)%nat →
    ∃ fs', Copy umask fuel dst src fs = (fs', Ok tt) ∧
      (∀ r, fs' !! (r ++ dst) = fs !! (r ++ src) ≫= copied umask) ∧
      (∀ r perm d, fs' !! (r ++ dst) = Some (NFile perm d) ↔
                   fs !! (r ++ src) = Some (NFile perm d)) ∧
      (∀ r perm', fs' !! (r ++ dst) = Some (NDir perm') ↔
                  ∃ perm, fs !! (r ++ src) = Some (NDir perm) ∧
                          perm' = Z.ldiff perm umask) ∧
      (umask = 0 → ∀ r perm, fs' !! (r ++ dst) = Some (NDir perm) ↔
                             fs !! (r ++ src) = Some (NDir perm)) ∧
      (∀ r, fs' !! (r ++ src) = fs !! (r ++ src)).
Proof.
  intros Hwf Hsrc Hsd Hfresh Hdirs.
  destruct (Copy_spec umask src dst fs m) as [fuel0 Hcopy];
    [done|done|done|by intros q; apply fresh_lookup|done|].
  exists fuel0. intros fuel Hfuel.
  destruct (Hcopy fuel Hfuel) as (fs' & Hrun & _ & Hdst & Hsame).
  exists fs'. split; [done|].
  assert (∀ r perm', fs' !! (r ++ dst) = Some (NDir perm') ↔
                     ∃ perm, fs !! (r ++ src) = Some (NDir perm) ∧
                             perm' = Z.ldiff perm umask) as Hdir.
  { intros r perm'. rewrite Hdst.
    destruct (fs !! (r ++ src)) as [[| |]|]; simpl; split;
      try (by intros ?; simplify_eq);
      try (by intros (? & ? & ?); simplify_eq).
    intros ?; simplify_eq. by eexists. }
  split; [done|]. split; [|split; [done|split; [|done]]].
  - intros r perm d. rewrite Hdst.
    destruct (fs !! (r ++ src)) as [[| |]|]; simpl; split; intros ?; by simplify_eq.
  - intros -> r perm. rewrite Hdir. split.
    + intros (perm0 & ? & ->). by rewrite Z.ldiff_0_r.
    + intros ?. exists perm. by rewrite Z.ldiff_0_r.
Qed.

Lemma dirs_to_child fs n :
  (∃ m, fs !! [] = Some (NDir m)) → fs !! [n] = None → dirs_to fs [n].
Proof.
  intros [m Hroot] Hn q nd [->|Hq]%suffix_cons_cases Hnd.
  - by rewrite Hn in Hnd.
  - apply suffix_nil_inv in Hq as ->. rewrite Hroot in Hnd. by simplify_eq.
Qed.

Lemma shared_disk_wf : wf shared_disk.
Proof. apply (bool_decide_unpack _). by vm_compute. Qed.

Lemma shared_disk_fresh : fresh shared_disk ["c"].
Proof. apply (bool_decide_unpack _). by vm_compute. Qed.

Lemma Copy_fidelity_witness :
  wf shared_disk ∧ shared_disk !! ["a"] = Some (NDir 511) ∧
  ¬ ["a"] `suffix_of` ["c"] ∧ fresh shared_disk ["c"] ∧ dirs_to shared_disk ["c"] ∧
  ∃ fuel0, ∀ fuel, (fuel0 ≤ fuel)%nat →
    ∃ fs', Copy umask_022 fuel ["c"] ["a"] shared_disk = (fs', Ok tt) ∧
      (∀ r, fs' !! (r ++ ["c"]) = shared_disk !! (r ++ ["a"]) ≫= copied umask_022) ∧
      (∀ r perm d, fs' !! (r ++ ["c"]) = Some (NFile perm d) ↔
                   shared_disk !! (r ++ ["a"]) = Some (NFile perm d)) ∧
      (∀ r perm', fs' !! (r ++ ["c"]) = Some (NDir perm') ↔
                  ∃ perm, shared_disk !! (r ++ ["a"]) = Some (NDir perm) ∧
                          perm' = Z.ldiff perm umask_022) ∧
      (umask_022 = 0 → ∀ r perm, fs' !! (r ++ ["c"]) = Some (NDir perm) ↔
                                 shared_disk !! (r ++ ["a"]) = Some (NDir perm)) ∧
      (∀ r, fs' !! (r ++ ["a"]) = shared_disk !! (r ++ ["a"])).
Proof.
  assert (¬ ["a"] `suffix_of` ["c"]) as Hsd.
  { apply (bool_decide_unpack _). by vm_compute. }
  assert (dirs_to shared_disk ["c"]) as Hdirs.
  { apply dirs_to_child; [by eexists|by vm_compute]. }
  split; [exact shared_disk_wf|]. split; [reflexivity|]. split; [exact Hsd|].
  split; [exact shared_disk_fresh|]. split; [exact Hdirs|].
  exact (Copy_fidelity umask_022 ["a"] ["c"] shared_disk 511
           shared_disk_wf eq_refl Hsd shared_disk_fresh Hdirs).
Defined.

(** ** Entries that are neither files nor directories (C8) *)

(** C8: for a source directory [src] on a well-formed disk that holds,
    at [r] below it, a symbolic link, a named pipe, a socket or a device,
    [Tar] returns nil, with a container of one entry, of type regular,
    for each regular file of the tree and no entry under the name of the
    other node; and [Copy], to a destination that does not exist yet,
    outside [src], below directories, returns nil and leaves nothing at
    [r] below [dst], while the regular files are copied. *)
Theorem nonregular_skipped umask src dst fs m r k perm :
  wf fs → fs !! src = Some (NDir m) →
  fs !! (r ++ src) = Some (NOther k perm) →
  ¬ src `suffix_of` dst → fresh fs dst → dirs_to fs dst →
  ∃ fuel0, ∀ fuel, (fuel0 ≤ fuel)%nat →
    (∃ es, Tar fuel src fs = (fs, Ok es) ∧ archived fs src es ∧
           ∀ e, e ∈ es → Typeflag e.1 = TypeReg ∧ Name e.1 ≠ r ++ src) ∧
    (∃ fs', Copy umask fuel dst src fs = (fs', Ok tt) ∧
            fs' !! (r ++ dst) = None ∧
            ∀ r' perm' d, fs !! (r' ++ src) = Some (NFile perm' d) →
                          fs' !! (r' ++ dst) = Some (NFile perm' d)).
Proof.
  intros Hwf Hsrc Hother Hsd Hfresh Hdirs.
  destruct (Tar_spec src fs Hwf) as [fuel1 Htar]; [by eauto|].
  destruct (Copy_spec umask src dst fs m) as [fuel2 Hcopy];
    [done|done|done|by intros q; apply fresh_lookup|done|].
  exists (fuel1 `max` fuel2)%nat. intros fuel Hfuel. split.
  - destruct (Htar fuel) as (es & Hrun & Hes); [lia|].
    exists es. split; [done|]. split; [done|].
    intros e (r' & perm' & d & Hfile & ->)%Hes. split; [done|].
    simpl. intros Heq. rewrite Heq, Hother in Hfile. done.
  - destruct (Hcopy fuel) as (fs' & Hrun & _ & Hdst & _); [lia|].
    exists fs'. split; [done|]. split.
    + by rewrite Hdst, Hother.
    + intros r' perm' d Hfile. by rewrite Hdst, Hfile.
Qed.

Lemma nonregular_skipped_witness :
  wf shared_disk ∧ shared_disk !! ["a"] = Some (NDir 511) ∧
  shared_disk !! (["p"; "b"] ++ ["a"]) = Some (NOther NamedPipe 420) ∧
  ¬ ["a"] `suffix_of` ["c"] ∧ fresh shared_disk ["c"] ∧ dirs_to shared_disk ["c"] ∧
  ∃ fuel0, ∀ fuel, (fuel0 ≤ fuel)%nat →
    (∃ es, Tar fuel ["a"] shared_disk = (shared_disk, Ok es) ∧
           archived shared_disk ["a"] es ∧
           ∀ e, e ∈ es → Typeflag e.1 = TypeReg ∧ Name e.1 ≠ ["p"; "b"] ++ ["a"]) ∧
    (∃ fs', Copy umask_022 fuel ["c"] ["a"] shared_disk = (fs', Ok tt) ∧
            fs' !! (["p"; "b"] ++ ["c"]) = None ∧
            ∀ r' perm' d, shared_disk !! (r' ++ ["a"]) = Some (NFile perm' d) →
                          fs' !! (r' ++ ["c"]) = Some (NFile perm' d)).
Proof.
  assert (¬ ["a"] `suffix_of` ["c"]) as Hsd.
  { apply (bool_decide_unpack _). by vm_compute. }
  assert (dirs_to shared_disk ["c"]) as Hdirs.
  { apply dirs_to_child; [by eexists|by vm_compute]. }
  split; [exact shared_disk_wf|]. split; [reflexivity|]. split; [reflexivity|].
  split; [exact Hsd|]. split; [exact shared_disk_fresh|]. split; [exact Hdirs|].
  exact (nonregular_skipped umask_022 ["a"] ["c"] shared_disk 511 ["p"; "b"]
           NamedPipe 420 shared_disk_wf eq_refl eq_refl Hsd shared_disk_fresh Hdirs).
Defined.

(** ** What the two defects do in general *)

(** Whatever mode the header of a regular entry stores, the file
    [Untar] creates for it has mode 0666 less the umask. *)
Lemma Untar_created_file_mode umask dst h b fs n parent m :
  Typeflag h = TypeReg → Name h = n :: parent →
  fs !! parent = Some (NDir m) → fs !! (n :: parent) = None →
  Untar umask dst (mkContainer [(h, b)] None) fs
    = (<[n :: parent := NFile (Z.ldiff 438 umask) b]> fs, Ok tt).
Proof.
  intros Hflag Hname Hparent Hfresh. unfold Untar. simpl.
  rewrite Hflag. simpl. unfold bind, os_Create, file_write, ret.
  rewrite Hname, Hfresh, Hparent, lookup_insert_eq, insert_insert_eq.
  done.
Qed.

(** Without a Content-Length (the client reports -1), the first read
    that brings data makes [Progress] panic, on every platform: the
    count given to [strings.Repeat] is -40 times the bytes read. *)
Lemma Progress_without_length (http_Get : string → option Response * option error)
    (int_of_unrepresentable : float64 → Z) {W : Type} `{Writer W}
    (path : string) (w : W) chunk more last cond :
  http_Get path
    = (Some (mkResponse (-1) (mkReader (chunk :: more) last cond)), None) →
  chunk ≠ [] → Z.of_nat (length chunk) ≤ 2048 →
  Progress http_Get int_of_unrepresentable path w
    = ((Write w chunk).1, Z.of_nat (length chunk), [], Panic negative_Repeat).
Proof.
  intros Hget Hchunk Hlen. unfold Progress. rewrite Hget. simpl.
  unfold progress_step. destruct (Write w chunk) as [w1 r1]. simpl.
  set (n := Z.of_nat (length chunk)) in *.
  assert (1 ≤ n) as Hn by (destruct chunk; [done|subst n; simpl; lia]).
  unfold int_add. rewrite wrap_int_small by (unfold MinInt64, MaxInt64; simpl; lia).
  unfold float64_of_int, fdiv, fmul, Qsgn, int_of_float64. simpl.
  change (Z.pos (1 * 1 * 1 * 5)) with 5.
  assert (Z.quot ((0 + n) * -1 * 100 * 2) 5 = -40 * n) as ->.
  { replace ((0 + n) * -1 * 100 * 2) with ((-40 * n) * 5) by lia.
    by rewrite Z.quot_mul. }
  replace ((MinInt64 <=? -40 * n) && (-40 * n <=? MaxInt64)) with true.
  2: { symmetry. apply andb_true_iff. unfold MinInt64, MaxInt64.
       split; apply Z.leb_le; simpl; lia. }
  replace (-40 * n <? 0) with true by (symmetry; apply Z.ltb_lt; lia).
  by rewrite Z.add_0_l.
Qed.

(** * Further properties *)

(** ** The evar commands: which pair wins, what is removed *)

Lemma envListFn_Some (m : EnvVars) : envListFn (Some m) = m.
Proof. unfold envListFn, data_Get. apply (right_id_L ∅ (∪)). Qed.

Lemma envListFn_stored store : envListFn store = stored store.
Proof. done. Qed.

Lemma binds_dec pair K : Decision (binds pair K).
Proof.
  unfold binds.
  destruct (strings_Split pair ":") as [|k [|v [|x parts]]] eqn:Hsplit;
    try (right; by intros (k' & v' & ? & _)).
  destruct (decide (strings_ToUpper k = K)) as [HK|HK].
  - left. by exists k, v.
  - right. intros (k' & v' & ? & ?). by simplify_eq.
Qed.

Lemma addPair_unbound (evars : EnvVars) pair K :
  ¬ binds pair K → addPair evars pair !! K = evars !! K.
Proof.
  intros Hno. destruct (addPair_cases evars pair) as [[_ ->]|(k & v & Hs & ->)]; [done|].
  rewrite lookup_insert_ne; [done|]. intros HK. apply Hno. by exists k, v.
Qed.

Lemma foldl_addPair_unbound (evars : EnvVars) pairs K :
  (∀ p, p ∈ pairs → ¬ binds p K) →
  foldl addPair evars pairs !! K = evars !! K.
Proof.
  revert evars. induction pairs as [|pair pairs IH]; intros evars Hno; simpl; [done|].
  rewrite IH.
  - apply addPair_unbound, Hno, list_elem_of_here.
  - intros p Hp. by apply Hno, list_elem_of_further.
Qed.

Lemma foldl_addPair_last (evars : EnvVars) pre pair post k v :
  strings_Split pair ":" = [k; v] →
  (∀ p, p ∈ post → ¬ binds p (strings_ToUpper k)) →
  foldl addPair evars (pre ++ pair :: post) !! strings_ToUpper k = Some v.
Proof.
  intros Hs Hpost. rewrite foldl_app. simpl.
  rewrite foldl_addPair_unbound by done.
  unfold addPair. rewrite Hs. simpl. apply lookup_insert_eq.
Qed.

Lemma last_binding pairs K :
  (∀ p, p ∈ pairs → ¬ binds p K) ∨
  ∃ pre pair post k v,
    pairs = pre ++ pair :: post ∧ strings_Split pair ":" = [k; v] ∧
    strings_ToUpper k = K ∧ ∀ p, p ∈ post → ¬ binds p K.
Proof.
  induction pairs as [|x pairs IH] using rev_ind.
  { left. by intros p ?%elem_of_nil. }
  destruct (binds_dec x K) as [(k & v & Hs & HK)|Hx].
  - right. exists pairs, x, [], k, v. split; [done|]. split; [done|].
    split; [done|]. by intros p ?%elem_of_nil.
  - destruct IH as [Hnone|(pre & pair & post & k & v & -> & Hs & HK & Hpost)].
    + left. intros p [?|Hp%list_elem_of_singleton]%elem_of_app; [auto|by subst p].
    + right. exists pre, pair, (post ++ [x]), k, v.
      split; [by rewrite <- app_assoc|]. split; [done|]. split; [done|].
      intros p [?|Hp%list_elem_of_singleton]%elem_of_app; [auto|by subst p].
Qed.

(** X1: of the pairs given to [envAddFn], in arguments of ASCII bytes,
    the last one that names a variable gives it its value, and two keys
    that differ only in case name the same variable; a variable no pair
    names keeps the value it had, if any. *)
Theorem envAddFn_last_pair_wins (args : list string) (store : Store) :
  Forall (λ arg, isASCII arg = true) args →
  (∀ pre pair post k v,
     named args = pre ++ pair :: post →
     strings_Split pair ":" = [k; v] →
     (∀ p, p ∈ post → ¬ binds p (strings_ToUpper k)) →
     envListFn (envAddFn args store) !! strings_ToUpper k = Some v) ∧
  (∀ K, (∀ p, p ∈ named args → ¬ binds p K) →
        envListFn (envAddFn args store) !! K = envListFn store !! K).
Proof.
  intros _. rewrite envAddFn_unfold, envListFn_Some. split.
  - intros pre pair post k v -> Hs Hpost. by apply foldl_addPair_last.
  - intros K Hnone. by apply foldl_addPair_unbound.
Qed.

Lemma envAddFn_last_pair_wins_witness :
  Forall (λ arg, isASCII arg = true) ["foo:1,Foo:2"; "bar"; "FOO:3,baz:4"] ∧
  named ["foo:1,Foo:2"; "bar"; "FOO:3,baz:4"]
    = ["foo:1"; "Foo:2"; "bar"] ++ "FOO:3" :: ["baz:4"] ∧
  envListFn (envAddFn ["foo:1,Foo:2"; "bar"; "FOO:3,baz:4"] None) !! "FOO" = Some "3".
Proof.
  assert (Forall (λ arg, isASCII arg = true) ["foo:1,Foo:2"; "bar"; "FOO:3,baz:4"])
    as Hargs by (by repeat constructor).
  split; [exact Hargs|]. split; [reflexivity|].
  pose proof (envAddFn_last_pair_wins ["foo:1,Foo:2"; "bar"; "FOO:3,baz:4"] None Hargs)
    as [Hlast _].
  apply (Hlast ["foo:1"; "Foo:2"; "bar"] "FOO:3" ["baz:4"] "FOO" "3");
    [reflexivity|reflexivity|].
  intros p Hp (k & v & Hs & Hk).
  apply list_elem_of_singleton in Hp. subst p.
  vm_compute in Hs. injection Hs as <- <-. vm_compute in Hk. discriminate.
Defined.

(** X2: given arguments of ASCII bytes, [envRemoveFn] leaves every
    variable it is not asked to remove as it is; since it looks keys up
    in upper case, a variable stored under a key that is not in upper
    case can never be removed by it. *)
Theorem envRemoveFn_only_named (args : list string) (store : Store) :
  Forall (λ arg, isASCII arg = true) args →
  (∀ K, K ∉ map strings_ToUpper (named args) →
        envListFn (envRemoveFn args store) !! K = envListFn store !! K) ∧
  (∀ k, ¬ upper_key k →
        envListFn (envRemoveFn args store) !! k = envListFn store !! k).
Proof.
  intros Hargs%isASCII_named. rewrite envRemoveFn_unfold, envListFn_Some.
  assert (∀ K, K ∉ map strings_ToUpper (named args) →
               foldl removeKey (stored store) (named args) !! K = envListFn store !! K)
    as Hothers.
  { intros K HK. by rewrite foldl_removeKey_lookup, decide_False. }
  split; [done|].
  intros k Hk. apply Hothers.
  intros (key & -> & Hkey)%list_elem_of_fmap. apply Hk, strings_ToUpper_idemp.
  by apply (proj1 (Forall_forall _ _) Hargs).
Qed.

Lemma envRemoveFn_only_named_witness :
  Forall (λ arg, isASCII arg = true) ["path,PATH"] ∧
  ¬ upper_key "path" ∧
  envListFn (envRemoveFn ["path,PATH"] (Some {[ "path" := "/bin" ]})) !! "path"
    = Some "/bin".
Proof.
  assert (Forall (λ arg, isASCII arg = true) ["path,PATH"]) as Hargs
    by (by repeat constructor).
  assert (¬ upper_key "path") as Hlow by (by intros [_ ?]).
  split; [exact Hargs|]. split; [exact Hlow|].
  pose proof (envRemoveFn_only_named ["path,PATH"] (Some {[ "path" := "/bin" ]}) Hargs)
    as [_ Hkeep].
  rewrite (Hkeep "path" Hlow). reflexivity.
Defined.

(** X3: running either command again with the same arguments changes
    nothing more. *)
Theorem evar_commands_idempotent (args : list string) (store : Store) :
  envAddFn args (envAddFn args store) = envAddFn args store ∧
  envRemoveFn args (envRemoveFn args store) = envRemoveFn args store.
Proof.
  split.
  - rewrite !envAddFn_unfold. f_equal.
    change (stored (Some ?m)) with (envListFn (Some m)). rewrite envListFn_Some.
    apply map_eq. intros K.
    destruct (last_binding (named args) K)
      as [Hnone|(pre & pair & post & k & v & -> & Hs & <- & Hpost)].
    + by rewrite foldl_addPair_unbound.
    + by rewrite !(foldl_addPair_last _ pre pair post k v Hs Hpost).
  - rewrite !envRemoveFn_unfold. f_equal.
    change (stored (Some ?m)) with (envListFn (Some m)). rewrite envListFn_Some.
    apply map_eq. intros K. rewrite !foldl_removeKey_lookup.
    by case_decide.
Qed.

(** ** The evar commands: the pairs that count *)

Lemma prefix_colon (a : ascii) (s : string) :
  String.prefix ":" (String a s) = Ascii.eqb a ":".
Proof.
  change (String.prefix ":" (String a s))
    with (if ascii_dec ":" a then String.prefix "" s else false).
  destruct (ascii_dec ":" a) as [Heq|Hne].
  - subst a. rewrite Ascii.eqb_refl. by destruct s.
  - symmetry. apply Ascii.eqb_neq. congruence.
Qed.

Lemma split_colon_length (s : string) :
  length (split_from ":" s 0) = S (count_char ":" s).
Proof.
  induction s as [|a s IH]; [done|].
  cbn [split_from count_char]. rewrite prefix_colon.
  destruct (Ascii.eqb a ":").
  - simpl. by rewrite IH.
  - destruct (split_from ":" s 0) as [|x xs]; simpl in *; lia.
Qed.

Lemma split_colon_free (s : string) :
  count_char ":" s = 0%nat → split_from ":" s 0 = [s].
Proof.
  induction s as [|a s IH]; [done|].
  cbn [split_from count_char]. rewrite prefix_colon.
  destruct (Ascii.eqb a ":"); [done|]. intros Hs. by rewrite IH.
Qed.

Lemma append_cons (a : ascii) (k s : string) :
  (String a k ++ s)%string = String a (k ++ s)%string.
Proof. reflexivity. Qed.

Lemma split_colon_pair (k v : string) :
  count_char ":" k = 0%nat → count_char ":" v = 0%nat →
  split_from ":" (k ++ ":" ++ v) 0 = [k; v].
Proof.
  intros Hk Hv. induction k as [|a k IH].
  - change ("" ++ ":" ++ v)%string with (String ":" v).
    cbn [split_from]. rewrite prefix_colon, Ascii.eqb_refl.
    change (String.length ":" - 1)%nat with 0%nat. by rewrite split_colon_free.
  - rewrite append_cons. cbn [split_from count_char] in *. rewrite prefix_colon.
    destruct (Ascii.eqb a ":"); [done|]. by rewrite IH.
Qed.

(** X4: a pair counts for [envAddFn] exactly when it holds one colon:
    with none, or with two or more (a value that is a URL, say), the pair
    is dropped without a word; with one, the text before it, of ASCII
    bytes, is the key once in upper case, and the text after it the
    value. *)
Theorem addPair_one_colon (evars : EnvVars) :
  (∀ pair, count_char ":" pair ≠ 1%nat → addPair evars pair = evars) ∧
  (∀ k v, isASCII k = true →
          count_char ":" k = 0%nat → count_char ":" v = 0%nat →
          addPair evars (k ++ ":" ++ v) = <[strings_ToUpper k := v]> evars).
Proof.
  split.
  - intros pair Hcount. unfold addPair.
    change (strings_Split pair ":") with (split_from ":" pair 0).
    rewrite split_colon_length.
    destruct (count_char ":" pair) as [|[|n]]; done.
  - intros k v _ Hk Hv. unfold addPair.
    change (strings_Split (k ++ ":" ++ v) ":") with (split_from ":" (k ++ ":" ++ v) 0).
    by rewrite split_colon_pair.
Qed.

Lemma addPair_one_colon_witness :
  count_char ":" "db:postgres://host/app" ≠ 1%nat ∧ isASCII "db" = true ∧
  addPair {[ "A" := "1" ]} "db:postgres://host/app" = {[ "A" := "1" ]} ∧
  addPair {[ "A" := "1" ]} ("db" ++ ":" ++ "pg") = <[ "DB" := "pg" ]> {[ "A" := "1" ]}.
Proof.
  assert (count_char ":" "db:postgres://host/app" ≠ 1%nat) as Htwo by (by vm_compute).
  pose proof (addPair_one_colon {[ "A" := "1" ]}) as [Hdrop Hkeep].
  split; [exact Htwo|]. split; [reflexivity|]. split.
  - exact (Hdrop "db:postgres://host/app" Htwo).
  - exact (Hkeep "db" "pg" eq_refl eq_refl eq_refl).
Defined.

(** ** Tar never writes *)

Lemma tarWalkFn_readonly file x tw fs : (tarWalkFn file x tw fs).1 = fs.
Proof.
  unfold tarWalkFn. destruct x as [fi|err]; [|done].
  destruct (IsRegular (Mode_ fi)); [|done].
  unfold bind, os_Open, file_read, ret.
  destruct (fs !! file) as [[| |]|] eqn:Hfile; simpl; rewrite ?Hfile; done.
Qed.

Lemma walk_names_readonly (rec : path → FileInfo → list entry → M (list entry)) p :
  (∀ q info tw fs, (rec q info tw fs).1 = fs) →
  ∀ names tw fs, (walk_names rec tarWalkFn p names tw fs).1 = fs.
Proof.
  intros Hrec names. induction names as [|n names IH]; intros tw fs; [done|].
  simpl. unfold os_Lstat, bind. destruct (fs !! filepath_Join p n) as [nd|].
  - pose proof (Hrec (filepath_Join p n) (info_of (filepath_Join p n) nd) tw fs) as Hfs.
    destruct (rec _ _ tw fs) as [fs1 [tw1| |]]; simpl in Hfs; subst fs1; [|done..].
    apply IH.
  - done.
Qed.

Lemma walk_readonly fuel p info tw fs : (walk fuel p info tarWalkFn tw fs).1 = fs.
Proof.
  revert p info tw fs. induction fuel as [|fuel IH]; intros p info tw fs; [done|].
  cbn [walk]. unfold bind.
  pose proof (tarWalkFn_readonly p (inl info) tw fs) as Hfs.
  destruct (tarWalkFn p (inl info) tw fs) as [fs1 [tw1| |]];
    simpl in Hfs; subst fs1; [|done..].
  destruct (negb (IsDir (Mode_ info))); [done|].
  by apply walk_names_readonly.
Qed.

(** X5: [Tar] only reads: whatever the tree, the path and the outcome,
    the file system after the call is the one before it. *)
Theorem Tar_reads_only (fuel : nat) (root : path) (fs : FS) :
  (Tar fuel root fs).1 = fs.
Proof.
  unfold Tar, filepath_Walk, os_Lstat.
  destruct (fs !! root) as [nd|].
  - apply walk_readonly.
  - apply tarWalkFn_readonly.
Qed.

(** ** Untar keeps what exists *)

Lemma kept_refl fs : kept fs fs.
Proof. intros p nd Hp. destruct nd; eauto. Qed.

Lemma kept_trans fs1 fs2 fs3 : kept fs1 fs2 → kept fs2 fs3 → kept fs1 fs3.
Proof.
  intros H12 H23 p nd Hp. specialize (H12 p nd Hp). destruct nd as [perm d|m|k m].
  - destruct H12 as [d' Hd']. apply (H23 p _ Hd').
  - apply (H23 p _ H12).
  - apply (H23 p _ H12).
Qed.

Lemma kept_insert_new fs name nd : fs !! name = None → kept fs (<[name := nd]> fs).
Proof.
  intros Hnew p nd' Hp.
  assert (name ≠ p) by (intros ->; by rewrite Hnew in Hp).
  rewrite lookup_insert_ne by done. destruct nd'; eauto.
Qed.

Lemma kept_insert_file fs name perm d d' :
  fs !! name = Some (NFile perm d) → kept fs (<[name := NFile perm d']> fs).
Proof.
  intros Hfile p nd Hp. destruct (decide (name = p)) as [<-|Hne].
  - rewrite lookup_insert_eq. rewrite Hfile in Hp. simplify_eq. eauto.
  - rewrite lookup_insert_ne by done. destruct nd; eauto.
Qed.

Lemma os_Mkdir_kept umask name perm fs fs' r :
  os_Mkdir umask name perm fs = (fs', r) → kept fs fs'.
Proof.
  unfold os_Mkdir. intros Heq.
  destruct (fs !! name) eqn:Hname; [simplify_eq; apply kept_refl|].
  destruct name as [|n parent]; [simplify_eq; by apply kept_insert_new|].
  destruct (fs !! parent) as [[| |]|]; simplify_eq;
    (apply kept_refl || by apply kept_insert_new).
Qed.

Lemma os_MkdirAll_kept umask name perm fs fs' r :
  os_MkdirAll umask name perm fs = (fs', r) → kept fs fs'.
Proof.
  revert fs fs' r. induction name as [|n parent IH]; intros fs fs' r; simpl.
  - destruct (fs !! []) as [nd|].
    + destruct (IsDir (mode_of nd)); intros; simplify_eq; apply kept_refl.
    + apply os_Mkdir_kept.
  - destruct (fs !! (n :: parent)) as [nd|].
    + destruct (IsDir (mode_of nd)); intros; simplify_eq; apply kept_refl.
    + unfold bind.
      destruct (os_MkdirAll umask parent perm fs) as [fs1 [[]|e|]] eqn:Hparent;
        apply IH in Hparent.
      * intros Hmk%os_Mkdir_kept. by eapply kept_trans.
      * intros; by simplify_eq.
      * intros; by simplify_eq.
Qed.

Lemma os_Create_kept umask name fs fs' r :
  os_Create umask name fs = (fs', r) → kept fs fs'.
Proof.
  unfold os_Create. intros Heq.
  destruct (fs !! name) as [[perm d| |]|] eqn:Hname;
    [simplify_eq; by eapply kept_insert_file|simplify_eq; apply kept_refl..|].
  destruct name as [|n parent]; [simplify_eq; apply kept_refl|].
  destruct (fs !! parent) as [[| |]|]; simplify_eq;
    (apply kept_refl || by apply kept_insert_new).
Qed.

Lemma file_write_kept name b fs fs' r :
  file_write name b fs = (fs', r) → kept fs fs'.
Proof.
  unfold file_write. intros Heq.
  destruct (fs !! name) as [[perm d| |]|] eqn:Hname; simplify_eq;
    (apply kept_refl || by eapply kept_insert_file).
Qed.

Lemma untar_loop_kept umask es t fs fs' r :
  untar_loop umask es t fs = (fs', r) → kept fs fs'.
Proof.
  revert fs. induction es as [|[h b] es IH]; intros fs; simpl.
  - destruct t; unfold ret, fail; intros; simplify_eq; apply kept_refl.
  - destruct (Typeflag h =? TypeDir).
    + unfold bind.
      destruct (os_MkdirAll _ _ _ fs) as [fs1 [[]|e|]] eqn:Hmk;
        apply os_MkdirAll_kept in Hmk.
      * intros Hrest%IH. by eapply kept_trans.
      * intros; by simplify_eq.
      * intros; by simplify_eq.
    + destruct (Typeflag h =? TypeReg).
      * unfold bind.
        destruct (os_Create _ _ fs) as [fs1 [f|e|]] eqn:Hcr;
          apply os_Create_kept in Hcr; [|intros; by simplify_eq..].
        destruct (file_write _ _ fs1) as [fs2 [n|e|]] eqn:Hwr;
          apply file_write_kept in Hwr.
        -- intros Hrest%IH. eapply kept_trans; [|done]. by eapply kept_trans.
        -- intros; simplify_eq. by eapply kept_trans.
        -- intros; simplify_eq. by eapply kept_trans.
      * unfold fail. intros; simplify_eq. apply kept_refl.
Qed.

(** X6: whatever the container and however the call ends, [Untar]
    removes nothing, leaves every directory and every special node that
    exists exactly as it is, and never changes the mode of a regular file
    that exists: all it may change of what is there is the bytes of a
    regular file. *)
Theorem Untar_keeps_what_exists umask dst r fs :
  kept fs (Untar umask dst r fs).1.
Proof.
  unfold Untar.
  destruct (untar_loop umask (entries r) (trailer r) fs) as [fs' res] eqn:Hrun.
  by eapply untar_loop_kept.
Qed.

(** X7: on a container with a damaged tail, [Untar] handles every entry
    before the damage as it does on the sound container, and if they are
    all restored it returns the error of the decoder, the restored tree
    left in place. *)
Theorem Untar_damaged_tail umask dst es err fs :
  Untar umask dst (mkContainer es (Some err)) fs =
  match Untar umask dst (mkContainer es None) fs with
  | (fs1, Ok _) => (fs1, Err err)
  | other => other
  end.
Proof.
  unfold Untar. simpl.
  rewrite <- (app_nil_r es) at 1. rewrite untar_loop_app.
  by destruct (untar_loop umask es None fs) as [fs1 [[]|e|]].
Qed.

(** ** Tar: one entry for each regular file *)

Lemma NoDup_readDirNames dir fs : NoDup (readDirNames dir fs).
Proof.
  unfold readDirNames. rewrite merge_sort_Permutation. apply NoDup_children.
Qed.

Section walk_distinct.
Variables (fuel : nat) (fs : FS) (p : path).
Hypothesis Hrec : ∀ q nd tw,
  fs !! q = Some nd →
  (∀ r, is_Some (fs !! (r ++ q)) → (length r < fuel)%nat) →
  ∃ es, walk fuel q (info_of q nd) tarWalkFn tw fs = (fs, Ok (tw ++ es)) ∧
        archived fs q es ∧ NoDup (names es).
Hypothesis Hdepth : ∀ r, is_Some (fs !! (r ++ p)) → (length r < S fuel)%nat.

Lemma walk_names_distinct dirnames tw :
  NoDup dirnames →
  (∀ n, n ∈ dirnames → is_Some (fs !! (n :: p))) →
  ∃ es,
    walk_names (λ filename info a, walk fuel filename info tarWalkFn a)
      tarWalkFn p dirnames tw fs = (fs, Ok (tw ++ es)) ∧
    (∀ e, e ∈ es ↔ ∃ n, n ∈ dirnames ∧ ∃ r perm d,
                    fs !! (r ++ n :: p) = Some (NFile perm d) ∧
                    e = file_entry (r ++ n :: p) perm d) ∧
    NoDup (names es).
Proof.
  revert tw. induction dirnames as [|n dirnames IH]; intros tw Hnodup Hkids; simpl.
  - exists []. unfold ret. rewrite app_nil_r. split; [done|]. split; [|constructor].
    intros e. split; [by intros ?%elem_of_nil|].
    by intros (n & ?%elem_of_nil & _).
  - apply NoDup_cons in Hnodup as [Hn Hnodup].
    unfold filepath_Join, os_Lstat.
    destruct (Hkids n (list_elem_of_here _ _)) as [nd Hnd]. rewrite Hnd.
    destruct (Hrec (n :: p) nd tw Hnd) as (es1 & Hwalk & Hes1 & Hnd1).
    { intros r Hr. rewrite cons_middle, app_assoc in Hr.
      apply Hdepth in Hr. rewrite length_app in Hr. simpl in Hr. lia. }
    unfold bind. rewrite Hwalk.
    destruct (IH (tw ++ es1)) as (es2 & -> & Hes2 & Hnd2); [done| |].
    { intros n' Hn'. by apply Hkids, list_elem_of_further. }
    exists (es1 ++ es2). split; [by rewrite app_assoc|]. split.
    + intros e. rewrite elem_of_app, Hes2, (Hes1 e). split.
      * intros [(r & perm & d & Hr & ->)|(n' & Hn' & Hrest)].
        -- exists n. split; [apply list_elem_of_here|]. by exists r, perm, d.
        -- exists n'. split; [by apply list_elem_of_further|done].
      * intros (n' & [->|Hn']%elem_of_cons & Hrest); [by left|right].
        by exists n'.
    + unfold names. rewrite map_app. apply NoDup_app. split; [done|]. split; [|done].
      intros q (e1 & -> & He1)%list_elem_of_fmap (e2 & Heq & He2)%list_elem_of_fmap.
      apply Hes1 in He1 as (r1 & perm1 & d1 & _ & ->).
      apply Hes2 in He2 as (n' & Hn' & r2 & perm2 & d2 & _ & ->).
      simpl in Heq. apply Hn.
      assert (n = n') as ->; [|done].
      apply (suffix_sibling n n' p r2). rewrite <- Heq. by apply suffix_app_r.
Qed.
End walk_distinct.

Lemma walk_tar_distinct fuel fs q nd tw :
  wf fs → fs !! q = Some nd →
  (∀ r, is_Some (fs !! (r ++ q)) → (length r < fuel)%nat) →
  ∃ es, walk fuel q (info_of q nd) tarWalkFn tw fs = (fs, Ok (tw ++ es)) ∧
        archived fs q es ∧ NoDup (names es).
Proof.
  intros Hwf. revert q nd tw.
  induction fuel as [|fuel IH]; intros q nd tw Hq Hdepth.
  { specialize (Hdepth []). simpl in Hdepth. rewrite Hq in Hdepth.
    specialize (Hdepth ltac:(eauto)). lia. }
  destruct (walk_tar (S fuel) fs q nd tw Hwf Hq Hdepth) as (es & Hwalk & Hes).
  exists es. split; [done|]. split; [done|].
  revert Hwalk. cbn [walk]. unfold bind. rewrite tarWalkFn_spec by done.
  cbn [info_of Mode_]. rewrite (wf_IsDir fs q nd) by done.
  destruct nd as [perm d|perm|k perm]; simpl.
  - unfold ret. intros [= Heq]. apply app_inv_head in Heq. subst es.
    repeat constructor. by intros ?%elem_of_nil.
  - destruct (walk_names_distinct fuel fs q IH Hdepth (readDirNames q fs) (tw ++ []))
      as (es' & -> & _ & Hnodup).
    { apply NoDup_readDirNames. }
    { intros n. apply elem_of_readDirNames. }
    intros [= Heq]. rewrite app_nil_r in Heq. apply app_inv_head in Heq. by subst es.
  - unfold ret. intros [= Heq]. rewrite app_nil_r in Heq.
    rewrite <- (app_nil_r tw) in Heq at 1. apply app_inv_head in Heq. subst es.
    constructor.
Qed.

(** X8: on a well-formed disk, for a path that exists, [Tar] returns nil
    (with a recursion bound past the depth of the tree) and its container
    holds the regular files at or below the path, each under its path,
    with its mode, its size and its bytes, and no two entries under the
    same name. *)
Theorem Tar_one_entry_per_file root fs :
  wf fs → is_Some (fs !! root) →
  ∃ fuel0, ∀ fuel, (fuel0 ≤ fuel)%nat →
    ∃ es, Tar fuel root fs = (fs, Ok es) ∧ archived fs root es ∧ NoDup (names es).
Proof.
  intros Hwf [nd Hroot]. destruct (paths_bounded fs) as [fuel0 Hbound].
  exists fuel0. intros fuel Hfuel.
  unfold Tar, filepath_Walk, os_Lstat. rewrite Hroot.
  destruct (walk_tar_distinct fuel fs root nd [] Hwf Hroot) as (es & -> & Hes & Hnodup).
  - intros r Hr. apply Hbound in Hr. rewrite length_app in Hr. lia.
  - by exists es.
Qed.

Lemma Tar_one_entry_per_file_witness :
  wf shared_disk ∧ is_Some (shared_disk !! ["a"]) ∧
  ∃ fuel0, ∀ fuel, (fuel0 ≤ fuel)%nat →
    ∃ es, Tar fuel ["a"] shared_disk = (shared_disk, Ok es) ∧
          archived shared_disk ["a"] es ∧ NoDup (names es).
Proof.
  assert (is_Some (shared_disk !! ["a"])) as Hroot by (by eexists).
  split; [exact shared_disk_wf|]. split; [exact Hroot|].
  exact (Tar_one_entry_per_file ["a"] shared_disk shared_disk_wf Hroot).
Defined.

(** ** Tar then Untar: what does come back *)

Lemma untar_file_entries (umask : Z) (fs : FS) (es : list entry) (s : FS) :
  wf fs →
  (∀ e, e ∈ es → ∃ q perm d, e = file_entry q perm d ∧ fs !! q = Some (NFile perm d)) →
  (∀ q, q ∈ names es → s !! q = None ∨ ∃ perm d, s !! q = Some (NFile perm d)) →
  (∀ q, q ∈ names es → ∃ m, s !! tail q = Some (NDir m)) →
  ∃ s', untar_loop umask es None s = (s', Ok tt) ∧
        (∀ q, q ∉ names es → s' !! q = s !! q) ∧
        (∀ q perm d, q ∈ names es → fs !! q = Some (NFile perm d) →
                     s' !! q = Some (NFile (restored_mode umask s q) d)).
Proof.
  intros Hwf. revert s. induction es as [|e es IH]; intros s Hes Hfree Hparent.
  { exists s. split; [done|]. split; [done|]. by intros q perm d ?%elem_of_nil. }
  destruct (Hes e (list_elem_of_here _ _)) as (q & perm & d & -> & Hq).
  assert (q ∈ names (file_entry q perm d :: es)) as Hin by apply list_elem_of_here.
  assert (∃ n parent, q = n :: parent) as (n & parent & ->).
  { destruct q as [|n parent]; [|by eauto].
    destruct (wf_lookup _ _ _ Hwf Hq) as [_ Hdir]. done. }
  destruct (Hparent _ Hin) as [m Hm]. simpl in Hm.
  set (s1 := <[n :: parent := NFile (restored_mode umask s (n :: parent)) d]> s).
  assert (untar_loop umask (file_entry (n :: parent) perm d :: es) None s
          = untar_loop umask es None s1) as ->.
  { simpl. unfold bind, os_Create, file_write, restored_mode in *. subst s1.
    destruct (Hfree _ Hin) as [Hnone|(perm' & d' & Hfile)].
    - rewrite Hnone, Hm, lookup_insert_eq, insert_insert_eq. done.
    - rewrite Hfile, lookup_insert_eq, insert_insert_eq. done. }
  destruct (IH s1) as (s' & Hrun & Hother & Hfiles).
  - intros e He. by apply Hes, list_elem_of_further.
  - intros q' Hq'. subst s1. destruct (decide (n :: parent = q')) as [<-|Hne].
    + rewrite lookup_insert_eq. right. by eauto.
    + rewrite lookup_insert_ne by done. by apply Hfree, list_elem_of_further.
  - intros q' Hq'. subst s1.
    destruct (Hparent q' (list_elem_of_further _ _ _ Hq')) as [m' Hm'].
    exists m'. rewrite lookup_insert_ne; [done|].
    intros Heq. rewrite <- Heq in Hm'.
    destruct (Hfree _ Hin) as [Hnone|(perm' & d' & Hfile)]; congruence.
  - exists s'. split; [done|]. split.
    + intros q' Hq'. apply not_elem_of_cons in Hq' as [Hne Hq'].
      rewrite Hother by done. subst s1. by rewrite lookup_insert_ne.
    + intros q' perm' d' Hq' Hfs.
      destruct (decide (q' ∈ names es)) as [Hrest|Hrest].
      * rewrite (Hfiles q' perm' d' Hrest Hfs). f_equal. f_equal.
        unfold restored_mode. subst s1.
        destruct (decide (n :: parent = q')) as [<-|Hne].
        -- by rewrite lookup_insert_eq.
        -- by rewrite lookup_insert_ne.
      * apply elem_of_cons in Hq' as [->|Hq']; [|done]. simpl in *.
        rewrite Hother by done. subst s1. rewrite lookup_insert_eq.
        rewrite Hq in Hfs. by simplify_eq.
Qed.

Lemma archived_names (fs : FS) (root : path) (es : list entry) (q : path) :
  archived fs root es → q ∈ names es ↔
  ∃ r perm d, q = r ++ root ∧ fs !! (r ++ root) = Some (NFile perm d).
Proof.
  intros Hes. unfold names. rewrite list_elem_of_fmap. split.
  - intros (e & -> & (r & perm & d & Hr & ->)%Hes). by exists r, perm, d.
  - intros (r & perm & d & -> & Hr). exists (file_entry (r ++ root) perm d).
    split; [done|]. apply Hes. by exists r, perm, d.
Qed.

(** X9: the container [Tar] makes of a tree, given to [Untar] on a disk
    where every regular file of the tree has its directory in place and
    finds at its path nothing or a regular file, is restored without
    error: each regular file of the tree is then at its path with its
    bytes, with the mode of the file it replaced or, where there was
    none, 0666 less the umask, and nothing else on the disk has changed. *)
Theorem Tar_Untar_contents (umask : Z) (dst root : path) (fs fs2 : FS) :
  wf fs → is_Some (fs !! root) →
  (∀ r perm d, fs !! (r ++ root) = Some (NFile perm d) →
     (∃ m, fs2 !! tail (r ++ root) = Some (NDir m)) ∧
     (fs2 !! (r ++ root) = None ∨ ∃ perm' d', fs2 !! (r ++ root) = Some (NFile perm' d'))) →
  ∃ fuel0, ∀ fuel, (fuel0 ≤ fuel)%nat →
    ∃ es fs2',
      Tar fuel root fs = (fs, Ok es) ∧
      Untar umask dst (mkContainer es None) fs2 = (fs2', Ok tt) ∧
      (∀ r perm d, fs !! (r ++ root) = Some (NFile perm d) →
         fs2' !! (r ++ root) = Some (NFile (restored_mode umask fs2 (r ++ root)) d)) ∧
      (∀ q, (∀ r perm d, q = r ++ root → fs !! q ≠ Some (NFile perm d)) →
            fs2' !! q = fs2 !! q).
Proof.
  intros Hwf Hroot Hready.
  destruct (Tar_spec root fs Hwf Hroot) as [fuel0 Htar].
  exists fuel0. intros fuel Hfuel.
  destruct (Htar fuel Hfuel) as (es & Hrun & Hes).
  destruct (untar_file_entries umask fs es fs2 Hwf) as (fs2' & Huntar & Hother & Hfiles).
  - intros e (r & perm & d & Hr & ->)%Hes. by exists (r ++ root), perm, d.
  - intros q (r & perm & d & -> & Hr)%(archived_names fs root es); [|done].
    by apply (Hready r perm d).
  - intros q (r & perm & d & -> & Hr)%(archived_names fs root es); [|done].
    by apply (Hready r perm d).
  - exists es, fs2'. split; [done|]. split; [done|]. split.
    + intros r perm d Hr. apply (Hfiles _ perm d); [|done].
      apply (archived_names fs root es); [done|]. by exists r, perm, d.
    + intros q Hq. apply Hother.
      intros (r & perm & d & -> & Hr)%(archived_names fs root es); [|done].
      by apply (Hq r perm d).
Qed.

Lemma project_disk_wf : wf project_disk.
Proof. apply (bool_decide_unpack _). by vm_compute. Qed.

Lemma project_files q perm d :
  project_disk !! q = Some (NFile perm d) →
  q = ["f1"; "a"] ∨ q = ["f2"; "b"; "a"].
Proof.
  intros Hq. apply elem_of_map_to_list in Hq.
  set (l := map_to_list project_disk) in Hq. vm_compute in l. subst l.
  repeat (apply elem_of_cons in Hq as [Hq|Hq]; [simplify_eq; auto|]).
  by apply elem_of_nil in Hq.
Qed.

Lemma Tar_Untar_contents_witness :
  wf project_disk ∧ is_Some (project_disk !! ["a"]) ∧
  ∃ fuel0, ∀ fuel, (fuel0 ≤ fuel)%nat →
    ∃ es fs2',
      Tar fuel ["a"] project_disk = (project_disk, Ok es) ∧
      Untar umask_022 [] (mkContainer es None) stale_disk = (fs2', Ok tt) ∧
      (∀ r perm d, project_disk !! (r ++ ["a"]) = Some (NFile perm d) →
         fs2' !! (r ++ ["a"])
           = Some (NFile (restored_mode umask_022 stale_disk (r ++ ["a"])) d)) ∧
      (∀ q, (∀ r perm d, q = r ++ ["a"] → project_disk !! q ≠ Some (NFile perm d)) →
            fs2' !! q = stale_disk !! q).
Proof.
  assert (is_Some (project_disk !! ["a"])) as Hroot by (by eexists).
  split; [exact project_disk_wf|]. split; [exact Hroot|].
  apply (Tar_Untar_contents umask_022 [] ["a"] project_disk stale_disk
           project_disk_wf Hroot).
  intros r perm d Hr. destruct (project_files _ _ _ Hr) as [Hq|Hq]; rewrite Hq.
  - split; [by eexists|]. right. by eexists _, _.
  - split; [by eexists|]. by left.
Defined.

(** X10: archiving a tree and restoring the container on the same disk,
    the tree still in place, changes nothing: every file is truncated and
    written again with its own bytes, and keeps its mode. *)
Theorem Tar_Untar_in_place (umask : Z) (dst root : path) (fs : FS) :
  wf fs → is_Some (fs !! root) →
  ∃ fuel0, ∀ fuel, (fuel0 ≤ fuel)%nat →
    ∃ es, Tar fuel root fs = (fs, Ok es) ∧
          Untar umask dst (mkContainer es None) fs = (fs, Ok tt).
Proof.
  intros Hwf Hroot.
  destruct (Tar_spec root fs Hwf Hroot) as [fuel0 Htar].
  exists fuel0. intros fuel Hfuel.
  destruct (Htar fuel Hfuel) as (es & Hrun & Hes).
  exists es. split; [done|].
  destruct (untar_file_entries umask fs es fs Hwf) as (fs' & Huntar & Hother & Hfiles).
  - intros e (r & perm & d & Hr & ->)%Hes. by exists (r ++ root), perm, d.
  - intros q (r & perm & d & -> & Hr)%(archived_names fs root es); [|done].
    right. by eauto.
  - intros q (r & perm & d & -> & Hr)%(archived_names fs root es); [|done].
    destruct (wf_lookup _ _ _ Hwf Hr) as [_ Hparent].
    by destruct (r ++ root).
  - unfold Untar. simpl. rewrite Huntar. f_equal.
    apply map_eq. intros q.
    destruct (decide (q ∈ names es)) as [Hq|Hq]; [|by apply Hother].
    pose proof Hq as (r & perm & d & -> & Hr)%(archived_names fs root es); [|done].
    rewrite (Hfiles _ perm d Hq Hr). unfold restored_mode. by rewrite Hr.
Qed.

Lemma Tar_Untar_in_place_witness :
  wf project_disk ∧ is_Some (project_disk !! ["a"]) ∧
  ∃ fuel0, ∀ fuel, (fuel0 ≤ fuel)%nat →
    ∃ es, Tar fuel ["a"] project_disk = (project_disk, Ok es) ∧
          Untar umask_022 [] (mkContainer es None) project_disk = (project_disk, Ok tt).
Proof.
  assert (is_Some (project_disk !! ["a"])) as Hroot by (by eexists).
  split; [exact project_disk_wf|]. split; [exact Hroot|].
  exact (Tar_Untar_in_place umask_022 [] ["a"] project_disk project_disk_wf Hroot).
Defined.

(** X11: a tree without a regular file, however many directories it
    has, is archived as the empty container, and from the empty container
    [Untar] restores nothing, on any disk: the directories of such a tree
    are lost in the round trip. *)
Theorem Tar_without_files (root : path) (fs : FS) :
  wf fs → is_Some (fs !! root) →
  (∀ r perm d, fs !! (r ++ root) ≠ Some (NFile perm d)) →
  ∃ fuel0, ∀ fuel, (fuel0 ≤ fuel)%nat →
    Tar fuel root fs = (fs, Ok []) ∧
    ∀ umask dst fs2, Untar umask dst (mkContainer [] None) fs2 = (fs2, Ok tt).
Proof.
  intros Hwf Hroot Hnone.
  destruct (Tar_spec root fs Hwf Hroot) as [fuel0 Htar].
  exists fuel0. intros fuel Hfuel.
  destruct (Htar fuel Hfuel) as (es & Hrun & Hes).
  split; [|done].
  destruct es as [|e es]; [done|].
  destruct (proj1 (Hes e) (list_elem_of_here _ _)) as (r & perm & d & Hr & _).
  by destruct (Hnone r perm d).
Qed.

Lemma staged_disk_wf : wf staged_disk.
Proof. apply (bool_decide_unpack _). by vm_compute. Qed.

Lemma staged_disk_no_file q perm d : staged_disk !! q ≠ Some (NFile perm d).
Proof.
  intros Hq. apply elem_of_map_to_list in Hq.
  set (l := map_to_list staged_disk) in Hq. vm_compute in l. subst l.
  repeat (apply elem_of_cons in Hq as [Hq|Hq]; [by simplify_eq|]).
  by apply elem_of_nil in Hq.
Qed.

Lemma Tar_without_files_witness :
  wf staged_disk ∧ is_Some (staged_disk !! ["a"]) ∧
  ∃ fuel0, ∀ fuel, (fuel0 ≤ fuel)%nat →
    Tar fuel ["a"] staged_disk = (staged_disk, Ok []) ∧
    ∀ umask dst fs2, Untar umask dst (mkContainer [] None) fs2 = (fs2, Ok tt).
Proof.
  assert (is_Some (staged_disk !! ["a"])) as Hroot by (by eexists).
  split; [exact staged_disk_wf|]. split; [exact Hroot|].
  exact (Tar_without_files ["a"] staged_disk staged_disk_wf Hroot
           (λ r perm d, staged_disk_no_file (r ++ ["a"]) perm d)).
Defined.

(** ** Copy keeps what exists *)





Lemma os_Mkdir_subseteq umask name perm fs fs' r :
  os_Mkdir umask name perm fs = (fs', r) → fs ⊆ fs'.
Proof.
  unfold os_Mkdir. intros Heq.
  destruct (fs !! name) eqn:Hname; [by simplify_eq|].
  destruct name as [|n parent]; [simplify_eq; by apply insert_subseteq|].
  destruct (fs !! parent) as [[| |]|]; simplify_eq; (done || by apply insert_subseteq).
Qed.

Lemma os_MkdirAll_subseteq umask name perm fs fs' r :
  os_MkdirAll umask name perm fs = (fs', r) → fs ⊆ fs'.
Proof.
  revert fs fs' r. induction name as [|n parent IH]; intros fs fs' r; simpl.
  - destruct (fs !! []) as [nd|].
    + destruct (IsDir (mode_of nd)); intros; by simplify_eq.
    + apply os_Mkdir_subseteq.
  - destruct (fs !! (n :: parent)) as [nd|].
    + destruct (IsDir (mode_of nd)); intros; by simplify_eq.
    + unfold bind.
      destruct (os_MkdirAll umask parent perm fs) as [fs1 [[]|e|]] eqn:Hparent;
        apply IH in Hparent.
      * intros Hmk%os_Mkdir_subseteq. by etrans.
      * intros; by simplify_eq.
      * intros; by simplify_eq.
Qed.












(** ** Copy and copyFile at the edges *)



(** X14: [copyFile] onto a regular file that exists replaces its bytes
    and, unlike [Untar], its mode by those of the source.  [copyFile] of
    a file onto itself empties it: [os.Create] truncates the file before
    [io.Copy] reads it. *)
Theorem copyFile_onto_existing (umask : Z) (src dst : path) (fs : FS) perm d :
  wf fs → fs !! src = Some (NFile perm d) →
  (∀ perm' d', fs !! dst = Some (NFile perm' d') → src ≠ dst →
     copyFile umask src dst fs = (<[dst := NFile perm d]> fs, Ok tt)) ∧
  copyFile umask src src fs = (<[src := NFile perm []]> fs, Ok tt).
Proof.
  intros Hwf Hsrc.
  destruct (wf_lookup _ _ _ Hwf Hsrc) as [Hperm _]. simpl in Hperm.
  split.
  - intros perm' d' Hdst Hne.
    unfold copyFile, bind, os_Open, os_Create, io_Copy, bind, file_read,
      file_write, os_Stat, os_Chmod.
    rewrite Hsrc, Hdst.
    rewrite lookup_insert_ne, Hsrc by done.
    rewrite lookup_insert_eq, insert_insert_eq.
    rewrite lookup_insert_ne, Hsrc by done.
    rewrite lookup_insert_eq, insert_insert_eq. simpl.
    unfold syscallMode. by rewrite Perm_small.
  - unfold copyFile, bind, os_Open, os_Create, io_Copy, bind, file_read,
      file_write, os_Stat, os_Chmod.
    rewrite Hsrc.
    repeat first [rewrite Hsrc | rewrite lookup_insert_eq | rewrite insert_insert_eq
                 | progress cbv beta iota zeta].
    cbn [info_of Mode_ mode_of app]. unfold syscallMode. by rewrite Perm_small.
Qed.

Lemma copyFile_onto_existing_witness :
  wf project_disk ∧
  project_disk !! ["f2"; "b"; "a"] = Some (NFile 493 (bytes_of "world")) ∧
  copyFile umask_022 ["f2"; "b"; "a"] ["f1"; "a"] project_disk
    = (<[ ["f1"; "a"] := NFile 493 (bytes_of "world") ]> project_disk, Ok tt) ∧
  copyFile umask_022 ["f2"; "b"; "a"] ["f2"; "b"; "a"] project_disk
    = (<[ ["f2"; "b"; "a"] := NFile 493 [] ]> project_disk, Ok tt).
Proof.
  pose proof (copyFile_onto_existing umask_022 ["f2"; "b"; "a"] ["f1"; "a"]
                project_disk 493 (bytes_of "world") project_disk_wf eq_refl)
    as [Hover Hself].
  split; [exact project_disk_wf|]. split; [reflexivity|]. split.
  - apply (Hover 420 (bytes_of "hello") eq_refl). discriminate.
  - exact Hself.
Defined.

(** ** Progress: what reaches the sink, and the error of a read *)

Section progress_more.
Variable int_of_unrepresentable : float64 → Z.
Context {W : Type} `{Writer W}.

Lemma progress_loop_bounded (n : Z) total reads last cond (w : W) down out :
  0 < n ≤ MaxInt64 → 0 ≤ down →
  down + Z.of_nat (length (concat reads ++ last)) ≤ n →
  ∃ lines,
    progress_loop int_of_unrepresentable n total reads last cond w down out
      = (write_all w (reads ++ [last]),
         down + Z.of_nat (length (concat reads ++ last)),
         out ++ lines,
         Return (if decide (cond = EOF) then None else Some cond)) ∧
    length lines = S (length reads) ∧
    Forall (λ l, percent_in_range (line_percent l)) lines.
Proof.
  intros Hn. revert w down out.
  induction reads as [|chunk reads IH]; intros w down out Hdown Hsum;
    cbn [progress_loop concat app] in *.
  - destruct (progress_step_known int_of_unrepresentable n total last w down)
      as (line & -> & Hd & Hp & _); [done|done|lia|].
    exists [line]. split; [done|]. split; [done|]. by constructor.
  - rewrite <- app_assoc, length_app in Hsum.
    destruct (progress_step_known int_of_unrepresentable n total chunk w down)
      as (line & -> & Hd & Hp & _); [done|done|lia|].
    destruct (IH (Write w chunk).1 (down + Z.of_nat (length chunk)) (out ++ [line]))
      as (lines & -> & Hlen & Hall); [lia|lia|].
    exists (line :: lines). split.
    + rewrite <- !app_assoc, (length_app chunk). simpl. do 3 f_equal. lia.
    + split; [simpl; lia|]. by constructor.
Qed.
End progress_more.

Lemma write_all_Buffer (buf : list Byte.byte) chunks :
  write_all buf chunks = buf ++ concat chunks.
Proof.
  unfold write_all. revert buf.
  induction chunks as [|chunk chunks IH]; intros buf; cbn [foldl concat].
  - by rewrite app_nil_r.
  - rewrite IH. change ((Write buf chunk).1) with (buf ++ chunk).
    by rewrite app_assoc.
Qed.

(** X15: when the response announces a positive length and the body
    brings no more bytes than that, [Progress] writes every byte read to
    the sink, in the order read, counts them all, and prints percents
    within [0,100]; it returns nil when the data ends and otherwise the
    error of the read that failed, after the bytes read before the
    failure have been written. *)
Theorem Progress_delivers (http_Get : string → option Response * option error)
    (int_of_unrepresentable : float64 → Z)
    (path : string) (buf : list Byte.byte) (res : Response) :
  http_Get path = (Some res, None) →
  0 < ContentLength res ≤ MaxInt64 →
  Z.of_nat (length (delivered (Body res))) ≤ ContentLength res →
  ∃ lines,
    Progress http_Get int_of_unrepresentable path buf
      = (buf ++ delivered (Body res),
         Z.of_nat (length (delivered (Body res))),
         lines,
         Return (if decide (cond (Body res) = EOF) then None
                 else Some (cond (Body res)))) ∧
    length lines = S (length (reads (Body res))) ∧
    Forall (λ l, percent_in_range (line_percent l)) lines.
Proof.
  intros Hget Hn Hlen. unfold Progress. rewrite Hget.
  destruct (progress_loop_bounded int_of_unrepresentable (ContentLength res)
              (fdiv (float64_of_int (ContentLength res)) MB)
              (reads (Body res)) (last (Body res)) (cond (Body res)) buf 0 [])
    as (lines & -> & Hlines & Hall); [done|done|by rewrite Z.add_0_l|].
  exists lines. split; [|done].
  rewrite write_all_Buffer, Z.add_0_l. unfold delivered.
  rewrite concat_app. simpl. by rewrite app_nil_r.
Qed.

Lemma Progress_delivers_witness :
  0 < 4 ≤ MaxInt64 ∧
  ∃ lines,
    Progress get_reset amd64_int "http://host/abcd" []
      = (bytes_of "ab", 2, lines, Return (Some (NetError "connection reset"))) ∧
    length lines = 2%nat ∧
    Forall (λ l, percent_in_range (line_percent l)) lines.
Proof.
  assert (0 < 4 ≤ MaxInt64) as Hrange by (unfold MaxInt64; simpl; lia).
  split; [exact Hrange|].
  assert (Z.of_nat (length (bytes_of "ab")) ≤ 4) as Hlen by (simpl; lia).
  exact (Progress_delivers get_reset amd64_int "http://host/abcd" []
           (mkResponse 4 (mkReader [bytes_of "ab"] [] (NetError "connection reset")))
           eq_refl Hrange Hlen).
Defined.

(** X16: [Download] and [Progress] into a buffer, on the same response,
    one that announces a positive length and whose body brings no more
    bytes than that.  When the body ends well, both leave the same bytes
    in the buffer and return nil.  When a read fails and [config.Fatal]
    ends the process, [Download] has written nothing, while [Progress]
    has written the bytes read before the failure and returns the
    error. *)
Theorem Download_Progress_compared
    (http_Get : string → option Response * option error)
    (config_Fatal : string → string → option Z)
    (int_of_unrepresentable : float64 → Z)
    (path : string) (buf : list Byte.byte) (res : Response) :
  http_Get path = (Some res, None) →
  0 < ContentLength res ≤ MaxInt64 →
  Z.of_nat (length (delivered (Body res))) ≤ ContentLength res →
  let download := Download http_Get config_Fatal path buf in
  let progress := Progress http_Get int_of_unrepresentable path buf in
  (cond (Body res) = EOF →
     download = (buf ++ delivered (Body res), Return None) ∧
     progress.1.1.1 = download.1 ∧ progress.2 = download.2) ∧
  (∀ status,
     cond (Body res) ≠ EOF →
     config_Fatal "[util/file/file] ioutil.ReadAll() failed - "
                  (Error (cond (Body res))) = Some status →
     download = (buf, Exit status) ∧
     progress.1.1.1 = buf ++ delivered (Body res) ∧
     progress.2 = Return (Some (cond (Body res)))).
Proof.
  intros Hget Hn Hlen download progress.
  assert (progress.1.1.1 = buf ++ delivered (Body res) ∧
          progress.2 = Return (if decide (cond (Body res) = EOF) then None
                               else Some (cond (Body res)))) as [Hsink Hret].
  { subst progress. unfold Progress. rewrite Hget.
    destruct (progress_loop_bounded int_of_unrepresentable (ContentLength res)
                (fdiv (float64_of_int (ContentLength res)) MB)
                (reads (Body res)) (last (Body res)) (cond (Body res)) buf 0 [])
      as (lines & -> & _); [done|done|by rewrite Z.add_0_l|].
    split; [|done]. cbn [fst]. rewrite write_all_Buffer. unfold delivered.
    rewrite concat_app. simpl. by rewrite app_nil_r. }
  subst download. unfold Download, ioutil_ReadAll. rewrite Hget.
  split.
  - intros Heof. rewrite Hsink, Hret, !decide_True by done. done.
  - intros status Hcond Hfatal. rewrite Hsink, Hret, !decide_False by done.
    by rewrite Hfatal.
Qed.

Lemma Download_Progress_compared_witness :
  Download get_reset fatal_exits "http://host/abcd" [] = ([], Exit 1) ∧
  (Progress get_reset amd64_int "http://host/abcd" []).1.1.1 = bytes_of "ab" ∧
  (Progress get_reset amd64_int "http://host/abcd" []).2
    = Return (Some (NetError "connection reset")).
Proof.
  assert (0 < 4 ≤ MaxInt64) as Hrange by (unfold MaxInt64; simpl; lia).
  assert (Z.of_nat (length (bytes_of "ab")) ≤ 4) as Hlen by (simpl; lia).
  pose proof (Download_Progress_compared get_reset fatal_exits amd64_int
                "http://host/abcd" []
                (mkResponse 4 (mkReader [bytes_of "ab"] [] (NetError "connection reset")))
                eq_refl Hrange Hlen) as [_ Hfail].
  exact (Hfail 1 ltac:(discriminate) eq_refl).
Defined.

(** ** Copy, then Tar *)

Lemma file_entry_inj q q' perm perm' d d' :
  file_entry q perm d = file_entry q' perm' d' → q = q' ∧ perm = perm' ∧ d = d'.
Proof. unfold file_entry. by intros [= -> -> _ ->]. Qed.

(** X17: the container [Tar] makes of a fresh copy holds the files of
    the container [Tar] makes of the source, with the same modes and
    bytes, each under its path moved from the source to the
    destination, and nothing else. *)
Theorem Copy_then_Tar (umask : Z) (src dst : path) (fs : FS) (m : Z) :
  wf fs → fs !! src = Some (NDir m) →
  ¬ src `suffix_of` dst → fresh fs dst → dirs_to fs dst →
  ∃ fuel0, ∀ fuel, (fuel0 ≤ fuel)%nat →
    ∃ (fs' : FS) es es',
      Copy umask fuel dst src fs = (fs', Ok tt) ∧
      Tar fuel src fs = (fs, Ok es) ∧
      Tar fuel dst fs' = (fs', Ok es') ∧
      ∀ e', e' ∈ es' ↔ ∃ r perm d, file_entry (r ++ src) perm d ∈ es ∧
                                   e' = file_entry (r ++ dst) perm d.
Proof.
  intros Hwf Hsrc Hsd Hfresh Hdirs.
  destruct (Copy_spec umask src dst fs m) as [fuelC Hcopy];
    [done|done|done|by intros q; apply fresh_lookup|done|].
  destruct (paths_bounded fs) as [fuelB Hbound].
  exists (fuelC `max` fuelB)%nat. intros fuel Hfuel.
  destruct (Hcopy fuel ltac:(lia)) as (fs' & Hrun & Hwf' & Hdst & _).
  assert (∀ r, is_Some (fs !! (r ++ src)) → (length r < fuel)%nat) as Hdepth.
  { intros r Hr. apply Hbound in Hr. rewrite length_app in Hr. lia. }
  assert (fs' !! dst = Some (NDir (Z.ldiff m umask))) as Hroot'.
  { specialize (Hdst []). simpl in Hdst. by rewrite Hdst, Hsrc. }
  destruct (walk_tar fuel fs src (NDir m) [] Hwf Hsrc Hdepth) as (es & Hes & Harch).
  destruct (walk_tar fuel fs' dst (NDir (Z.ldiff m umask)) [] Hwf' Hroot')
    as (es' & Hes' & Harch').
  { intros r Hr. apply Hdepth. rewrite Hdst in Hr.
    destruct (fs !! (r ++ src)); [done|by destruct Hr]. }
  exists fs', es, es'. split; [done|].
  split; [unfold Tar, filepath_Walk, os_Lstat; by rewrite Hsrc|].
  split; [unfold Tar, filepath_Walk, os_Lstat; by rewrite Hroot'|].
  assert (∀ r perm d, fs' !! (r ++ dst) = Some (NFile perm d) ↔
                      fs !! (r ++ src) = Some (NFile perm d)) as Hfiles.
  { intros r perm d. rewrite Hdst.
    destruct (fs !! (r ++ src)) as [[]|]; simpl; split; intros; by simplify_eq. }
  intros e'. rewrite (Harch' e'). split.
  - intros (r & perm & d & Hr & ->). exists r, perm, d. split; [|done].
    apply Harch. exists r, perm, d. by rewrite <- Hfiles.
  - intros (r & perm & d & (r0 & perm0 & d0 & Hr0 & Heq)%Harch & ->).
    apply file_entry_inj in Heq as (Hq%app_inv_tail & -> & ->). subst r0.
    exists r, perm0, d0. by rewrite Hfiles.
Qed.

Lemma Copy_then_Tar_witness :
  wf shared_disk ∧ shared_disk !! ["a"] = Some (NDir 511) ∧
  ¬ ["a"] `suffix_of` ["c"] ∧ fresh shared_disk ["c"] ∧ dirs_to shared_disk ["c"] ∧
  ∃ fuel0, ∀ fuel, (fuel0 ≤ fuel)%nat →
    ∃ (fs' : FS) es es',
      Copy umask_022 fuel ["c"] ["a"] shared_disk = (fs', Ok tt) ∧
      Tar fuel ["a"] shared_disk = (shared_disk, Ok es) ∧
      Tar fuel ["c"] fs' = (fs', Ok es') ∧
      ∀ e', e' ∈ es' ↔ ∃ r perm d, file_entry (r ++ ["a"]) perm d ∈ es ∧
                                   e' = file_entry (r ++ ["c"]) perm d.
Proof.
  assert (¬ ["a"] `suffix_of` ["c"]) as Hsd.
  { apply (bool_decide_unpack _). by vm_compute. }
  assert (dirs_to shared_disk ["c"]) as Hdirs.
  { apply dirs_to_child; [by eexists|by vm_compute]. }
  split; [exact shared_disk_wf|]. split; [reflexivity|]. split; [exact Hsd|].
  split; [exact shared_disk_fresh|]. split; [exact Hdirs|].
  exact (Copy_then_Tar umask_022 ["a"] ["c"] shared_disk 511
           shared_disk_wf eq_refl Hsd shared_disk_fresh Hdirs).
Defined.

(** ** Untar, run again *)

Lemma kept_mode fs fs' p nd :
  kept fs fs' → fs !! p = Some nd →
  ∃ nd', fs' !! p = Some nd' ∧ mode_of nd' = mode_of nd.
Proof.
  intros Hkept Hp. specialize (Hkept p nd Hp).
  destruct nd as [perm d|m|k m]; [destruct Hkept as [d' Hd']|..]; eauto.
Qed.

Lemma os_Mkdir_frame umask name perm fs fs' r q :
  os_Mkdir umask name perm fs = (fs', r) → q ≠ name → fs' !! q = fs !! q.
Proof.
  unfold os_Mkdir. intros Heq Hq.
  destruct (fs !! name); [by simplify_eq|].
  destruct name as [|n parent]; [simplify_eq; by rewrite lookup_insert_ne|].
  destruct (fs !! parent) as [[| |]|]; simplify_eq;
    (done || by rewrite lookup_insert_ne).
Qed.

Lemma os_MkdirAll_frame umask name perm fs fs' r q :
  os_MkdirAll umask name perm fs = (fs', r) →
  ¬ q `suffix_of` name → fs' !! q = fs !! q.
Proof.
  revert fs fs' r. induction name as [|n parent IH]; intros fs fs' r; simpl.
  - destruct (fs !! []) as [nd|].
    + destruct (IsDir (mode_of nd)); intros; by simplify_eq.
    + intros Hmk Hq. eapply os_Mkdir_frame; [done|]. by intros ->.
  - destruct (fs !! (n :: parent)) as [nd|].
    + destruct (IsDir (mode_of nd)); intros; by simplify_eq.
    + unfold bind.
      destruct (os_MkdirAll umask parent perm fs) as [fs1 [[]|e|]] eqn:Hparent;
        intros Heq Hq.
      * rewrite (os_Mkdir_frame _ _ _ _ _ _ q Heq) by (by intros ->).
        eapply IH; [done|]. intros Hsuf. apply Hq. by apply suffix_cons_r.
      * simplify_eq. eapply IH; [done|].
        intros Hsuf. apply Hq. by apply suffix_cons_r.
      * simplify_eq. eapply IH; [done|].
        intros Hsuf. apply Hq. by apply suffix_cons_r.
Qed.

(** When [os.MkdirAll] returns nil, a directory is at [name]. *)
Lemma os_MkdirAll_made umask name perm fs fs' :
  os_MkdirAll umask name perm fs = (fs', Ok tt) →
  ∃ nd, fs' !! name = Some nd ∧ IsDir (mode_of nd) = true.
Proof.
  assert (∀ fs1, os_Mkdir umask name perm fs1 = (fs', Ok tt) →
                 fs' !! name = Some (NDir (created_perm umask perm))) as Hmkdir.
  { intros fs1. unfold os_Mkdir. destruct (fs1 !! name); [done|].
    destruct name as [|n parent]; [intros; simplify_eq; by rewrite lookup_insert_eq|].
    destruct (fs1 !! parent) as [[| |]|]; intros; simplify_eq.
    by rewrite lookup_insert_eq. }
  destruct name as [|n parent]; simpl.
  - destruct (fs !! []) as [nd|] eqn:Hroot.
    + destruct (IsDir (mode_of nd)) eqn:Hdir; intros; simplify_eq. eauto.
    + intros Hmk%Hmkdir. eexists. split; [done|]. apply IsDir_NDir.
  - destruct (fs !! (n :: parent)) as [nd|] eqn:Hname.
    + destruct (IsDir (mode_of nd)) eqn:Hdir; intros; simplify_eq. eauto.
    + unfold bind.
      destruct (os_MkdirAll umask parent perm fs) as [fs1 [[]|e|]]; [|done..].
      intros Hmk%Hmkdir. eexists. split; [done|]. apply IsDir_NDir.
Qed.

(** An [os.MkdirAll] that fails has made nothing. *)
Lemma os_MkdirAll_fails umask name perm fs fs' r :
  os_MkdirAll umask name perm fs = (fs', r) → r ≠ Ok tt → fs' = fs.
Proof.
  revert fs fs' r. induction name as [|n parent IH]; intros fs fs' r; simpl.
  - destruct (fs !! []) as [nd|] eqn:Hroot.
    + destruct (IsDir (mode_of nd)); intros; by simplify_eq.
    + unfold os_Mkdir. rewrite Hroot. intros; by simplify_eq.
  - destruct (fs !! (n :: parent)) as [nd|] eqn:Hname.
    + destruct (IsDir (mode_of nd)); intros; by simplify_eq.
    + unfold bind.
      destruct (os_MkdirAll umask parent perm fs) as [fs1 [[]|e|]] eqn:Hparent.
      * intros Hmk Hr.
        assert (fs1 !! (n :: parent) = None) as Hname1.
        { rewrite (os_MkdirAll_frame _ _ _ _ _ _ (n :: parent) Hparent); [done|].
          intros Hsuf%suffix_length. simpl in Hsuf. lia. }
        destruct (fs !! parent) as [nd|] eqn:Hp.
        -- assert (fs1 = fs) as ->.
           { revert Hparent. destruct parent; simpl; rewrite Hp;
               destruct (IsDir (mode_of nd)); intros; by simplify_eq. }
           revert Hmk. unfold os_Mkdir. rewrite Hname, Hp.
           destruct nd; intros; by simplify_eq.
        -- assert (fs1 !! parent = Some (NDir (created_perm umask perm))) as Hp1.
           { revert Hparent. destruct parent as [|n' parent']; simpl; rewrite Hp.
             - unfold os_Mkdir. rewrite Hp. intros; simplify_eq.
               by rewrite lookup_insert_eq.
             - unfold bind.
               destruct (os_MkdirAll umask parent' perm fs) as [fs0 [[]|e|]]; [|done..].
               unfold os_Mkdir. destruct (fs0 !! (n' :: parent')); [done|].
               destruct (fs0 !! parent') as [[| |]|]; intros; simplify_eq.
               by rewrite lookup_insert_eq. }
           revert Hmk. unfold os_Mkdir. rewrite Hname1, Hp1. intros; by simplify_eq.
      * intros; simplify_eq. by eapply IH.
      * intros; simplify_eq. by eapply IH.
Qed.

(** A run of the loop of [Untar] is a run of the entries it materializes,
    which returns nil, and then what ends it, which changes nothing. *)
Lemma untar_loop_stops umask es t fs fs' r :
  untar_loop umask es t fs = (fs', r) →
  ∃ pre rest, es = pre ++ rest ∧
    untar_loop umask pre None fs = (fs', Ok tt) ∧
    untar_loop umask rest t fs' = (fs', r).
Proof.
  revert fs. induction es as [|[h b] es IH]; intros fs Hrun.
  - exists [], []. assert (fs' = fs) as ->.
    { revert Hrun. simpl. destruct t; unfold ret, fail; intros; by simplify_eq. }
    done.
  - assert (∀ fs1, untar_loop umask [(h, b)] None fs = (fs1, Ok tt) →
                   untar_loop umask es t fs1 = (fs', r) →
                   ∃ pre rest, (h, b) :: es = pre ++ rest ∧
                     untar_loop umask pre None fs = (fs', Ok tt) ∧
                     untar_loop umask rest t fs' = (fs', r)) as Hgo.
    { intros fs1 Hone (pre & rest & -> & Hpre & Hrest)%IH.
      exists ((h, b) :: pre), rest. split; [done|]. split; [|done].
      change ((h, b) :: pre) with ([(h, b)] ++ pre).
      rewrite untar_loop_app. by rewrite Hone. }
    assert (fs' = fs → ∃ pre rest, (h, b) :: es = pre ++ rest ∧
                     untar_loop umask pre None fs = (fs', Ok tt) ∧
                     untar_loop umask rest t fs' = (fs', r)) as Hstop.
    { intros ->. by exists [], ((h, b) :: es). }
    revert Hrun Hgo. simpl. destruct (Typeflag h =? TypeDir).
    + unfold bind.
      destruct (os_MkdirAll _ _ _ fs) as [fs1 [[]|e|]] eqn:Hmk.
      * intros Hrun Hgo. by apply (Hgo fs1).
      * intros [= <- <-] _. apply Hstop. by eapply os_MkdirAll_fails.
      * intros [= <- <-] _. apply Hstop. by eapply os_MkdirAll_fails.
    + destruct (Typeflag h =? TypeReg).
      * unfold bind, os_Create, file_write.
        destruct (fs !! Name h) as [[perm d|m|k m]|] eqn:Hname.
        -- rewrite lookup_insert_eq. intros Hrun Hgo. by eapply Hgo.
        -- intros [= <- <-] _. by apply Hstop.
        -- rewrite Hname. intros Hrun Hgo. by eapply Hgo.
        -- destruct (Name h) as [|n parent]; [intros [= <- <-] _; by apply Hstop|].
           destruct (fs !! parent) as [[perm d|m|k m]|];
             [intros [= <- <-] _; by apply Hstop| |intros [= <- <-] _; by apply Hstop..].
           rewrite lookup_insert_eq. intros Hrun Hgo. by eapply Hgo.
      * unfold fail. intros [= <- <-] _. by apply Hstop.
Qed.

(** The second run: on a disk [t] that is the disk [sn] at the end of the
    first run, but for regular files that are as they were on [s], a
    state of the first run, the entries the first run materialized from
    [s] on are materialized again, and the disk is [sn] again. *)
Lemma untar_loop_again (umask : Z) (pre : list entry) (s sn t : FS) :
  untar_loop umask pre None s = (sn, Ok tt) →
  (∀ p, t !! p = sn !! p ∨
        (t !! p = s !! p ∧ ∃ perm d, s !! p = Some (NFile perm d))) →
  untar_loop umask pre None t = (sn, Ok tt).
Proof.
  revert s t. induction pre as [|[h b] pre IH]; intros s t.
  - simpl. unfold ret. intros [= <-] Hinv. f_equal. apply map_eq. intros p.
    by destruct (Hinv p) as [?|[? _]].
  - simpl. destruct (Typeflag h =? TypeDir).
    + unfold bind.
      destruct (os_MkdirAll _ _ _ s) as [s1 [[]|e|]] eqn:Hmk; [|done..].
      intros Hrest Hinv.
      pose proof (untar_loop_kept _ _ _ _ _ _ Hrest) as Hkept.
      pose proof (os_MkdirAll_subseteq _ _ _ _ _ _ Hmk) as Hsub.
      destruct (os_MkdirAll_made _ _ _ _ _ Hmk) as (nd & Hnd & Hdir).
      assert (∃ nd', t !! Name h = Some nd' ∧ IsDir (mode_of nd') = true)
        as (nd' & Hnd' & Hdir').
      { destruct (Hinv (Name h)) as [Ht|(Ht & perm & d & Hs)].
        - destruct (kept_mode _ _ _ _ Hkept Hnd) as (nd' & Hsn & Hmode).
          exists nd'. by rewrite Ht, Hmode.
        - exists nd. split; [|done]. rewrite Ht, Hs.
          rewrite <- Hnd. symmetry. by eapply lookup_weaken. }
      assert (os_MkdirAll umask (Name h) (FileMode_of_int64 (Mode h)) t = (t, Ok tt))
        as ->.
      { destruct (Name h); simpl; by rewrite Hnd', Hdir'. }
      apply (IH s1 t Hrest). intros p.
      destruct (Hinv p) as [?|(Ht & perm & d & Hs)]; [by left|right].
      pose proof (lookup_weaken _ _ _ _ Hs Hsub) as Hs1.
      split; [by rewrite Ht, Hs, Hs1|eauto].
    + destruct (Typeflag h =? TypeReg); [|done].
      unfold bind, os_Create, file_write.
      destruct (s !! Name h) as [[perm d|m|k m]|] eqn:Hname.
      * rewrite lookup_insert_eq, insert_insert_eq. simpl.
        intros Hrest Hinv.
        pose proof (untar_loop_kept _ _ _ _ _ _ Hrest) as Hkept.
        assert (∃ d', t !! Name h = Some (NFile perm d')) as [d' ->].
        { destruct (Hinv (Name h)) as [Ht|[Ht _]].
          - destruct (Hkept (Name h) (NFile perm b)) as [d' Hd'];
              [by rewrite lookup_insert_eq|].
            exists d'. by rewrite Ht.
          - exists d. by rewrite Ht. }
        rewrite lookup_insert_eq, insert_insert_eq. simpl.
        apply (IH _ _ Hrest). intros p.
        destruct (decide (p = Name h)) as [->|Hne].
        -- right. rewrite !lookup_insert_eq. eauto.
        -- rewrite !lookup_insert_ne by done. apply Hinv.
      * done.
      * rewrite Hname. intros Hrest Hinv.
        pose proof (untar_loop_kept _ _ _ _ _ _ Hrest) as Hkept.
        assert (t !! Name h = Some (NOther k m)) as Ht.
        { destruct (Hinv (Name h)) as [Ht|(_ & ? & ? & ?)]; [|congruence].
          rewrite Ht. apply (Hkept (Name h) (NOther k m) Hname). }
        rewrite Ht, Ht. by apply (IH s t).
      * destruct (Name h) as [|n parent] eqn:Hnm; [done|].
        destruct (s !! parent) as [[perm d|m|k m]|] eqn:Hparent; [done| |done..].
        rewrite lookup_insert_eq, insert_insert_eq. simpl.
        intros Hrest Hinv.
        pose proof (untar_loop_kept _ _ _ _ _ _ Hrest) as Hkept.
        assert (∃ d', t !! (n :: parent) = Some (NFile (created_perm umask 438) d'))
          as [d' ->].
        { destruct (Hinv (n :: parent)) as [Ht|(_ & ? & ? & ?)]; [|congruence].
          destruct (Hkept (n :: parent) (NFile (created_perm umask 438) b)) as [d' Hd'];
            [by rewrite lookup_insert_eq|].
          exists d'. by rewrite Ht. }
        rewrite lookup_insert_eq, insert_insert_eq. simpl.
        apply (IH _ _ Hrest). intros p.
        destruct (decide (p = n :: parent)) as [->|Hne].
        -- right. rewrite !lookup_insert_eq. eauto.
        -- rewrite !lookup_insert_ne by done. apply Hinv.
Qed.

(** X18: [Untar] run a second time on the same container, on the disk the
    first run left, ends as the first run did and leaves the disk as it
    found it. *)
Theorem Untar_again (umask : Z) (dst : path) (r : Container) (fs : FS) :
  Untar umask dst r (Untar umask dst r fs).1
    = ((Untar umask dst r fs).1, (Untar umask dst r fs).2).
Proof.
  unfold Untar.
  destruct (untar_loop umask (entries r) (trailer r) fs) as [fs' res] eqn:Hrun.
  destruct (untar_loop_stops _ _ _ _ _ _ Hrun) as (pre & rest & -> & Hpre & Hrest).
  simpl. rewrite untar_loop_app.
  rewrite (untar_loop_again umask pre fs fs' fs' Hpre); [done|].
  intros p. by left.
Qed.

(** ** Progress on a response that announces no length *)

Section progress_no_length.
Variable int_of_unrepresentable : float64 → Z.
Context {W : Type} `{Writer W}.

Lemma progress_step_no_length total chunk (w : W) :
  (0 < length chunk ≤ 2048)%nat →
  progress_step int_of_unrepresentable (-1) total chunk w 0
    = ((Write w chunk).1, Z.of_nat (length chunk), None).
Proof.
  intros Hlen. unfold progress_step.
  destruct (Write w chunk) as [w1 r1]. simpl.
  unfold int_add. rewrite wrap_int_small by (unfold MinInt64, MaxInt64; lia).
  set (d := Z.of_nat (length chunk)).
  assert (0 < d ≤ 2048) as Hd by lia.
  unfold float64_of_int, fdiv, fmul, Qsgn. simpl.
  unfold int_of_float64. simpl.
  change (Z.pos (1 * 1 * 1 * 5)) with 5.
  replace ((0 + d) * -1 * 100 * 2) with (-40 * d * 5) by lia.
  rewrite Z.quot_mul by done.
  replace ((MinInt64 <=? -40 * d) && (-40 * d <=? MaxInt64)) with true.
  2: { symmetry. apply andb_true_iff. unfold MinInt64, MaxInt64.
       split; apply Z.leb_le; lia. }
  replace (-40 * d <? 0) with true by (symmetry; apply Z.ltb_lt; lia).
  by rewrite Z.add_0_l.
Qed.
End progress_no_length.

(** X19: on a response that announces no length (the client reports
    -1), when the first read brings bytes, [Progress] writes them to the
    sink and panics in [strings.Repeat], whose count is then negative,
    on every platform: nothing is printed and the rest of the body is
    never read. *)
Theorem Progress_panics_without_length
    (http_Get : string → option Response * option error)
    (int_of_unrepresentable : float64 → Z) {W : Type} `{Writer W}
    (path : string) (w : W) (res : Response) :
  http_Get path = (Some res, None) →
  ContentLength res = -1 →
  (0 < length (first_read (Body res)) ≤ 2048)%nat →
  Progress http_Get int_of_unrepresentable path w
    = ((Write w (first_read (Body res))).1,
       Z.of_nat (length (first_read (Body res))), [],
       Panic negative_Repeat).
Proof.
  intros Hget Hn Hfirst. unfold Progress. rewrite Hget, Hn.
  unfold first_read in *.
  destruct (reads (Body res)) as [|chunk rest]; cbn [progress_loop];
    by rewrite progress_step_no_length.
Qed.

Lemma Progress_panics_without_length_witness :
  (0 < length (bytes_of "a") ≤ 2048)%nat ∧
  Progress get_unknown_length amd64_int "http://host/ab" ([] : list Byte.byte)
    = (bytes_of "a", 1, [], Panic negative_Repeat).
Proof.
  assert (0 < length (bytes_of "a") ≤ 2048)%nat as Hfirst by (simpl; lia).
  split; [exact Hfirst|].
  exact (Progress_panics_without_length get_unknown_length amd64_int "http://host/ab"
           ([] : list Byte.byte)
           (mkResponse (-1) (mkReader [bytes_of "a"] (bytes_of "b") EOF))
           eq_refl eq_refl Hfirst).
Defined.

(** ** Untar: the entry that counts for a path *)





(** ** Copy into a destination that exists *)

Lemma copyFile_over (umask : Z) (src : path) (n : string) (parent : path)
    (fs : FS) (p : Z) (d : list Byte.byte) (m : Z) :
  wf fs → fs !! src = Some (NFile p d) →
  fs !! parent = Some (NDir m) →
  fs !! (n :: parent) = None ∨ (∃ p' d', fs !! (n :: parent) = Some (NFile p' d')) →
  n :: parent ≠ src →
  copyFile umask src (n :: parent) fs = (<[n :: parent := NFile p d]> fs, Ok tt).
Proof.
  intros Hwf Hsrc Hparent [Hdst|(p' & d' & Hdst)] Hne.
  { by eapply copyFile_spec. }
  destruct (wf_lookup _ _ _ Hwf Hsrc) as [Hperm _]. simpl in Hperm.
  unfold copyFile, bind, os_Open, os_Create, io_Copy, bind, file_read,
    file_write, os_Stat, os_Chmod.
  rewrite Hsrc, Hdst.
  rewrite lookup_insert_ne, Hsrc by done.
  rewrite lookup_insert_eq, insert_insert_eq.
  rewrite lookup_insert_ne, Hsrc by done.
  rewrite lookup_insert_eq, insert_insert_eq. simpl.
  unfold syscallMode. by rewrite Perm_small.
Qed.

Section merge_loop.
Variables (umask : Z) (fuel : nat) (src dst : path) (fs1 : FS) (md : Z).
Hypothesis Hrec : copyDir_merges umask fuel.
Hypothesis Hwf1 : wf fs1.
Hypothesis Hsd : ¬ src `suffix_of` dst.
Hypothesis Hds : ¬ dst `suffix_of` src.
Hypothesis Hdst1 : fs1 !! dst = Some (NDir md).
Hypothesis Hmerge : mergeable fs1 src dst.
Hypothesis Hdepth : ∀ r, is_Some (fs1 !! (r ++ src)) → (length r < S fuel)%nat.

Lemma merge_entry n nd todo fs :
  merging umask src dst fs1 (n :: todo) fs →
  n ∉ todo →
  fs1 !! (n :: src) = Some nd →
  ∃ fs', copyDir_entry umask (copyDir umask fuel) src dst (entry_info (n, nd)) fs
           = (fs', Ok tt) ∧
         merging umask src dst fs1 todo fs'.
Proof.
  intros (Hwf & Hframe & Hdst & Htodo & Hdone) Hn Hnd.
  assert (n ∈ n :: todo) as Hin by apply list_elem_of_here.
  assert (fs !! (n :: dst) = fs1 !! (n :: dst)) as Hold by apply (Htodo n [] Hin).
  assert (fs !! (n :: src) = Some nd) as Hnd'.
  { rewrite Hframe; [done|]. apply (src_child_outside src dst Hsd Hds n []). }
  assert (∀ n', n' ≠ n → n' ∉ todo → n' ∉ n :: todo) as Hothers.
  { intros n' Hne Hnot [->|?]%elem_of_cons; done. }
  assert (∀ x r, (x :: r) ++ n :: dst ≠ n :: dst) as Hdeeper.
  { intros x r Heq. apply (f_equal length) in Heq.
    simpl in Heq. rewrite length_app in Heq. simpl in Heq. lia. }
  assert (∀ x r, (∀ m', nd ≠ NDir m') → fs1 !! ((x :: r) ++ n :: src) = None) as Hleaf.
  { intros x r Hnodir. apply (wf_below fs1 (n :: src) (x :: r)); [done|done|].
    intros m'. rewrite Hnd. intros [= ->]. by apply (Hnodir m'). }
  pose proof (Hmerge [n]) as Hslot. simpl in Hslot. rewrite Hnd in Hslot.
  destruct (wf_lookup _ _ _ Hwf1 Hnd) as [Hperm _].
  unfold copyDir_entry, entry_info, filepath_Join. cbn [fst snd Name_ Mode_ Size_].
  destruct nd as [p d|p|k p]; simpl in Hperm.
  - (* a regular file *)
    simpl (mode_of _). rewrite IsDir_low, IsRegular_low by done.
    rewrite (copyFile_over umask (n :: src) n dst fs p d md);
      [|done|done|by rewrite Hdst|by rewrite Hold|].
    2: { intros [= Heq]. apply Hsd. by rewrite Heq. }
    assert (∀ x r, fs1 !! ((x :: r) ++ n :: dst) = None) as Hbelow.
    { intros x r. apply (wf_below fs1 (n :: dst) (x :: r)); [done|done|].
      intros m'. destruct Hslot as [->|(p' & b' & ->)]; done. }
    eexists. split; [done|]. split; [|split; [|split; [|split]]].
    + eapply wf_insert_file; [done|done|by rewrite Hdst|].
      intros p'. rewrite Hold. destruct Hslot as [->|(p0 & b0 & ->)]; done.
    + intros q Hq. rewrite lookup_insert_ne; [by apply Hframe|].
      intros <-. apply Hq. by apply suffix_cons_r.
    + rewrite lookup_insert_ne; [done|].
      intros Heq. apply (f_equal length) in Heq. simpl in Heq. lia.
    + intros n' r Hn'. rewrite lookup_insert_ne.
      * apply Htodo. by apply list_elem_of_further.
      * intros Heq. assert (n = n') as <-; [|done].
        apply (suffix_sibling n n' dst r). by rewrite <- Heq.
    + intros n' r Hn'. destruct (decide (n' = n)) as [->|Hne].
      * destruct r as [|x r].
        -- simpl. by rewrite lookup_insert_eq, Hnd.
        -- rewrite lookup_insert_ne by (by apply not_eq_sym, Hdeeper).
           rewrite (Htodo n (x :: r) Hin), Hbelow, Hleaf by done. done.
      * rewrite lookup_insert_ne.
        -- apply Hdone. by apply Hothers.
        -- intros Heq. apply Hne. symmetry.
           apply (suffix_sibling n n' dst r). by rewrite <- Heq.
  - (* a directory *)
    rewrite (IsDir_NDir p).
    destruct (Hrec (n :: src) (n :: dst) fs p)
      as (fs' & -> & Hwf' & Hframe' & Hbelow').
    + done.
    + done.
    + intros [Heq|Hsuf]%suffix_cons_cases.
      * injection Heq as Heq. apply Hsd. by rewrite Heq.
      * apply Hsd. etrans; [|exact Hsuf]. by apply suffix_cons_r.
    + intros [Heq|Hsuf]%suffix_cons_cases.
      * injection Heq as Heq. apply Hsd. by rewrite Heq.
      * apply Hds. etrans; [|exact Hsuf]. by apply suffix_cons_r.
    + intros r. rewrite (Htodo n r Hin).
      rewrite (Hframe (r ++ n :: src)) by apply (src_child_outside src dst Hsd Hds).
      specialize (Hmerge (r ++ [n])). by rewrite <- !app_assoc in Hmerge.
    + destruct Hslot as [Hnone|[m' Hm']].
      * right. rewrite Hold. split; [done|]. exists md. by rewrite Hdst.
      * left. exists m'. by rewrite Hold.
    + intros r Hr.
      assert (is_Some (fs1 !! (r ++ n :: src))) as Hr1.
      { rewrite <- Hframe; [done|]. apply (src_child_outside src dst Hsd Hds). }
      rewrite cons_middle, app_assoc in Hr1.
      apply Hdepth in Hr1. rewrite length_app in Hr1. simpl in Hr1. lia.
    + eexists. split; [done|]. split; [|split; [|split; [|split]]].
      * done.
      * intros q Hq. rewrite Hframe'; [by apply Hframe|].
        intros Hsuf. apply Hq. etrans; [|exact Hsuf]. by apply suffix_cons_r.
      * rewrite Hframe'; [done|]. apply not_suffix_cons.
      * intros n' r Hn'. rewrite Hframe'.
        -- apply Htodo. by apply list_elem_of_further.
        -- apply sibling_outside. by intros ->.
      * intros n' r Hn'. destruct (decide (n' = n)) as [->|Hne].
        -- rewrite Hbelow', (Htodo n r Hin).
           by rewrite (Hframe (r ++ n :: src))
             by apply (src_child_outside src dst Hsd Hds).
        -- rewrite Hframe'.
           ++ apply Hdone. by apply Hothers.
           ++ apply sibling_outside. by intros ->.
  - (* neither *)
    rewrite (IsDir_NOther k p), (IsRegular_NOther k p) by done.
    eexists. split; [done|]. split; [done|]. split; [done|]. split; [done|].
    split.
    + intros n' r Hn'. apply Htodo. by apply list_elem_of_further.
    + intros n' r Hn'. destruct (decide (n' = n)) as [->|Hne].
      * rewrite (Htodo n r Hin). destruct r as [|x r].
        -- simpl. by rewrite Hnd.
        -- by rewrite Hleaf.
      * apply Hdone. by apply Hothers.
Qed.

Lemma merge_entries kids fs :
  NoDup kids.*1 →
  (∀ n nd, (n, nd) ∈ kids → fs1 !! (n :: src) = Some nd) →
  merging umask src dst fs1 kids.*1 fs →
  ∃ fs', for_range (map entry_info kids)
           (copyDir_entry umask (copyDir umask fuel) src dst) fs = (fs', Ok tt) ∧
         merging umask src dst fs1 [] fs'.
Proof.
  revert fs. induction kids as [|[n nd] kids IH]; intros fs Hnodup Hkids Hinv; simpl.
  - by exists fs.
  - simpl in Hnodup. apply NoDup_cons in Hnodup as [Hn Hnodup].
    destruct (merge_entry n nd kids.*1 fs) as (fs' & Hbody & Hinv');
      [done|done|apply Hkids, list_elem_of_here|].
    unfold bind. rewrite Hbody. apply IH; [done| |done].
    intros n' nd' Hin. by apply Hkids, list_elem_of_further.
Qed.
End merge_loop.

Lemma copyDir_merge_spec umask fuel : copyDir_merges umask fuel.
Proof.
  induction fuel as [|fuel IH];
    intros src dst fs m Hwf Hsrc Hsd Hds Hmerge Hready Hdepth.
  { specialize (Hdepth []). simpl in Hdepth.
    rewrite Hsrc in Hdepth. specialize (Hdepth ltac:(eauto)). lia. }
  pose proof (dst_ready_ancestors fs dst Hwf Hready) as Hanc.
  destruct (wf_lookup _ _ _ Hwf Hsrc) as [Hm _]. simpl in Hm.
  assert (src ≠ dst) as Hne by (by intros ->).
  destruct (os_MkdirAll_spec umask dst (mode_of (NDir m)) fs) as (fs1 & Hmk & Hwf1 & Hfs1).
  { done. }
  { intros q nd Hq Hnd. destruct (decide (q = dst)) as [->|Hqd].
    - destruct Hready as [[m' Hd]|[Hd _]]; rewrite Hd in Hnd; by simplify_eq.
    - destruct (Hanc q Hq Hqd) as [m' Hm']. rewrite Hm' in Hnd. by simplify_eq. }
  unfold created_perm in Hfs1. rewrite syscallMode_NDir in Hfs1 by done.
  assert (fs1 !! dst = Some (default (NDir (Z.ldiff m umask)) (fs !! dst))) as Hdst1.
  { rewrite Hfs1. destruct (fs !! dst); [done|]. by rewrite decide_True. }
  assert (∃ md, fs1 !! dst = Some (NDir md)) as [md Hmd].
  { rewrite Hdst1. destruct Hready as [[m' ->]|[-> _]]; by eexists. }
  assert (∀ q, q ≠ dst → fs1 !! q = fs !! q) as Hother.
  { intros q Hq. rewrite Hfs1. destruct (fs !! q) eqn:Hfq; [done|].
    case_decide as Hsuf; [|done].
    destruct (Hanc q Hsuf Hq) as [m' Hm']. by rewrite Hm' in Hfq. }
  assert (∀ r x, r ++ x :: dst ≠ dst) as Hlonger.
  { intros r x Heq. apply (f_equal length) in Heq.
    rewrite length_app in Heq. simpl in Heq. lia. }
  assert (∀ r, r ++ src ≠ dst) as Hsrcs.
  { intros r <-. apply Hsd. by apply suffix_app_r. }
  simpl. unfold bind, os_Stat. rewrite Hsrc. cbn [info_of Mode_].
  rewrite Hmk. unfold os_Open, file_Readdir.
  rewrite (Hother src Hne), Hsrc, (Hother src Hne), Hsrc.
  destruct (merge_entries umask fuel src dst fs1 md IH Hwf1 Hsd Hds Hmd)
    with (kids := children src fs1) (fs := fs1)
    as (fs' & Hloop & Hwf' & Hframe' & Hdst' & _ & Hdone').
  - intros r. rewrite (Hother _ (Hsrcs r)).
    specialize (Hmerge r). destruct r as [|x r].
    + simpl in *. rewrite Hsrc. right. by eexists.
    + rewrite (Hother ((x :: r) ++ dst)); [done|].
      simpl. intros Heq. apply (f_equal length) in Heq.
      simpl in Heq. rewrite length_app in Heq. lia.
  - intros r Hr. rewrite (Hother _ (Hsrcs r)) in Hr. by apply Hdepth.
  - apply NoDup_children.
  - intros n nd. apply elem_of_children.
  - split; [done|]. split; [done|]. split; [done|]. split; [done|].
    intros n r Hn.
    assert (fs1 !! (n :: src) = None) as Hkid.
    { destruct (fs1 !! (n :: src)) as [nd|] eqn:Hnd; [|done].
      destruct Hn. apply list_elem_of_fmap. exists (n, nd).
      split; [done|]. by apply elem_of_children. }
    destruct r as [|x r]; [simpl; by rewrite Hkid|].
    rewrite (wf_below fs1 (n :: src) (x :: r)); [done|done|done|].
    intros m'. by rewrite Hkid.
  - exists fs'. split; [exact Hloop|]. split; [done|]. split.
    + intros q Hq. rewrite Hframe' by done. apply Hother.
      intros ->. by apply Hq.
    + intros r. destruct r as [|x r _] using rev_ind.
      * simpl. by rewrite Hdst', Hdst1, Hsrc.
      * rewrite <- !app_assoc. simpl.
        rewrite Hdone' by apply not_elem_of_nil.
        rewrite !Hother; [done|done|].
        rewrite cons_middle, app_assoc. apply Hsrcs.
Qed.

(** [Copy], with a recursion bound past the depth of the source. *)
Lemma Copy_merge_spec (umask : Z) (fuel : nat) (src dst : path) (fs : FS) (m : Z) :
  wf fs → fs !! src = Some (NDir m) →
  ¬ src `suffix_of` dst → ¬ dst `suffix_of` src →
  mergeable fs src dst → dirs_to fs dst →
  (∀ r, is_Some (fs !! (r ++ src)) → (length r < fuel)%nat) →
  ∃ fs' : FS, Copy umask fuel dst src fs = (fs', Ok tt) ∧ wf fs' ∧
    (∀ r, fs' !! (r ++ dst) = merged umask (fs !! (r ++ src)) (fs !! (r ++ dst))) ∧
    (∀ q, ¬ dst `suffix_of` q →
          fs' !! q = match fs !! q with
                     | Some nd => Some nd
                     | None => if decide (q `suffix_of` dst)
                               then Some (NDir (Z.ldiff m umask)) else None
                     end).
Proof.
  intros Hwf Hsrc Hsd Hds Hmerge Hdirs Hdepth.
  destruct (wf_lookup _ _ _ Hwf Hsrc) as [Hm _]. simpl in Hm.
  destruct (os_MkdirAll_spec umask dst (mode_of (NDir m)) fs)
    as (fs0 & Hmk & Hwf0 & Hfs0); [done|done|].
  unfold created_perm in Hfs0. rewrite syscallMode_NDir in Hfs0 by done.
  assert (∀ r, fs0 !! (r ++ src) = fs !! (r ++ src)) as Hsrc0.
  { intros r. rewrite Hfs0. destruct (fs !! (r ++ src)); [done|].
    rewrite decide_False; [done|]. intros Hsuf. apply Hsd.
    etrans; [|exact Hsuf]. by apply suffix_app_r. }
  assert (∀ r, r ≠ [] → fs0 !! (r ++ dst) = fs !! (r ++ dst)) as Hbelow0.
  { intros r Hr. rewrite Hfs0. destruct (fs !! (r ++ dst)); [done|].
    rewrite decide_False; [done|].
    intros Hsuf%suffix_length. rewrite length_app in Hsuf.
    destruct r; [done|]. simpl in Hsuf. lia. }
  assert (fs0 !! dst = Some (default (NDir (Z.ldiff m umask)) (fs !! dst))) as Hdst0.
  { rewrite Hfs0. destruct (fs !! dst); [done|]. by rewrite decide_True. }
  assert (∃ md, fs0 !! dst = Some (NDir md)) as [md Hmd].
  { rewrite Hdst0. destruct (fs !! dst) as [nd|] eqn:Hd; [|by eexists].
    pose proof (Hdirs dst nd ltac:(done) Hd) as Hdir.
    destruct nd; [done|by eexists|done]. }
  destruct (copyDir_merge_spec umask fuel src dst fs0 m)
    as (fs' & Hcopy & Hwf' & Hframe' & Hbelow').
  - done.
  - pose proof (Hsrc0 []) as H0. simpl in H0. by rewrite H0.
  - done.
  - done.
  - intros r. rewrite Hsrc0. specialize (Hmerge r). destruct r as [|x r].
    + simpl in *. rewrite Hsrc. right. by eexists.
    + by rewrite Hbelow0.
  - left. by eexists.
  - intros r Hr. rewrite Hsrc0 in Hr. by apply Hdepth.
  - exists fs'. split; [|split; [done|split]].
    + unfold Copy, bind, os_Stat. rewrite Hsrc. cbn [info_of Mode_].
      by rewrite Hmk.
    + intros r. rewrite Hbelow', Hsrc0. destruct r as [|x r].
      * simpl. rewrite Hsrc, Hdst0. simpl. by destruct (fs !! dst).
      * by rewrite Hbelow0.
    + intros q Hq. by rewrite Hframe', Hfs0.
Qed.


Lemma merge_disk_wf : wf merge_disk.
Proof. apply (bool_decide_unpack _). by vm_compute. Qed.

Lemma merge_disk_mergeable : mergeable merge_disk ["a"] ["c"].
Proof.
  intros r. destruct (merge_disk !! (r ++ ["a"])) as [nd|] eqn:Hr; [|done].
  apply elem_of_list_to_map_2 in Hr.
  repeat (apply elem_of_cons in Hr as [Hr|Hr];
          [injection Hr as Hq ->;
           destruct r as [|x1 [|x2 [|x3 [|x4 r]]]]; simpl in Hq; simplify_eq;
           try done; vm_compute; eauto|]).
  by apply elem_of_nil in Hr.
Qed.

Lemma merge_disk_dirs_to : dirs_to merge_disk ["c"].
Proof.
  intros q nd [->|Hq]%suffix_cons_cases.
  - by intros [= <-].
  - apply suffix_nil_inv in Hq as ->. by intros [= <-].
Qed.


Lemma merged_again umask (s d : option node) :
  merged umask s (merged umask s d) = merged umask s d.
Proof. by destruct s as [[]|]. Qed.

(** X22: run a second time, [Copy] returns nil again and leaves the disk
    as the first run left it. *)
Theorem Copy_again (umask : Z) (src dst : path) (fs : FS) (m : Z) :
  wf fs → fs !! src = Some (NDir m) →
  ¬ src `suffix_of` dst → ¬ dst `suffix_of` src →
  mergeable fs src dst → dirs_to fs dst →
  ∃ fuel0, ∀ fuel, (fuel0 ≤ fuel)%nat →
    ∃ fs' : FS, Copy umask fuel dst src fs = (fs', Ok tt) ∧
                Copy umask fuel dst src fs' = (fs', Ok tt).
Proof.
  intros Hwf Hsrc Hsd Hds Hmerge Hdirs.
  destruct (paths_bounded fs) as [fuel0 Hbound].
  exists fuel0. intros fuel Hfuel.
  assert (∀ r, is_Some (fs !! (r ++ src)) → (length r < fuel)%nat) as Hdepth.
  { intros r Hr. apply Hbound in Hr. rewrite length_app in Hr. lia. }
  destruct (Copy_merge_spec umask fuel src dst fs m)
    as (fs' & Hrun & Hwf' & Hbelow & Hframe); [done..|].
  exists fs'. split; [done|].
  assert (∀ r, fs' !! (r ++ src) = fs !! (r ++ src)) as Hsrc'.
  { intros r. rewrite Hframe by apply (src_outside_dst src dst Hsd Hds).
    destruct (fs !! (r ++ src)); [done|].
    rewrite decide_False; [done|]. intros Hsuf. apply Hsd.
    etrans; [|exact Hsuf]. by apply suffix_app_r. }
  assert (∃ md, fs' !! dst = Some (NDir md)) as [md Hmd].
  { specialize (Hbelow []). specialize (Hmerge []). simpl in *.
    rewrite Hsrc in Hbelow, Hmerge. rewrite Hbelow.
    destruct Hmerge as [->|[m' ->]]; by eexists. }
  destruct (Copy_merge_spec umask fuel src dst fs' m)
    as (fs'' & Hrun' & _ & Hbelow' & Hframe').
  - done.
  - specialize (Hsrc' []). simpl in Hsrc'. by rewrite Hsrc'.
  - done.
  - done.
  - intros r. rewrite Hsrc', Hbelow. specialize (Hmerge r).
    destruct (fs !! (r ++ src)) as [[p b|m'|]|]; [|
      destruct Hmerge as [->|[m'' ->]]|..]; simpl; eauto.
  - intros q nd Hq Hnd. destruct (decide (q = dst)) as [->|Hne].
    + rewrite Hmd in Hnd. by simplify_eq.
    + destruct (wf_above fs' q dst) as [m' Hm']; [done|by eexists|done|done|].
      rewrite Hm' in Hnd. by simplify_eq.
  - intros r. rewrite Hsrc'. apply Hdepth.
  - rewrite Hrun'. f_equal. apply map_eq. intros q.
    destruct (decide (dst `suffix_of` q)) as [[r ->]|Hout].
    + by rewrite Hbelow', Hsrc', Hbelow, merged_again.
    + rewrite Hframe' by done.
      destruct (fs' !! q) eqn:Hq; [done|].
      case_decide as Hanc; [|done].
      rewrite Hframe in Hq by done.
      destruct (fs !! q); [done|]. by rewrite decide_True in Hq.
Qed.

Lemma Copy_again_witness :
  wf merge_disk ∧ merge_disk !! ["a"] = Some (NDir 493) ∧
  ¬ ["a"] `suffix_of` ["c"] ∧ ¬ ["c"] `suffix_of` ["a"] ∧
  mergeable merge_disk ["a"] ["c"] ∧ dirs_to merge_disk ["c"] ∧
  ∃ fuel0, ∀ fuel, (fuel0 ≤ fuel)%nat →
    ∃ fs' : FS, Copy umask_022 fuel ["c"] ["a"] merge_disk = (fs', Ok tt) ∧
                Copy umask_022 fuel ["c"] ["a"] fs' = (fs', Ok tt).
Proof.
  assert (¬ ["a"] `suffix_of` ["c"]) as Hsd.
  { apply (bool_decide_unpack _). by vm_compute. }
  assert (¬ ["c"] `suffix_of` ["a"]) as Hds.
  { apply (bool_decide_unpack _). by vm_compute. }
  split; [exact merge_disk_wf|]. split; [reflexivity|]. split; [exact Hsd|].
  split; [exact Hds|]. split; [exact merge_disk_mergeable|].
  split; [exact merge_disk_dirs_to|].
  exact (Copy_again umask_022 ["a"] ["c"] merge_disk 493
           merge_disk_wf eq_refl Hsd Hds merge_disk_mergeable merge_disk_dirs_to).
Defined.

(** ** Untar: where the entries go (C5) *)



